(** * go-netting: the obligation graph engine of [main.go]

    A shallow embedding of the netting pipeline (graph construction,
    Tarjan's SCC detection, bounded cycle enumeration, per-token netting,
    extraction of the residual intents) and the properties established
    about it.

    Conventions of the embedding.
    - [uint64] values are integers of [Z] in the range [0 .. 2^64-1]; the
      arithmetic of the source ([+=], [-=]) is written with its wrap-around
      ([wadd], [wsub]).
    - [int] values (indices, depths) are integers of [Z].  The source takes
      the minimum of two [int]s through [float64]; on the values that occur
      (vertex counters) the conversion is exact, so it is [Z.min].
    - [map[string]T] is a [gmap string T].  Go leaves the order in which
      [range] visits a map unspecified: every [range] over a map takes its
      order from an [Oracle], and the properties are shown for all of them.
    - The closures of the source mutate captured variables; here they pass
      an explicit state record.  The recursive closures run on fuel, and
      the fuel the callers give is shown to be enough. *)

From Stdlib Require Import ZArith Lia.
From stdpp Require Import base option list list_monad gmap sets strings fin_maps.

Open Scope Z_scope.

(** ** Machine integers *)

Definition MaxUint64 : Z := 18446744073709551615.
Definition wrap64 (x : Z) : Z := x mod 2 ^ 64.
Definition wadd (x y : Z) : Z := wrap64 (x + y).
Definition wsub (x y : Z) : Z := wrap64 (x - y).
Definition is_uint64 (x : Z) : Prop := 0 ≤ x ≤ MaxUint64.

(** [int(math.Min(float64(a), float64(b)))] on vertex counters. *)
Definition minInt (a b : Z) : Z := Z.min a b.

(** ** Results of code that can panic, run on fuel *)

Inductive result (A : Type) : Type :=
  | Ok (a : A)
  | Panic
  | OutOfFuel.
Arguments Ok {A} a.
Arguments Panic {A}.
Arguments OutOfFuel {A}.

Global Instance result_ret : MRet result := λ A a, Ok a.
Global Instance result_bind : MBind result := λ A B f r,
  match r with
  | Ok a => f a
  | Panic => Panic
  | OutOfFuel => OutOfFuel
  end.

(** A [for] loop over a slice whose body can fail. *)
Fixpoint foldM {A B : Type} (f : A → B → result A) (l : list B) (a : A)
    : result A :=
  match l with
  | [] => Ok a
  | b :: l' => a' ← f a b; foldM f l' a'
  end.

(** ** Data model *)

Record Intent : Type := mkIntent {
  Sender : string;
  Receiver : string;
  Token : string;
  Amount : Z
}.

Record Edge : Type := mkEdge {
  To : string;
  EdgeToken : string;
  EdgeAmount : Z
}.

Global Instance Intent_eq_dec : EqDecision Intent.
Proof. solve_decision. Defined.
Global Instance Edge_eq_dec : EqDecision Edge.
Proof. solve_decision. Defined.

(** [Graph.Edges : map[string][]Edge]. *)
Abbreviation Graph := (gmap string (list Edge)).

Definition NewGraph : Graph := ∅.

(** [g.Edges[from]]: the nil slice when [from] is not a key. *)
Definition edgesOf (g : Graph) (from : string) : list Edge :=
  default [] (g !! from).

(** The keys of a map, in the order the oracle is asked to permute. *)
Definition keys {V : Type} (m : gmap string V) : list string :=
  (map_to_list m).*1.

(** The order of the [n]-th [range] over a map, given the map's keys. *)
Definition Oracle : Type := nat → list string → list string.

Definition fair (o : Oracle) : Prop := ∀ n ks, o n ks ≡ₚ ks.

Definition idOracle : Oracle := λ _ ks, ks.

(** ** [AddEdge] *)

Definition matches (to token : string) (e : Edge) : bool :=
  bool_decide (To e = to) && bool_decide (EdgeToken e = token).

(** The loop of [AddEdge]: add [amount] to the first edge to [to] in
    [token]; [None] when the loop ends without finding one. *)
Fixpoint mergeEdge (es : list Edge) (to token : string) (amount : Z)
    : option (list Edge) :=
  match es with
  | [] => None
  | e :: es' =>
      if matches to token e
      then Some (mkEdge (To e) (EdgeToken e) (wadd (EdgeAmount e) amount) :: es')
      else (e ::.) <$> mergeEdge es' to token amount
  end.

Definition AddEdge (g : Graph) (from to token : string) (amount : Z) : Graph :=
  match mergeEdge (edgesOf g from) to token amount with
  | Some es => <[from := es]> g
  | None => <[from := edgesOf g from ++ [mkEdge to token amount]]> g
  end.

Definition buildGraph (intents : list Intent) : Graph :=
  fold_left (λ g i, AddEdge g (Sender i) (Receiver i) (Token i) (Amount i))
            intents NewGraph.

(** ** [FindSCCs]: Tarjan's algorithm *)

(** The variables captured by [strongConnect].  [stack] is kept with the
    top of the slice (its last element) at the head of the list. *)
Record tarjan : Type := mkTarjan {
  index : Z;
  stack : list string;
  onStack : gmap string bool;
  indices : gmap string Z;
  lowlink : gmap string Z;
  sccs : list (list string)
}.

Definition lowlinkOf (s : tarjan) (v : string) : Z := default 0 (lowlink s !! v).
Definition indexOf (s : tarjan) (v : string) : Z := default 0 (indices s !! v).
Definition isOnStack (s : tarjan) (v : string) : bool :=
  default false (onStack s !! v).

Definition setLowlink (s : tarjan) (v : string) (x : Z) : tarjan :=
  mkTarjan (index s) (stack s) (onStack s) (indices s)
           (<[v := x]> (lowlink s)) (sccs s).

(** Lines 62-66: number [v] and push it. *)
Definition enter (v : string) (s : tarjan) : tarjan :=
  mkTarjan (index s + 1) (v :: stack s) (<[v := true]> (onStack s))
           (<[v := index s]> (indices s)) (<[v := index s]> (lowlink s))
           (sccs s).

(** Lines 84-92: pop down to and including [v].  Reading the top of an
    empty stack is an index out of range. *)
Fixpoint popSCC (v : string) (stk : list string) (on : gmap string bool)
    (scc : list string) : result (list string * gmap string bool * list string) :=
  match stk with
  | [] => Panic
  | w :: stk' =>
      let on' := <[w := false]> on in
      let scc' := scc ++ [w] in
      if decide (w = v) then Ok (stk', on', scc') else popSCC v stk' on' scc'
  end.

(** Lines 82-96. *)
Definition finish (v : string) (s : tarjan) : result tarjan :=
  if decide (lowlinkOf s v = indexOf s v) then
    '(stk, on, scc) ← popSCC v (stack s) (onStack s) [];
    Ok (mkTarjan (index s) stk on (indices s) (lowlink s)
          (if decide (1 < length scc)%nat then sccs s ++ [scc] else sccs s))
  else Ok s.

Fixpoint strongConnect (fuel : nat) (g : Graph) (v : string) (s : tarjan)
    : result tarjan :=
  match fuel with
  | O => OutOfFuel
  | S fuel' =>
      s ← foldM (λ s edge,
             let w := To edge in
             match indices s !! w with
             | None =>
                 s ← strongConnect fuel' g w s;
                 Ok (setLowlink s v (minInt (lowlinkOf s v) (lowlinkOf s w)))
             | Some iw =>
                 if isOnStack s w
                 then Ok (setLowlink s v (minInt (lowlinkOf s v) iw))
                 else Ok s
             end) (edgesOf g v) (enter v s);
      finish v s
  end.

(** Every party of the graph: the keys and the destinations. *)
Definition vertices (g : Graph) : gset string :=
  dom g ∪ list_to_set (kv ← map_to_list g; To <$> kv.2).

Definition tarjan0 : tarjan := mkTarjan 0 [] ∅ ∅ ∅ [].

(** [roots] is the order in which [range g.Edges] visits the keys. *)
Definition FindSCCs (roots : list string) (g : Graph) : result (list (list string)) :=
  s ← foldM (λ s v,
         match indices s !! v with
         | None => strongConnect (size (vertices g)) g v s
         | Some _ => Ok s
         end) roots tarjan0;
  Ok (sccs s).

(** ** [FindCycles] *)

Record search : Type := mkSearch {
  cycles : list (list string);
  visited : gmap string bool;
  path : list string
}.

Definition isVisited (s : search) (v : string) : bool :=
  default false (visited s !! v).

Fixpoint findCyclesRecursive (fuel : nat) (g : Graph) (maxLength : Z)
    (current start : string) (depth : Z) (s : search) : result search :=
  match fuel with
  | O => OutOfFuel
  | S fuel' =>
      if decide (depth > maxLength) then Ok s
      else if decide (depth > 0 ∧ current = start) then
        Ok (mkSearch (cycles s ++ [path s]) (visited s) (path s))
      else
        s ← foldM (λ s edge,
               if negb (isVisited s (To edge)) || bool_decide (To edge = start)
               then findCyclesRecursive fuel' g maxLength (To edge) start (depth + 1) s
               else Ok s)
             (edgesOf g current)
             (mkSearch (cycles s) (<[current := true]> (visited s))
                       (path s ++ [current]));
        Ok (mkSearch (cycles s) (<[current := false]> (visited s))
                     (removelast (path s)))
  end.

Definition search0 : search := mkSearch [] ∅ [].

(** The recursion stops at depth [maxLength + 1]. *)
Definition cycleFuel (maxLength : Z) : nat := S (Z.to_nat (maxLength + 1)).

Definition FindCycles (g : Graph) (scc : list string) (maxLength : Z)
    : result (list (list string)) :=
  s ← foldM (λ s v, findCyclesRecursive (cycleFuel maxLength) g maxLength v v 0 s)
            scc search0;
  Ok (cycles s).

(** ** Netting *)

(** The pairs [(cycle[i], cycle[(i+1) % len(cycle)])] for [i = 0 .. len-1]. *)
Definition cyclePairs (cycle : list string) : list (string * string) :=
  (λ i, (nth i cycle "", nth ((i + 1) mod length cycle) cycle ""))
    <$> seq 0 (length cycle).

Definition findEdge (es : list Edge) (to token : string) : option Edge :=
  snd <$> list_find (matches to token) es.

Definition CalculateNetting (g : Graph) (cycle : list string) (token : string) : Z :=
  fold_left (λ minAmount '(from, to),
     match findEdge (edgesOf g from) to token with
     | Some e => if decide (EdgeAmount e < minAmount) then EdgeAmount e else minAmount
     | None => minAmount
     end) (cyclePairs cycle) MaxUint64.

(** The inner loop of [ApplyNetting]. *)
Fixpoint subEdge (es : list Edge) (to token : string) (amount : Z) : list Edge :=
  match es with
  | [] => []
  | e :: es' =>
      if matches to token e
      then mkEdge (To e) (EdgeToken e) (wsub (EdgeAmount e) amount) :: es'
      else e :: subEdge es' to token amount
  end.

Definition ApplyNetting (g : Graph) (cycle : list string) (token : string)
    (amount : Z) : Graph :=
  fold_left (λ g '(from, to), alter (λ es, subEdge es to token amount) from g)
            (cyclePairs cycle) g.

(** ** [ToIntents] *)

Definition edgeIntents (from : string) (es : list Edge) : list Intent :=
  omap (λ e, if decide (EdgeAmount e > 0)
             then Some (mkIntent from (To e) (EdgeToken e) (EdgeAmount e))
             else None) es.

(** [order] is the order in which [range g.Edges] visits the keys. *)
Definition ToIntents (order : list string) (g : Graph) : list Intent :=
  from ← order; edgeIntents from (edgesOf g from).

(** ** [ProcessNetting] *)

(** Lines 226-235: the tokens on the edges of the cycle. *)
Definition tokenMap (g : Graph) (cycle : list string) : gmap string bool :=
  fold_left (λ tm '(from, to),
     fold_left (λ tm edge,
        if bool_decide (To edge = to) then <[EdgeToken edge := true]> tm else tm)
        (edgesOf g from) tm)
     (cyclePairs cycle) ∅.

(** Lines 238-243, for the tokens in the order [tokens]. *)
Definition netTokens (g : Graph) (cycle : list string) (tokens : list string) : Graph :=
  fold_left (λ g token,
     let amount := CalculateNetting g cycle token in
     if decide (amount > 0) then ApplyNetting g cycle token amount else g)
     tokens g.

(** The body of the loop over the cycles; the state is the graph and the
    number of map [range]s executed so far. *)
Definition netCycle (o : Oracle) (st : Graph * nat) (cycle : list string)
    : Graph * nat :=
  (netTokens st.1 cycle (o st.2 (keys (tokenMap st.1 cycle))), S st.2).

Definition maxCycleLength : Z := 4.

Definition netSCC (o : Oracle) (st : Graph * nat) (scc : list string)
    : result (Graph * nat) :=
  cycles ← FindCycles st.1 scc maxCycleLength;
  Ok (fold_left (netCycle o) cycles st).

Definition ProcessNetting (o : Oracle) (intents : list Intent)
    : result (list Intent) :=
  let g := buildGraph intents in
  sccs ← FindSCCs (o 0%nat (keys g)) g;
  st ← foldM (netSCC o) sccs (g, 1%nat);
  Ok (ToIntents (o st.2 (keys st.1)) st.1).

(** * Properties *)

(** ** Basic facts about edge lists *)

Lemma edgesOf_insert (g : Graph) from es from' :
  edgesOf (<[from := es]> g) from' = if decide (from = from') then es else edgesOf g from'.
Proof.
  unfold edgesOf. rewrite lookup_insert. by repeat case_decide.
Qed.

Lemma edgesOf_alter (g : Graph) (f : list Edge → list Edge) from from' :
  f [] = [] →
  edgesOf (alter f from g) from' = if decide (from = from') then f (edgesOf g from') else edgesOf g from'.
Proof.
  intros Hf. unfold edgesOf. rewrite lookup_alter. case_decide; subst; [|done].
  by destruct (g !! from').
Qed.

Lemma matches_spec to token e :
  matches to token e = true ↔ To e = to ∧ EdgeToken e = token.
Proof.
  unfold matches. rewrite andb_true_iff, !bool_decide_eq_true. done.
Qed.

Lemma findEdge_nil to token : findEdge [] to token = None.
Proof. done. Qed.

Lemma findEdge_cons e es to token :
  findEdge (e :: es) to token =
    if matches to token e then Some e else findEdge es to token.
Proof.
  unfold findEdge. simpl. destruct (matches to token e); simpl; [done|].
  destruct (list_find _ es) as [[??]|]; done.
Qed.

Lemma findEdge_Some es to token e :
  findEdge es to token = Some e → e ∈ es ∧ To e = to ∧ EdgeToken e = token.
Proof.
  induction es as [|e' es IH]; [done|]. rewrite findEdge_cons.
  destruct (matches to token e') eqn:Hm.
  - intros [= ->]. apply matches_spec in Hm. split; [left|done].
  - intros H. destruct (IH H) as (?&?&?). split; [by right|done].
Qed.

Lemma findEdge_None es to token :
  findEdge es to token = None ↔ ∀ e, e ∈ es → matches to token e = false.
Proof.
  induction es as [|e' es IH].
  - split; [|done]. intros _ e He. inversion He.
  - rewrite findEdge_cons. destruct (matches to token e') eqn:Hm.
    + split; [done|]. intros H. specialize (H e' (list_elem_of_here _ _)). congruence.
    + rewrite IH. split.
      * intros H e He. apply elem_of_cons in He as [->|He]; auto.
      * intros H e He. apply H. by right.
Qed.

(** ** The merge invariant of [AddEdge] *)

Definition edgeKey (e : Edge) : string * string := (To e, EdgeToken e).

(** At most one edge for any (from, to, token). *)
Definition unique_edges (g : Graph) : Prop :=
  ∀ from, NoDup (edgeKey <$> edgesOf g from).

Lemma mergeEdge_keys es to token amount es' :
  mergeEdge es to token amount = Some es' → edgeKey <$> es' = edgeKey <$> es.
Proof.
  revert es'. induction es as [|e es IH]; intros es'; simpl; [done|].
  destruct (matches to token e).
  - by intros [= <-].
  - destruct (mergeEdge es to token amount) as [es0|]; simpl; [|done].
    intros [= <-]. simpl. f_equal. by apply IH.
Qed.

Lemma mergeEdge_None es to token amount :
  mergeEdge es to token amount = None ↔ findEdge es to token = None.
Proof.
  induction es as [|e es IH]; simpl; [done|]. rewrite findEdge_cons.
  destruct (matches to token e); [done|].
  destruct (mergeEdge es to token amount); simpl.
  - split; [done|]. intros H. apply IH in H. done.
  - split; [|done]. intros _. by apply IH.
Qed.

Lemma findEdge_None_key es to token :
  findEdge es to token = None ↔ (to, token) ∉ edgeKey <$> es.
Proof.
  rewrite findEdge_None, list_elem_of_fmap. split.
  - intros H (e & Hk & He). specialize (H e He).
    assert (matches to token e = true); [|congruence].
    apply matches_spec. unfold edgeKey in Hk. by simplify_eq.
  - intros H e He. destruct (matches to token e) eqn:Hm; [|done].
    exfalso. apply H. exists e. split; [|done].
    apply matches_spec in Hm as [<- <-]. done.
Qed.

Lemma AddEdge_unique g from to token amount :
  unique_edges g → unique_edges (AddEdge g from to token amount).
Proof.
  intros Hg from'. unfold AddEdge.
  destruct (mergeEdge (edgesOf g from) to token amount) as [es|] eqn:Hm;
    rewrite edgesOf_insert; case_decide; subst; try apply Hg.
  - apply mergeEdge_keys in Hm. rewrite Hm. apply Hg.
  - apply mergeEdge_None, findEdge_None_key in Hm.
    rewrite fmap_app. simpl. apply NoDup_app. split_and!.
    + apply Hg.
    + intros k Hk Hk'. apply list_elem_of_singleton in Hk'. by subst.
    + apply NoDup_singleton.
Qed.

Lemma filter_matches_absent es to token :
  findEdge es to token = None → filter (λ e, matches to token e = true) es = [].
Proof.
  rewrite findEdge_None. induction es as [|e es IH]; intros H; [done|].
  rewrite filter_cons. rewrite decide_False.
  - apply IH. intros e' He'. apply H. by right.
  - rewrite (H e); [done|left].
Qed.

Lemma AddEdge_twice g A B T x y :
  findEdge (edgesOf g A) B T = None →
  filter (λ e, matches B T e = true)
         (edgesOf (AddEdge (AddEdge g A B T x) A B T y) A)
  = [mkEdge B T (wadd x y)].
Proof.
  intros Hnone.
  assert (Hmt : matches B T (mkEdge B T x) = true) by (by apply matches_spec).
  assert (H1 : edgesOf (AddEdge g A B T x) A = edgesOf g A ++ [mkEdge B T x]).
  { unfold AddEdge. rewrite (proj2 (mergeEdge_None _ _ _ _) Hnone).
    rewrite edgesOf_insert. by rewrite decide_True. }
  assert (H2 : ∀ es, findEdge es B T = None →
     mergeEdge (es ++ [mkEdge B T x]) B T y = Some (es ++ [mkEdge B T (wadd x y)])).
  { induction es as [|e es IH]; simpl; intros Hes.
    - by rewrite Hmt.
    - rewrite findEdge_cons in Hes. destruct (matches B T e); [done|].
      by rewrite IH. }
  unfold AddEdge at 1. rewrite H1, (H2 _ Hnone), edgesOf_insert, decide_True by done.
  rewrite filter_app, filter_matches_absent by done. simpl.
  rewrite filter_cons, decide_True; [done|]. by apply matches_spec.
Qed.

Lemma wadd_exact x y : 0 ≤ x + y ≤ MaxUint64 → wadd x y = x + y.
Proof. unfold wadd, wrap64, MaxUint64. intros. apply Z.mod_small. lia. Qed.

(** C4 (amended).  [AddEdge] keeps the graph free of duplicate (from, to,
    token) edges: the invariant [unique_edges] is preserved by every
    call; and, on a graph with no edge (A,B,T) yet (a new graph in
    particular), inserting (A,B,T,x) and then (A,B,T,y) leaves exactly
    one edge (A,B,T), whose amount is the [uint64] sum of x and y: x+y
    modulo 2^64, which is x+y whenever x+y is at most [MaxUint64]. *)
Theorem AddEdge_merge_invariant (g : Graph) (from to token : string) (amount : Z)
    (A B T : string) (x y : Z) :
  unique_edges g →
  findEdge (edgesOf g A) B T = None →
  unique_edges (AddEdge g from to token amount)
  ∧ unique_edges (AddEdge (AddEdge g A B T x) A B T y)
  ∧ filter (λ e, matches B T e = true)
           (edgesOf (AddEdge (AddEdge g A B T x) A B T y) A)
    = [mkEdge B T (wadd x y)]
  ∧ (0 ≤ x + y ≤ MaxUint64 → wadd x y = x + y).
Proof.
  intros Hg Hnone. split_and!.
  - by apply AddEdge_unique.
  - by do 2 apply AddEdge_unique.
  - by apply AddEdge_twice.
  - apply wadd_exact.
Qed.

Lemma unique_edges_empty : unique_edges NewGraph.
Proof. intros from. unfold edgesOf, NewGraph. rewrite lookup_empty. constructor. Qed.

Lemma AddEdge_merge_invariant_witness :
  unique_edges NewGraph
  ∧ filter (λ e, matches "B" "ETH" e = true)
           (edgesOf (AddEdge (AddEdge NewGraph "A" "B" "ETH" 100) "A" "B" "ETH" 50) "A")
    = [mkEdge "B" "ETH" 150].
Proof.
  split; [apply unique_edges_empty|].
  pose proof (AddEdge_merge_invariant NewGraph "C" "D" "ETH" 7 "A" "B" "ETH" 100 50
                unique_edges_empty eq_refl) as (_ & _ & H & _).
  exact H.
Defined.

(** ** The frame of [ApplyNetting] *)

(** The loop of [ApplyNetting] over any list of pairs. *)
Definition applyPairs (token : string) (amount : Z) (ps : list (string * string))
    (g : Graph) : Graph :=
  fold_left (λ g '(from, to), alter (λ es, subEdge es to token amount) from g) ps g.

Lemma ApplyNetting_applyPairs g cycle token amount :
  ApplyNetting g cycle token amount = applyPairs token amount (cyclePairs cycle) g.
Proof. done. Qed.

Lemma applyPairs_cons token amount from to ps g :
  applyPairs token amount ((from, to) :: ps) g
  = applyPairs token amount ps (alter (λ es, subEdge es to token amount) from g).
Proof. done. Qed.

Lemma applyPairs_dom token amount ps g : dom (applyPairs token amount ps g) = dom g.
Proof.
  revert g. induction ps as [|[from to] ps IH]; intros g; [done|].
  rewrite applyPairs_cons, IH. apply dom_alter_L.
Qed.

Lemma subEdge_length es to token amount :
  length (subEdge es to token amount) = length es.
Proof.
  induction es as [|e es IH]; simpl; [done|].
  destruct (matches to token e); simpl; by rewrite ?IH.
Qed.

Lemma subEdge_keys es to token amount :
  edgeKey <$> subEdge es to token amount = edgeKey <$> es.
Proof.
  induction es as [|e es IH]; csimpl; [done|].
  destruct (matches to token e); csimpl; by rewrite ?IH.
Qed.

Lemma subEdge_lookup_other es to token amount j e :
  EdgeToken e ≠ token →
  subEdge es to token amount !! j = Some e ↔ es !! j = Some e.
Proof.
  intros Hne. revert j. induction es as [|e0 es IH]; intros j; simpl; [done|].
  destruct (matches to token e0) eqn:Hm; [|destruct j; simpl; [done|apply IH]].
  apply matches_spec in Hm as [_ Htok].
  destruct j; simpl; [|done].
  split; intros [= <-]; simpl in *; congruence.
Qed.

Lemma applyPairs_lookup_other token amount ps g from j e :
  EdgeToken e ≠ token →
  edgesOf (applyPairs token amount ps g) from !! j = Some e
  ↔ edgesOf g from !! j = Some e.
Proof.
  intros Hne. revert g. induction ps as [|[f t] ps IH]; intros g; [done|].
  rewrite applyPairs_cons, IH, edgesOf_alter by done.
  case_decide; [|done]. by apply subEdge_lookup_other.
Qed.

(** C8.  [ApplyNetting] for token [T] leaves every edge in another token
    as it is, whatever the parties of the edge: the edge lists of the
    result hold, at every position, the same edges not in [T] as before,
    and the graph has the same keys. *)
Theorem ApplyNetting_token_isolation (g : Graph) (cycle : list string)
    (T : string) (amount : Z) (from : string) (j : nat) (e : Edge) :
  EdgeToken e ≠ T →
  (edgesOf (ApplyNetting g cycle T amount) from !! j = Some e
   ↔ edgesOf g from !! j = Some e)
  ∧ dom (ApplyNetting g cycle T amount) = dom g
  ∧ length (edgesOf (ApplyNetting g cycle T amount) from) = length (edgesOf g from).
Proof.
  intros Hne. rewrite ApplyNetting_applyPairs. split_and!.
  - by apply applyPairs_lookup_other.
  - apply applyPairs_dom.
  - generalize (cyclePairs cycle). intros ps. revert g.
    induction ps as [|[f t] ps IH]; intros g; [done|].
    rewrite applyPairs_cons, IH, edgesOf_alter by done.
    case_decide; [apply subEdge_length|done].
Qed.

(** Two parties that owe each other in two tokens. *)
Definition twoTokenGraph : Graph :=
  buildGraph [mkIntent "A" "B" "ETH" 100; mkIntent "B" "A" "ETH" 60;
              mkIntent "A" "B" "USDC" 5; mkIntent "B" "A" "USDC" 9].

Lemma ApplyNetting_token_isolation_witness :
  edgesOf twoTokenGraph "A" !! 1%nat = Some (mkEdge "B" "USDC" 5)
  ∧ edgesOf (ApplyNetting twoTokenGraph ["A"; "B"] "ETH" 60) "A" !! 1%nat
    = Some (mkEdge "B" "USDC" 5)
  ∧ edgesOf (ApplyNetting twoTokenGraph ["A"; "B"] "ETH" 60) "A" !! 0%nat
    = Some (mkEdge "B" "ETH" 40).
Proof.
  assert (H : edgesOf twoTokenGraph "A" !! 1%nat = Some (mkEdge "B" "USDC" 5))
    by (vm_compute; reflexivity).
  split; [exact H|]. split; [|vm_compute; reflexivity].
  apply (ApplyNetting_token_isolation twoTokenGraph ["A"; "B"] "ETH" 60 "A" 1
           (mkEdge "B" "USDC" 5)); [discriminate|exact H].
Defined.

(** ** The pairs of a cycle *)

Lemma cyclePairs_length cycle : length (cyclePairs cycle) = length cycle.
Proof. unfold cyclePairs. by rewrite length_fmap, length_seq. Qed.

Lemma cyclePairs_lookup cycle i :
  (i < length cycle)%nat →
  cyclePairs cycle !! i
  = Some (nth i cycle "", nth ((i + 1) mod length cycle) cycle "").
Proof.
  intros Hi. unfold cyclePairs. rewrite list_lookup_fmap, lookup_seq_lt by done.
  done.
Qed.

Lemma cyclePairs_fst cycle : (cyclePairs cycle).*1 = cycle.
Proof.
  apply list_eq. intros i. rewrite list_lookup_fmap.
  destruct (decide (i < length cycle)%nat) as [Hi|Hi].
  - rewrite cyclePairs_lookup by done. simpl.
    destruct (nth_lookup_or_length cycle i "") as [->|]; [done|lia].
  - rewrite !lookup_ge_None_2; [done|lia|rewrite cyclePairs_length; lia].
Qed.

Lemma cyclePairs_elem_of cycle from to :
  (from, to) ∈ cyclePairs cycle → from ∈ cycle ∧ to ∈ cycle.
Proof.
  intros H. apply list_elem_of_lookup in H as [i Hi].
  assert (i < length cycle)%nat as Hlt.
  { rewrite <- cyclePairs_length. by eapply lookup_lt_Some. }
  rewrite cyclePairs_lookup in Hi by done. injection Hi as <- <-.
  split; apply nth_elem_of; [done|].
  apply Nat.mod_upper_bound. lia.
Qed.

(** ** [CalculateNetting]: a minimum over the edges that are found *)

Definition minStep (g : Graph) (token : string) (minAmount : Z)
    (p : string * string) : Z :=
  match findEdge (edgesOf g p.1) p.2 token with
  | Some e => if decide (EdgeAmount e < minAmount) then EdgeAmount e else minAmount
  | None => minAmount
  end.

Lemma CalculateNetting_fold g cycle token :
  CalculateNetting g cycle token
  = fold_left (minStep g token) (cyclePairs cycle) MaxUint64.
Proof.
  unfold CalculateNetting. generalize MaxUint64. generalize (cyclePairs cycle).
  induction l as [|[from to] ps IH]; intros acc; simpl; [done|]. by rewrite IH.
Qed.

Lemma minStep_fold_le g token ps acc : fold_left (minStep g token) ps acc ≤ acc.
Proof.
  revert acc. induction ps as [|p ps IH]; intros acc; simpl; [lia|].
  etrans; [apply IH|]. unfold minStep.
  destruct (findEdge _ _ _); [case_decide|]; lia.
Qed.

Lemma minStep_fold_found g token ps acc from to e :
  (from, to) ∈ ps →
  findEdge (edgesOf g from) to token = Some e →
  fold_left (minStep g token) ps acc ≤ EdgeAmount e.
Proof.
  revert acc. induction ps as [|p ps IH]; intros acc Hin Hf; [inversion Hin|].
  simpl. apply elem_of_cons in Hin as [<-|Hin]; [|by apply IH].
  etrans; [apply minStep_fold_le|]. unfold minStep. simpl. rewrite Hf.
  case_decide; lia.
Qed.

Lemma minStep_fold_none g token ps acc :
  (∀ from to, (from, to) ∈ ps → findEdge (edgesOf g from) to token = None) →
  fold_left (minStep g token) ps acc = acc.
Proof.
  revert acc. induction ps as [|[from to] ps IH]; intros acc H; simpl; [done|].
  rewrite IH by (intros; apply H; by right).
  unfold minStep. simpl. by rewrite H by left.
Qed.

(** The result is the sentinel whenever no pair of the cycle has an edge
    in the token. *)
Lemma CalculateNetting_no_edge g cycle token :
  (∀ from to, (from, to) ∈ cyclePairs cycle →
     findEdge (edgesOf g from) to token = None) →
  CalculateNetting g cycle token = MaxUint64.
Proof. intros H. rewrite CalculateNetting_fold. by apply minStep_fold_none. Qed.

Lemma CalculateNetting_le g cycle token from to e :
  (from, to) ∈ cyclePairs cycle →
  findEdge (edgesOf g from) to token = Some e →
  CalculateNetting g cycle token ≤ EdgeAmount e.
Proof. rewrite CalculateNetting_fold. apply minStep_fold_found. Qed.

(** A→B in ETH and B→A in USDC: a cycle of parties on which neither token
    goes all the way round. *)
Definition mixedGraph : Graph :=
  buildGraph [mkIntent "A" "B" "ETH" 100; mkIntent "B" "A" "USDC" 50].

(** C2.  On the cycle A, B of [mixedGraph] the pair (B, A) has no ETH edge
    and no pair has a DAI edge.  [CalculateNetting] returns a [uint64] in
    both cases, with nothing to tell the caller that the cycle cannot be
    netted: the amount 100 of the one ETH edge for ETH, and the sentinel
    [MaxUint64] for DAI. *)
Theorem CalculateNetting_missing_edge :
  findEdge (edgesOf mixedGraph "B") "A" "ETH" = None
  ∧ CalculateNetting mixedGraph ["A"; "B"] "ETH" = 100
  ∧ findEdge (edgesOf mixedGraph "A") "B" "DAI" = None
  ∧ findEdge (edgesOf mixedGraph "B") "A" "DAI" = None
  ∧ CalculateNetting mixedGraph ["A"; "B"] "DAI" = MaxUint64.
Proof. vm_compute. done. Qed.

(** ** [ApplyNetting] under the calculator's bound *)

(** Every stored amount is a [uint64]. *)
Definition wf_graph (g : Graph) : Prop :=
  ∀ from e, e ∈ edgesOf g from → is_uint64 (EdgeAmount e).

(** What the inner loop does to one edge when it is the edge found. *)
Definition reduceBy (sub : Z → Z → Z) (to token : string) (amount : Z)
    (e : Edge) : Edge :=
  if matches to token e
  then mkEdge (To e) (EdgeToken e) (sub (EdgeAmount e) amount)
  else e.

Lemma fmap_reduceBy_absent sub to token amount (es : list Edge) :
  (to, token) ∉ edgeKey <$> es → reduceBy sub to token amount <$> es = es.
Proof.
  induction es as [|e es IH]; csimpl; [done|].
  rewrite not_elem_of_cons. intros [Hne Hnin]. rewrite IH by done.
  unfold reduceBy. destruct (matches to token e) eqn:Hm; [|done].
  apply matches_spec in Hm as [<- <-]. done.
Qed.

Lemma subEdge_fmap (es : list Edge) to token amount :
  NoDup (edgeKey <$> es) →
  subEdge es to token amount = reduceBy wsub to token amount <$> es.
Proof.
  induction es as [|e es IH]; csimpl; [done|].
  rewrite NoDup_cons. intros [Hnin Hnd]. unfold reduceBy at 1.
  destruct (matches to token e) eqn:Hm; [|by rewrite IH].
  apply matches_spec in Hm as [<- <-].
  by rewrite fmap_reduceBy_absent.
Qed.

Lemma applyPairs_edges token amount ps g from :
  NoDup ps.*1 →
  edgesOf (applyPairs token amount ps g) from
  = match (list_to_map ps : gmap string string) !! from with
    | Some to => subEdge (edgesOf g from) to token amount
    | None => edgesOf g from
    end.
Proof.
  revert g. induction ps as [|[f t] ps IH]; intros g Hnd; [done|].
  rewrite fmap_cons in Hnd. apply NoDup_cons in Hnd as [Hnin Hnd].
  rewrite applyPairs_cons, IH, edgesOf_alter, list_to_map_cons, lookup_insert
    by done.
  case_decide; subst; [|done].
  by rewrite (not_elem_of_list_to_map_1 _ _ Hnin).
Qed.

Lemma unique_edges_elem (es : list Edge) e e' :
  NoDup (edgeKey <$> es) → e ∈ es → e' ∈ es → edgeKey e = edgeKey e' → e = e'.
Proof.
  intros Hnd [i Hi]%list_elem_of_lookup [j Hj]%list_elem_of_lookup Hk.
  assert (i = j) as ->.
  { eapply NoDup_lookup; [done|..]; rewrite list_lookup_fmap.
    - by rewrite Hi.
    - rewrite Hj. simpl. by rewrite Hk. }
  congruence.
Qed.

Lemma findEdge_unique (es : list Edge) e :
  NoDup (edgeKey <$> es) → e ∈ es → findEdge es (To e) (EdgeToken e) = Some e.
Proof.
  intros Hnd He.
  destruct (findEdge es (To e) (EdgeToken e)) as [e'|] eqn:Hf.
  - apply findEdge_Some in Hf as (He' & Hto & Htok). f_equal.
    apply (unique_edges_elem es); [done..|]. unfold edgeKey. congruence.
  - apply findEdge_None_key in Hf. exfalso. apply Hf.
    apply list_elem_of_fmap. by exists e.
Qed.

Lemma wsub_exact x y : 0 ≤ y ≤ x → x ≤ MaxUint64 → wsub x y = x - y.
Proof. unfold wsub, wrap64, MaxUint64. intros. apply Z.mod_small. lia. Qed.

(** The edge-by-edge effect of netting with exact subtraction: the edges
    from [from] to its successor on the cycle in [token] lose [amount]. *)
Definition nettedEdge (cycle : list string) (token : string) (amount : Z)
    (from : string) (e : Edge) : Edge :=
  if decide ((from, To e) ∈ cyclePairs cycle ∧ EdgeToken e = token)
  then mkEdge (To e) (EdgeToken e) (EdgeAmount e - amount)
  else e.

Lemma ApplyNetting_exact_edges g cycle token amount from :
  unique_edges g → wf_graph g → NoDup cycle →
  0 ≤ amount ≤ CalculateNetting g cycle token →
  edgesOf (ApplyNetting g cycle token amount) from
  = nettedEdge cycle token amount from <$> edgesOf g from
  ∧ ∀ e, e ∈ edgesOf g from →
      (from, To e) ∈ cyclePairs cycle → EdgeToken e = token →
      amount ≤ EdgeAmount e.
Proof.
  intros Hu Hwf Hnd Hamt.
  assert (Hle : ∀ e, e ∈ edgesOf g from →
      (from, To e) ∈ cyclePairs cycle → EdgeToken e = token →
      amount ≤ EdgeAmount e).
  { intros e He Hp <-. etrans; [apply Hamt|].
    eapply CalculateNetting_le; [done|]. by apply findEdge_unique. }
  split; [|done].
  assert (Hndp : NoDup (cyclePairs cycle).*1) by (by rewrite cyclePairs_fst).
  rewrite ApplyNetting_applyPairs, applyPairs_edges by done.
  destruct (list_to_map (cyclePairs cycle) !! from) as [to|] eqn:Hto.
  - apply elem_of_list_to_map in Hto; [|done].
    rewrite subEdge_fmap by apply Hu.
    apply list_fmap_ext. intros i e Hi.
    assert (e ∈ edgesOf g from) as He by (by eapply list_elem_of_lookup_2).
    unfold reduceBy, nettedEdge.
    destruct (matches to token e) eqn:Hm.
    + apply matches_spec in Hm as [<- <-]. rewrite decide_True by done.
      rewrite wsub_exact; [done| |apply (Hwf from e He)].
      split; [lia|]. by apply Hle.
    + rewrite decide_False; [done|]. intros [Hp Htok].
      assert (To e = to) as Heq.
      { apply (elem_of_list_to_map _ _ _ Hndp) in Hp, Hto. congruence. }
      assert (matches to token e = true); [by apply matches_spec|congruence].
  - apply not_elem_of_list_to_map in Hto.
    rewrite <- (list_fmap_id (edgesOf g from)) at 1.
    apply list_fmap_ext. intros i e Hi. unfold nettedEdge.
    rewrite decide_False; [done|]. intros [Hp _]. apply Hto.
    apply list_elem_of_fmap. by exists (from, To e).
Qed.

Lemma ApplyNetting_wf g cycle token amount :
  unique_edges g → wf_graph g → NoDup cycle →
  0 ≤ amount ≤ CalculateNetting g cycle token →
  wf_graph (ApplyNetting g cycle token amount).
Proof.
  intros Hu Hwf Hnd Hamt from e'.
  destruct (ApplyNetting_exact_edges g cycle token amount from) as [-> Hle];
    [done..|].
  intros (e & -> & He)%list_elem_of_fmap. unfold nettedEdge.
  case_decide as Hd; [|by apply (Hwf from)]. simpl.
  destruct Hd as [Hp Htok]. specialize (Hle e He Hp Htok).
  pose proof (Hwf from e He) as Hr. unfold is_uint64 in *. lia.
Qed.

Lemma ApplyNetting_unique g cycle token amount :
  unique_edges g → unique_edges (ApplyNetting g cycle token amount).
Proof.
  rewrite ApplyNetting_applyPairs. generalize (cyclePairs cycle). intros ps.
  revert g. induction ps as [|[f t] ps IH]; intros g Hu; [done|].
  rewrite applyPairs_cons. apply IH. intros from.
  rewrite edgesOf_alter by done. case_decide; [|apply Hu].
  rewrite subEdge_keys. apply Hu.
Qed.

(** A→B: 100 and B→A: 200 in ETH. *)
Definition unevenGraph : Graph :=
  buildGraph [mkIntent "A" "B" "ETH" 100; mkIntent "B" "A" "ETH" 200].

(** [ApplyNetting] with 150 on an edge of 100: no error, and the stored
    amount is 100 - 150 wrapped to 2^64 - 50. *)
Lemma ApplyNetting_wraps :
  edgesOf (ApplyNetting unevenGraph ["A"; "B"] "ETH" 150) "A"
  = [mkEdge "B" "ETH" 18446744073709551566].
Proof. vm_compute. reflexivity. Qed.

(** C3 (amended).  [ApplyNetting] has no error result and makes no check;
    what keeps its subtraction from wrapping is the bound of its caller.
    On a graph with one edge per (from, to, token) and [uint64] amounts,
    for a cycle of pairwise distinct parties and an amount that does not
    exceed [CalculateNetting g cycle token], every subtraction is exact:
    each edge from a party to its successor on the cycle in the token
    holds at least [amount] and ends with its amount minus [amount], every
    other edge is unchanged, and all amounts remain [uint64]s. *)
Theorem ApplyNetting_no_wrap (g : Graph) (cycle : list string) (token : string)
    (amount : Z) :
  unique_edges g → wf_graph g → NoDup cycle →
  0 ≤ amount ≤ CalculateNetting g cycle token →
  (∀ from,
     edgesOf (ApplyNetting g cycle token amount) from
     = nettedEdge cycle token amount from <$> edgesOf g from)
  ∧ (∀ from e, e ∈ edgesOf g from →
       (from, To e) ∈ cyclePairs cycle → EdgeToken e = token →
       amount ≤ EdgeAmount e)
  ∧ wf_graph (ApplyNetting g cycle token amount).
Proof.
  intros Hu Hwf Hnd Hamt. split_and!.
  - intros from. by apply ApplyNetting_exact_edges.
  - intros from. by apply ApplyNetting_exact_edges.
  - by apply ApplyNetting_wf.
Qed.

(** ** Loops that cannot fail *)

Lemma foldM_inv {A B : Type} (I : A → Prop) (f : A → B → result A) l a :
  I a →
  (∀ a b, b ∈ l → I a → ∃ a', f a b = Ok a' ∧ I a') →
  ∃ a', foldM f l a = Ok a' ∧ I a'.
Proof.
  revert a. induction l as [|b l IH]; intros a Ha Hf; simpl; [by eexists|].
  destruct (Hf a b) as (a1 & -> & Ha1); [left|done|]. simpl.
  apply IH; [done|]. intros a2 b2 Hb2. apply Hf. by right.
Qed.

Lemma foldM_app {A B : Type} (f : A → B → result A) l1 l2 a :
  foldM f (l1 ++ l2) a = (a' ← foldM f l1 a; foldM f l2 a').
Proof.
  revert a. induction l1 as [|b l1 IH]; intros a; simpl; [done|].
  destruct (f a b); simpl; [apply IH|done..].
Qed.

(** ** [FindCycles]: the cycles found *)

Section find_cycles.
Variables (g : Graph) (maxLength : Z) (start : string).

(** What is recorded from [start]: a path of pairwise distinct parties
    that begins at [start] and has at most [maxLength] of them. *)
Definition foundFrom (c : list string) : Prop :=
  Z.of_nat (length c) ≤ maxLength ∧ NoDup c ∧ head c = Some start.

(** [visited] marks exactly the parties of [path]. *)
Definition tracks (s : search) : Prop :=
  NoDup (path s) ∧ ∀ x, isVisited s x = true ↔ x ∈ path s.

Lemma isVisited_insert cs vis p s v b x :
  visited s = vis →
  isVisited (mkSearch cs (<[v := b]> vis) p) x
  = if decide (v = x) then b else isVisited s x.
Proof.
  intros <-. unfold isVisited. simpl. rewrite lookup_insert. by case_decide.
Qed.

Lemma findCyclesRecursive_spec fuel current depth s :
  (1 ≤ fuel)%nat → maxLength + 2 - depth ≤ Z.of_nat fuel →
  depth = Z.of_nat (length (path s)) →
  tracks s →
  (depth = 0 → current = start) →
  (depth > 0 → head (path s) = Some start ∧ (current = start ∨ current ∉ path s)) →
  ∃ s', findCyclesRecursive fuel g maxLength current start depth s = Ok s'
    ∧ path s' = path s
    ∧ (∀ x, isVisited s' x = isVisited s x)
    ∧ ∃ new, cycles s' = cycles s ++ new ∧ Forall foundFrom new.
Proof.
  revert current depth s.
  induction fuel as [|fuel IH]; intros current depth s Hf1 Hf2 Hd [Hnd Hvis] H0 Hpos;
    [lia|].
  simpl. case_decide as Hmax.
  { exists s. split_and!; try done. exists []. by rewrite app_nil_r. }
  case_decide as Hrec.
  { eexists. split_and!; try done. exists [path s]. split; [done|].
    apply Forall_singleton. destruct Hrec as [Hgt _].
    split_and!; [lia|done|by apply Hpos]. }
  assert (current ∉ path s) as Hfresh.
  { destruct (decide (depth = 0)) as [Hz|Hz].
    - destruct (path s); [apply not_elem_of_nil|simpl in Hd; lia].
    - destruct Hpos as [_ [->|?]]; [lia| |done]. exfalso. apply Hrec. split; [lia|done]. }
  set (s1 := mkSearch (cycles s) (<[current:=true]> (visited s)) (path s ++ [current])).
  set (J := λ si : search,
    path si = path s ++ [current]
    ∧ (∀ x, isVisited si x = isVisited s1 x)
    ∧ ∃ new, cycles si = cycles s ++ new ∧ Forall foundFrom new).
  assert (Htr1 : ∀ x, isVisited s1 x = true ↔ x ∈ path s ++ [current]).
  { intros x. unfold s1. rewrite (isVisited_insert _ _ _ s current true x) by done.
    rewrite elem_of_app, list_elem_of_singleton. case_decide; subst.
    - split; [by right|done].
    - rewrite Hvis. split; [by left|]. by intros [?|?]. }
  match goal with
  | |- context [foldM ?f ?l ?a] =>
      assert (∃ s2, foldM f l a = Ok s2 ∧ J s2) as (s2 & -> & Hp2 & Hv2 & new & Hc2 & Hnew)
  end.
  { apply foldM_inv.
    - split_and!; try done. exists []. split; [by rewrite app_nil_r|done].
    - intros si edge _ (Hpi & Hvi & newi & Hci & Hnewi).
      destruct (negb (isVisited si (To edge)) || bool_decide (To edge = start)) eqn:Hcond.
      2:{ exists si. split; [done|]. split_and!; try done. by exists newi. }
      destruct (IH (To edge) (depth + 1) si) as (s' & -> & Hp' & Hv' & n' & Hc' & Hn').
      + lia.
      + lia.
      + rewrite Hpi, length_app. simpl. lia.
      + split; rewrite Hpi.
        * apply NoDup_app. split_and!; [done| |apply NoDup_singleton].
          intros x Hx ->%list_elem_of_singleton. done.
        * intros x. by rewrite Hvi.
      + lia.
      + intros _. rewrite Hpi. split.
        * destruct (path s) eqn:Hps; simpl.
          -- f_equal. apply H0. rewrite Hd. done.
          -- apply Hpos. rewrite Hd. simpl. lia.
        * apply orb_true_iff in Hcond as [Hnv|Heq].
          -- right. rewrite <- Htr1, <- Hvi. by destruct (isVisited si (To edge)).
          -- left. by apply bool_decide_eq_true in Heq.
      + exists s'. split; [done|]. split_and!.
        * by rewrite Hp'.
        * intros x. by rewrite Hv'.
        * exists (newi ++ n'). rewrite Hc', Hci, app_assoc. split; [done|].
          by apply Forall_app. }
  simpl. eexists. split; [done|]. simpl. split_and!.
  - by rewrite Hp2, removelast_last.
  - intros x. rewrite (isVisited_insert _ _ _ s2 current false x) by done.
    case_decide; subst.
    + destruct (isVisited s x) eqn:Hx; [|done]. by apply Hvis in Hx.
    + rewrite Hv2. unfold s1. rewrite (isVisited_insert _ _ _ s current true x) by done.
      by rewrite decide_False.
  - by exists new.
Qed.
End find_cycles.

(** What [FindCycles g scc maxLength] returns: paths of pairwise distinct
    parties, each beginning at a member of [scc], none longer than
    [maxLength]. *)
Definition foundIn (scc : list string) (maxLength : Z) (c : list string) : Prop :=
  ∃ v, v ∈ scc ∧ foundFrom maxLength v c.

Lemma FindCycles_spec g scc maxLength :
  ∃ cs, FindCycles g scc maxLength = Ok cs ∧ Forall (foundIn scc maxLength) cs.
Proof.
  unfold FindCycles.
  match goal with
  | |- context [foldM ?f ?l ?a] =>
      assert (∃ s, foldM f l a = Ok s
                   ∧ path s = [] ∧ (∀ x, isVisited s x = false)
                   ∧ Forall (foundIn scc maxLength) (cycles s))
        as (s & -> & _ & _ & Hs)
  end; [|by eexists].
  apply (foldM_inv (λ s, path s = [] ∧ (∀ x, isVisited s x = false)
                         ∧ Forall (foundIn scc maxLength) (cycles s))).
  - split_and!; [done| |by constructor]. intros x. unfold isVisited. simpl.
    by rewrite lookup_empty.
  - intros s v Hv (Hp & Hvis & Hc).
    destruct (findCyclesRecursive_spec g maxLength v (cycleFuel maxLength) v 0 s)
      as (s' & -> & Hp' & Hv' & new & Hc' & Hnew).
    + unfold cycleFuel. lia.
    + unfold cycleFuel. lia.
    + by rewrite Hp.
    + split; rewrite Hp; [constructor|]. intros x. rewrite Hvis.
      split; [done|]. intros []%elem_of_nil.
    + done.
    + lia.
    + exists s'. split; [done|]. split_and!.
      * by rewrite Hp'.
      * intros x. by rewrite Hv'.
      * rewrite Hc'. apply Forall_app. split; [done|].
        eapply Forall_impl; [done|]. intros c Hcf. by exists v.
Qed.

(** C5.  [FindCycles] returns, and every cycle it returns for
    [maxLength = k] has at most [k] parties, hence at most [k] edges,
    whatever longer cycles the graph has; the pipeline enumerates with
    [maxCycleLength = 4], so every cycle it nets has at most 4 edges. *)
Theorem FindCycles_bound (g : Graph) (scc : list string) (k : Z) :
  0 < k →
  (∃ cs, FindCycles g scc k = Ok cs
         ∧ Forall (λ c, Z.of_nat (length (cyclePairs c)) ≤ k) cs)
  ∧ maxCycleLength = 4
  ∧ ∀ o st, ∃ cs, FindCycles st.1 scc maxCycleLength = Ok cs
         ∧ netSCC o st scc = Ok (fold_left (netCycle o) cs st)
         ∧ Forall (λ c, Z.of_nat (length (cyclePairs c)) ≤ 4) cs.
Proof.
  intros _. split_and!; [|done|].
  - destruct (FindCycles_spec g scc k) as (cs & -> & Hcs). eexists. split; [done|].
    eapply Forall_impl; [done|]. intros c (v & _ & Hlen & _).
    by rewrite cyclePairs_length.
  - intros o st. destruct (FindCycles_spec st.1 scc maxCycleLength) as (cs & Heq & Hcs).
    exists cs. split; [done|]. unfold netSCC. rewrite Heq. split; [done|].
    eapply Forall_impl; [done|]. intros c (v & _ & Hlen & _).
    by rewrite cyclePairs_length.
Qed.

(** A ring of five parties: its only cycles have five edges. *)
Definition ringGraph : Graph :=
  buildGraph [mkIntent "A" "B" "ETH" 1; mkIntent "B" "C" "ETH" 1;
              mkIntent "C" "D" "ETH" 1; mkIntent "D" "E" "ETH" 1;
              mkIntent "E" "A" "ETH" 1].

Lemma FindCycles_bound_witness :
  FindCycles ringGraph ["A"; "B"; "C"; "D"; "E"] 5
  = Ok [["A"; "B"; "C"; "D"; "E"]; ["B"; "C"; "D"; "E"; "A"];
        ["C"; "D"; "E"; "A"; "B"]; ["D"; "E"; "A"; "B"; "C"];
        ["E"; "A"; "B"; "C"; "D"]]
  ∧ FindCycles ringGraph ["A"; "B"; "C"; "D"; "E"] 4 = Ok []
  ∧ ∃ cs, FindCycles ringGraph ["A"; "B"; "C"; "D"; "E"] 4 = Ok cs
          ∧ Forall (λ c, Z.of_nat (length (cyclePairs c)) ≤ 4) cs.
Proof.
  split; [vm_compute; reflexivity|]. split; [vm_compute; reflexivity|].
  destruct (FindCycles_bound ringGraph ["A"; "B"; "C"; "D"; "E"] 4) as [H _];
    [lia|exact H].
Defined.

(** ** Graphs built from intents *)

Lemma buildGraph_snoc l i :
  buildGraph (l ++ [i])
  = AddEdge (buildGraph l) (Sender i) (Receiver i) (Token i) (Amount i).
Proof. unfold buildGraph. by rewrite fold_left_app. Qed.

Lemma buildGraph_ind (P : Graph → Prop) (Q : Intent → Prop) :
  P NewGraph →
  (∀ g i, Q i → P g → P (AddEdge g (Sender i) (Receiver i) (Token i) (Amount i))) →
  ∀ l, Forall Q l → P (buildGraph l).
Proof.
  intros H0 Hstep l. induction l as [|i l IH] using rev_ind; intros Hl; [exact H0|].
  apply Forall_app in Hl as [Hl Hi]. rewrite Forall_singleton in Hi.
  rewrite buildGraph_snoc. by apply Hstep, IH.
Qed.

Lemma buildGraph_unique l : unique_edges (buildGraph l).
Proof.
  apply (buildGraph_ind unique_edges (λ _, True)).
  - apply unique_edges_empty.
  - intros. by apply AddEdge_unique.
  - by apply Forall_true.
Qed.

Lemma wrap64_uint64 x : is_uint64 (wrap64 x).
Proof.
  unfold is_uint64, wrap64, MaxUint64.
  pose proof (Z.mod_pos_bound x (2 ^ 64)). lia.
Qed.

Lemma mergeEdge_elem es to token amount es' e' :
  mergeEdge es to token amount = Some es' → e' ∈ es' →
  e' ∈ es ∨ ∃ e, e ∈ es ∧ e' = mkEdge (To e) (EdgeToken e) (wadd (EdgeAmount e) amount).
Proof.
  revert es'. induction es as [|e es IH]; intros es'; simpl; [done|].
  destruct (matches to token e).
  - intros [= <-] [->|He']%elem_of_cons.
    + right. exists e. split; [left|done].
    + left. by right.
  - destruct (mergeEdge es to token amount) as [es0|]; simpl; [|done].
    intros [= <-] [->|He']%elem_of_cons; [left; left|].
    destruct (IH es0 eq_refl He') as [?|(e0 & ? & ?)]; [left; by right|].
    right. exists e0. split; [by right|done].
Qed.

Lemma AddEdge_wf g from to token amount :
  wf_graph g → is_uint64 amount → wf_graph (AddEdge g from to token amount).
Proof.
  intros Hg Ha from' e'. unfold AddEdge.
  destruct (mergeEdge (edgesOf g from) to token amount) as [es|] eqn:Hm;
    rewrite edgesOf_insert; case_decide; subst; try apply Hg.
  - intros He'. destruct (mergeEdge_elem _ _ _ _ _ _ Hm He') as [?|(e & ? & ->)].
    + by apply (Hg from').
    + apply wrap64_uint64.
  - intros [?| ->%list_elem_of_singleton]%elem_of_app; [by apply (Hg from')|done].
Qed.

Lemma wf_graph_empty : wf_graph NewGraph.
Proof.
  intros from e. unfold edgesOf, NewGraph. rewrite lookup_empty.
  intros []%elem_of_nil.
Qed.

Lemma buildGraph_wf l :
  Forall (λ i, is_uint64 (Amount i)) l → wf_graph (buildGraph l).
Proof.
  apply (buildGraph_ind wf_graph).
  - apply wf_graph_empty.
  - intros. by apply AddEdge_wf.
Qed.

Lemma ApplyNetting_no_wrap_witness :
  0 ≤ 100 ≤ CalculateNetting unevenGraph ["A"; "B"] "ETH"
  ∧ edgesOf (ApplyNetting unevenGraph ["A"; "B"] "ETH" 100) "B"
    = nettedEdge ["A"; "B"] "ETH" 100 "B" <$> edgesOf unevenGraph "B"
  ∧ edgesOf (ApplyNetting unevenGraph ["A"; "B"] "ETH" 100) "B"
    = [mkEdge "A" "ETH" 100].
Proof.
  assert (H : 0 ≤ 100 ≤ CalculateNetting unevenGraph ["A"; "B"] "ETH")
    by (vm_compute; split; discriminate).
  split; [exact H|]. split; [|vm_compute; reflexivity].
  refine (proj1 (ApplyNetting_no_wrap unevenGraph ["A"; "B"] "ETH" 100
                   (buildGraph_unique _) (buildGraph_wf _ _) _ H) "B").
  - repeat constructor; vm_compute; discriminate.
  - refine (bool_decide_unpack (NoDup ["A"; "B"]) _). vm_compute. exact I.
Defined.

(** ** Every order of the map ranges

    [outcomes intents] lists what [ProcessNetting] can return on
    [intents], over all the orders in which the three map ranges can run;
    the result for any fair oracle is one of them.  On a concrete input
    this settles a property for all oracles by evaluation. *)

Global Instance result_eq_dec {A : Type} `{EqDecision A} : EqDecision (result A).
Proof. solve_decision. Defined.

Definition netCycleAll (g : Graph) (cycle : list string) : list Graph :=
  remove_dups (tokens ← permutations (keys (tokenMap g cycle));
               [netTokens g cycle tokens]).

Fixpoint netCyclesAll (cs : list (list string)) (g : Graph) : list Graph :=
  match cs with
  | [] => [g]
  | c :: cs' => remove_dups (g' ← netCycleAll g c; netCyclesAll cs' g')
  end.

Fixpoint netSCCsAll (sccs : list (list string)) (g : Graph) : list (result Graph) :=
  match sccs with
  | [] => [Ok g]
  | scc :: sccs' =>
      match FindCycles g scc maxCycleLength with
      | Ok cs => remove_dups (g' ← netCyclesAll cs g; netSCCsAll sccs' g')
      | Panic => [Panic]
      | OutOfFuel => [OutOfFuel]
      end
  end.

Definition extractAll (r : result Graph) : list (result (list Intent)) :=
  match r with
  | Ok g => order ← permutations (keys g); [Ok (ToIntents order g)]
  | Panic => [Panic]
  | OutOfFuel => [OutOfFuel]
  end.

Definition outcomes (intents : list Intent) : list (result (list Intent)) :=
  let g := buildGraph intents in
  remove_dups (
    roots ← permutations (keys g);
    match FindSCCs roots g with
    | Ok sccs => r ← netSCCsAll sccs g; extractAll r
    | Panic => [Panic]
    | OutOfFuel => [OutOfFuel]
    end).

Section outcomes.
Variable o : Oracle.
Hypothesis o_fair : fair o.

Lemma oracle_permutations n ks : o n ks ∈ permutations ks.
Proof. apply permutations_Permutation. symmetry. apply o_fair. Qed.

Lemma netCycle_outcome st cycle :
  (netCycle o st cycle).1 ∈ netCycleAll st.1 cycle.
Proof.
  unfold netCycle, netCycleAll. simpl. apply elem_of_remove_dups.
  apply list_elem_of_bind. eexists. split; [|apply oracle_permutations].
  by apply list_elem_of_singleton.
Qed.

Lemma netCycles_outcome cs st :
  (fold_left (netCycle o) cs st).1 ∈ netCyclesAll cs st.1.
Proof.
  revert st. induction cs as [|c cs IH]; intros st; simpl.
  - by apply list_elem_of_singleton.
  - apply elem_of_remove_dups, list_elem_of_bind.
    exists (netCycle o st c).1. split; [apply IH|apply netCycle_outcome].
Qed.

Lemma netSCC_eq st scc :
  netSCC o st scc
  = match FindCycles st.1 scc maxCycleLength with
    | Ok cs => Ok (fold_left (netCycle o) cs st)
    | Panic => Panic
    | OutOfFuel => OutOfFuel
    end.
Proof. unfold netSCC. by destruct (FindCycles _ _ _). Qed.

Lemma netSCCs_outcome sccs st :
  match foldM (netSCC o) sccs st with
  | Ok st' => Ok st'.1
  | Panic => Panic
  | OutOfFuel => OutOfFuel
  end ∈ netSCCsAll sccs st.1.
Proof.
  revert st. induction sccs as [|scc sccs IH]; intros st.
  - by apply list_elem_of_singleton.
  - change (foldM (netSCC o) (scc :: sccs) st)
      with (netSCC o st scc ≫= foldM (netSCC o) sccs).
    rewrite netSCC_eq. cbn [netSCCsAll].
    destruct (FindCycles st.1 scc maxCycleLength) as [cs| |];
      try by apply list_elem_of_singleton.
    change (Ok ?x ≫= ?f) with (f x).
    apply elem_of_remove_dups, list_elem_of_bind.
    exists (fold_left (netCycle o) cs st).1.
    split; [apply IH|apply netCycles_outcome].
Qed.

Lemma ProcessNetting_outcome intents :
  ProcessNetting o intents ∈ outcomes intents.
Proof.
  unfold ProcessNetting, outcomes. simpl.
  apply elem_of_remove_dups, list_elem_of_bind.
  exists (o 0%nat (keys (buildGraph intents))).
  split; [|apply oracle_permutations].
  destruct (FindSCCs _ _) as [sccs| |]; simpl; try by apply list_elem_of_singleton.
  apply list_elem_of_bind.
  pose proof (netSCCs_outcome sccs (buildGraph intents, 1%nat)) as H.
  eexists. split; [|exact H].
  destruct (foldM (netSCC o) sccs _) as [st| |]; simpl;
    try by apply list_elem_of_singleton.
  apply list_elem_of_bind. eexists. split; [|apply oracle_permutations].
  by apply list_elem_of_singleton.
Qed.

(** A decidable property of all [outcomes] holds of the run with [o]. *)
Lemma ProcessNetting_all (P : result (list Intent) → Prop)
    `{!∀ r, Decision (P r)} intents :
  bool_decide (Forall P (outcomes intents)) = true →
  P (ProcessNetting o intents).
Proof.
  intros Hall%bool_decide_eq_true. rewrite Forall_forall in Hall.
  apply Hall, ProcessNetting_outcome.
Qed.
End outcomes.

Lemma idOracle_fair : fair idOracle.
Proof. by intros n ks. Qed.

(** ** The merged amount of [AddEdge] wraps *)

(** Two intents from A to B in one token, of [MaxUint64] and of 1. *)
Definition overflowExample : list Intent :=
  [mkIntent "A" "B" "ETH" MaxUint64; mkIntent "A" "B" "ETH" 1].

(** The [+=] of [AddEdge] is [uint64] addition: inserting (A,B,ETH,
    MaxUint64) and then (A,B,ETH,1) leaves one edge, of amount 0 and not
    of MaxUint64 + 1; the obligation then is missing from what
    [ProcessNetting] returns, whatever the order of its map ranges. *)
Lemma AddEdge_merge_wraps :
  edgesOf (AddEdge (AddEdge NewGraph "A" "B" "ETH" MaxUint64) "A" "B" "ETH" 1) "A"
  = [mkEdge "B" "ETH" 0]
  ∧ outcomes overflowExample = [Ok []].
Proof. vm_compute. done. Qed.

(** ** The example of partial cancellation *)

Definition partialExample : list Intent :=
  [mkIntent "A" "B" "ETH" 100; mkIntent "B" "C" "ETH" 50;
   mkIntent "C" "A" "ETH" 30].

(** C7.  On A→B: 100, B→C: 50, C→A: 30 in one token, the netting amount
    of the cycle is the minimum 30, and [ProcessNetting], whatever the
    order of its map ranges, returns exactly the two residual obligations
    A→B: 70 and B→C: 20 (in one order or the other); C→A is not there. *)
Theorem ProcessNetting_partial_cancellation (o : Oracle) :
  fair o →
  CalculateNetting (buildGraph partialExample) ["A"; "B"; "C"] "ETH" = 30
  ∧ (ProcessNetting o partialExample
       = Ok [mkIntent "A" "B" "ETH" 70; mkIntent "B" "C" "ETH" 20]
     ∨ ProcessNetting o partialExample
       = Ok [mkIntent "B" "C" "ETH" 20; mkIntent "A" "B" "ETH" 70]).
Proof.
  intros Ho. split; [vm_compute; reflexivity|].
  apply (ProcessNetting_all o Ho
    (λ r, r = Ok [mkIntent "A" "B" "ETH" 70; mkIntent "B" "C" "ETH" 20]
          ∨ r = Ok [mkIntent "B" "C" "ETH" 20; mkIntent "A" "B" "ETH" 70])).
  vm_compute. reflexivity.
Qed.

Lemma ProcessNetting_partial_cancellation_witness :
  ProcessNetting idOracle partialExample
  = Ok [mkIntent "A" "B" "ETH" 70; mkIntent "B" "C" "ETH" 20].
Proof.
  destruct (ProcessNetting_partial_cancellation idOracle idOracle_fair) as [_ [H|H]].
  - exact H.
  - exfalso. revert H. vm_compute. discriminate.
Defined.

(** ** Net positions *)

(** What [party] owes in [token] minus what it is owed. *)
Definition netPosition (party token : string) (intents : list Intent) : Z :=
  foldr (λ i acc,
    acc
    + (if bool_decide (Token i = token ∧ Sender i = party) then Amount i else 0)
    - (if bool_decide (Token i = token ∧ Receiver i = party) then Amount i else 0))
    0 intents.

(** The extracted intents never carry a zero amount. *)
Lemma edgeIntents_positive from es i : i ∈ edgeIntents from es → Amount i > 0.
Proof.
  unfold edgeIntents. rewrite list_elem_of_omap. intros (e & _ & He).
  case_decide; by simplify_eq.
Qed.

Lemma ToIntents_positive order g : Forall (λ i, Amount i > 0) (ToIntents order g).
Proof.
  apply Forall_forall. intros i. unfold ToIntents. rewrite list_elem_of_bind.
  intros (from & Hi & _). by eapply edgeIntents_positive.
Qed.

Lemma ProcessNetting_positive o intents out :
  ProcessNetting o intents = Ok out → Forall (λ i, Amount i > 0) out.
Proof.
  unfold ProcessNetting.
  destruct (FindSCCs _ _) as [sccs| |]; simpl; [|done..].
  destruct (foldM _ _ _) as [st| |]; simpl; [|done..].
  intros [= <-]. apply ToIntents_positive.
Qed.

(** A owes B 100 ETH and B owes A 50 USDC: no token goes round. *)
Definition mixedExample : list Intent :=
  [mkIntent "A" "B" "ETH" 100; mkIntent "B" "A" "USDC" 50].

(** C1.  On [mixedExample] nothing can be netted: A owes 100 ETH and is
    owed 50 USDC.  [ProcessNetting] all the same returns no intent at all,
    whatever the order of its map ranges: the net position of A in ETH is
    100 in the input and 0 in the output. *)
Theorem ProcessNetting_loses_obligations (o : Oracle) :
  fair o →
  ProcessNetting o mixedExample = Ok []
  ∧ netPosition "A" "ETH" mixedExample = 100
  ∧ netPosition "A" "ETH" [] = 0.
Proof.
  intros Ho. split; [|done].
  apply (ProcessNetting_all o Ho (λ r, r = Ok [])). vm_compute. reflexivity.
Qed.

Lemma ProcessNetting_loses_obligations_witness :
  ProcessNetting idOracle mixedExample = Ok [].
Proof. exact (proj1 (ProcessNetting_loses_obligations idOracle idOracle_fair)). Defined.

(** ** Running the pipeline on its own output *)

(** A and B owe each other in two tokens; netting leaves A→B: 40 in T1 and
    B→A: 4 in T2. *)
Definition rerunExample : list Intent :=
  [mkIntent "A" "B" "T1" 100; mkIntent "B" "A" "T1" 60;
   mkIntent "A" "B" "T2" 5; mkIntent "B" "A" "T2" 9].

Definition rerunResidual : list Intent :=
  [mkIntent "A" "B" "T1" 40; mkIntent "B" "A" "T2" 4].

(** The first run gives the residual, and every second run gives nothing. *)
Definition rerunDiffers (r : result (list Intent)) : Prop :=
  match r with
  | Ok out => out ≡ₚ rerunResidual ∧ Forall (λ r2, r2 = Ok []) (outcomes out)
  | _ => False
  end.

Global Instance rerunDiffers_dec r : Decision (rerunDiffers r).
Proof. destruct r; simpl; apply _. Defined.

(** C9.  On [rerunExample] the first run returns the two obligations
    A→B: 40 in T1 and B→A: 4 in T2, which no netting can reduce; fed back
    through the pipeline they are both removed: the second run returns no
    intent, and not the output of the first. *)
Theorem ProcessNetting_rerun_differs (o1 o2 : Oracle) :
  fair o1 → fair o2 →
  ∃ out1, ProcessNetting o1 rerunExample = Ok out1
          ∧ out1 ≡ₚ rerunResidual
          ∧ ProcessNetting o2 out1 = Ok []
          ∧ ProcessNetting o2 out1 ≠ ProcessNetting o1 rerunExample.
Proof.
  intros Ho1 Ho2.
  assert (H1 : rerunDiffers (ProcessNetting o1 rerunExample)).
  { apply (ProcessNetting_all o1 Ho1 rerunDiffers). vm_compute. reflexivity. }
  destruct (ProcessNetting o1 rerunExample) as [out1| |]; [|done..].
  destruct H1 as [Hperm Hall]. exists out1.
  assert (H2 : ProcessNetting o2 out1 = Ok []).
  { rewrite Forall_forall in Hall. apply Hall. by apply ProcessNetting_outcome. }
  split_and!; [done..|]. rewrite H2. intros [= <-].
  by apply Permutation_nil_l in Hperm.
Qed.

Lemma ProcessNetting_rerun_differs_witness :
  ProcessNetting idOracle rerunExample = Ok rerunResidual
  ∧ ProcessNetting idOracle rerunResidual = Ok [].
Proof.
  destruct (ProcessNetting_rerun_differs idOracle idOracle idOracle_fair idOracle_fair)
    as (out1 & H1 & _ & H2 & _).
  assert (Hout : out1 = rerunResidual).
  { assert (ProcessNetting idOracle rerunExample = Ok rerunResidual) as Heq
      by (vm_compute; reflexivity).
    congruence. }
  subst out1. split; [exact H1|exact H2].
Defined.

(** ** [FindSCCs]: what Tarjan's algorithm returns *)

(** The graph has an edge from [u] to [v], in some token. *)
Definition edge (g : Graph) (u v : string) : Prop :=
  ∃ e, e ∈ edgesOf g u ∧ To e = v.

(** [v] can be reached from [u] along edges. *)
Definition reach (g : Graph) : relation string := rtc (edge g).

(** A component as [FindSCCs] reports them: at least two parties,
    pairwise distinct, each reachable from each. *)
Definition goodSCC (g : Graph) (scc : list string) : Prop :=
  (1 < length scc)%nat ∧ NoDup scc ∧ ∀ x y, x ∈ scc → y ∈ scc → reach g x y.

Lemma edgesOf_elem_of g u e :
  e ∈ edgesOf g u → ∃ es, g !! u = Some es ∧ e ∈ es.
Proof.
  unfold edgesOf. destruct (g !! u) as [es|]; simpl; [by exists es|].
  intros []%elem_of_nil.
Qed.

Lemma edge_vertices g u v : edge g u v → u ∈ vertices g ∧ v ∈ vertices g.
Proof.
  intros (e & (es & Hes & He)%edgesOf_elem_of & <-). unfold vertices. split.
  - apply elem_of_union_l, elem_of_dom. by exists es.
  - apply elem_of_union_r, elem_of_list_to_set, list_elem_of_bind.
    exists (u, es). split; [|by apply elem_of_map_to_list].
    simpl. apply list_elem_of_fmap. by exists e.
Qed.

Lemma keys_vertices g v : v ∈ keys g → v ∈ vertices g.
Proof.
  unfold keys. intros ([k es] & -> & Hin)%list_elem_of_fmap.
  apply elem_of_map_to_list in Hin. apply elem_of_union_l, elem_of_dom.
  by exists es.
Qed.

(** Marking the popped parties off the stack. *)
Definition markOff (on : gmap string bool) (popped : list string) : gmap string bool :=
  foldl (λ on w, <[w := false]> on) on popped.

Lemma markOff_lookup on popped x :
  default false (markOff on popped !! x)
  = if decide (x ∈ popped) then false else default false (on !! x).
Proof.
  revert on. induction popped as [|w popped IH]; intros on.
  - by rewrite decide_False by apply not_elem_of_nil.
  - change (markOff on (w :: popped)) with (markOff (<[w:=false]> on) popped).
    rewrite IH. destruct (decide (x ∈ popped)) as [Hin|Hnin].
    + by rewrite decide_True by (by right).
    + rewrite lookup_insert. destruct (decide (w = x)) as [->|Hne]; simpl.
      * by rewrite decide_True by left.
      * rewrite decide_False; [done|]. by intros [->|?]%elem_of_cons.
Qed.

Lemma popSCC_spec v pre rest on scc :
  v ∉ pre →
  popSCC v (pre ++ v :: rest) on scc
  = Ok (rest, markOff on (pre ++ [v]), scc ++ pre ++ [v]).
Proof.
  revert on scc. induction pre as [|w pre IH]; intros on scc Hnin; simpl.
  - by rewrite decide_True.
  - apply not_elem_of_cons in Hnin as [Hne Hnin].
    rewrite decide_False by done. rewrite IH by done.
    by rewrite <- app_assoc.
Qed.

Section tarjan.
Variable g : Graph.

(** The invariant of the state between two steps of [strongConnect]:
    the stack holds numbered parties, in decreasing order of their index
    from the top; every party of the stack reaches the ones above it; and
    the lowlink of a party of the stack is the index of a party of the
    stack that it reaches. *)
Record tarjan_inv (s : tarjan) : Prop := mkTarjanInv {
  ti_dom : dom (indices s) ⊆ vertices g;
  ti_index : ∀ x i, indices s !! x = Some i → i < index s;
  ti_stack : ∀ x, x ∈ stack s → is_Some (indices s !! x);
  ti_nodup : NoDup (stack s);
  ti_on : ∀ x, isOnStack s x = true ↔ x ∈ stack s;
  ti_below : ∀ l1 x l2, stack s = l1 ++ x :: l2 →
             ∀ y, y ∈ l2 → indexOf s y < indexOf s x ∧ reach g y x;
  ti_low : ∀ x, x ∈ stack s →
           lowlinkOf s x ≤ indexOf s x
           ∧ ∃ z, z ∈ stack s ∧ indexOf s z = lowlinkOf s x ∧ reach g x z;
  ti_sccs : Forall (goodSCC g) (sccs s)
}.

(** The numbered parties keep their index, and their lowlink. *)
Definition extends (s s' : tarjan) : Prop :=
  index s ≤ index s'
  ∧ ∀ x, is_Some (indices s !! x) →
         indices s' !! x = indices s !! x ∧ lowlink s' !! x = lowlink s !! x.

(** The state [s'] in which [strongConnect v] returns, called in [s]. *)
Definition connected (v : string) (s s' : tarjan) : Prop :=
  tarjan_inv s' ∧ extends s s'
  ∧ indices s' !! v = Some (index s)
  ∧ ∃ new, stack s' = new ++ stack s
           ∧ (∀ x, x ∈ new → lowlinkOf s' x < indexOf s' x)
           ∧ (v ∈ new ∨ lowlinkOf s' v = index s).

Lemma extends_refl s : extends s s.
Proof. split; [lia|done]. Qed.

Lemma extends_trans s1 s2 s3 : extends s1 s2 → extends s2 s3 → extends s1 s3.
Proof.
  intros [Hi1 H1] [Hi2 H2]. split; [lia|]. intros x Hx.
  destruct (H1 x Hx) as [Ha Hb]. destruct (H2 x) as [Hc Hd].
  - by rewrite Ha.
  - split; congruence.
Qed.

Lemma extends_indexOf s s' x :
  extends s s' → is_Some (indices s !! x) →
  indexOf s' x = indexOf s x ∧ lowlinkOf s' x = lowlinkOf s x.
Proof.
  intros [_ H] Hx. destruct (H x Hx) as [Ha Hb].
  unfold indexOf, lowlinkOf. by rewrite Ha, Hb.
Qed.

Lemma extends_setLowlink s s' v m :
  extends s s' → indices s !! v = None → extends s (setLowlink s' v m).
Proof.
  intros [Hi H] Hv. split; [done|]. intros x Hx. simpl.
  destruct (H x Hx) as [Ha Hb]. split; [done|].
  rewrite lookup_insert_ne; [done|]. intros ->. rewrite Hv in Hx. by destruct Hx.
Qed.

Lemma lowlinkOf_setLowlink s v m x :
  lowlinkOf (setLowlink s v m) x = if decide (v = x) then m else lowlinkOf s x.
Proof. unfold lowlinkOf. simpl. rewrite lookup_insert. by case_decide. Qed.

(** Lowering the lowlink of a party of the stack to the index of a party
    of the stack that it reaches. *)
Lemma setLowlink_inv s v m :
  tarjan_inv s → v ∈ stack s → m ≤ indexOf s v →
  (∃ z, z ∈ stack s ∧ indexOf s z = m ∧ reach g v z) →
  tarjan_inv (setLowlink s v m).
Proof.
  intros [] Hv Hm Hz. split; try done.
  intros x Hx. rewrite lowlinkOf_setLowlink. case_decide; subst.
  - split; [done|]. destruct Hz as (z & ? & ? & ?). by exists z.
  - destruct (ti_low0 x Hx) as [? (z & ? & ? & ?)]. split; [done|].
    by exists z.
Qed.

Lemma enter_inv s v :
  tarjan_inv s → v ∈ vertices g → indices s !! v = None →
  (∀ y, y ∈ stack s → reach g y v) →
  tarjan_inv (enter v s).
Proof.
  intros [] Hv Hnew Hreach.
  assert (Hnotin : v ∉ stack s).
  { intros Hin. apply ti_stack0 in Hin. rewrite Hnew in Hin. by destruct Hin. }
  assert (Hidx : ∀ y, y ≠ v → indexOf (enter v s) y = indexOf s y).
  { intros y Hy. unfold indexOf. simpl. by rewrite lookup_insert_ne. }
  assert (Hidv : indexOf (enter v s) v = index s).
  { unfold indexOf. simpl. by rewrite lookup_insert_eq. }
  assert (Hlow : ∀ y, y ≠ v → lowlinkOf (enter v s) y = lowlinkOf s y).
  { intros y Hy. unfold lowlinkOf. simpl. by rewrite lookup_insert_ne. }
  assert (Hlov : lowlinkOf (enter v s) v = index s).
  { unfold lowlinkOf. simpl. by rewrite lookup_insert_eq. }
  split; simpl.
  - rewrite dom_insert_L. apply union_least; [by apply singleton_subseteq_l|done].
  - intros x i. rewrite lookup_insert. case_decide.
    + intros [= <-]. lia.
    + intros Hx. apply ti_index0 in Hx. lia.
  - intros x [->|Hx]%elem_of_cons.
    + rewrite lookup_insert_eq. by eexists.
    + rewrite lookup_insert_ne; [by apply ti_stack0|]. by intros ->.
  - by constructor.
  - intros x. unfold isOnStack. simpl. rewrite lookup_insert, elem_of_cons.
    case_decide; subst; simpl.
    + split; [by left|done].
    + rewrite <- ti_on0. unfold isOnStack. split; [by right|].
      by intros [->|?].
  - intros l1 x l2 Hst y Hy. destruct l1 as [|x1 l1]; simplify_eq/=.
    + assert (y ≠ x) by (by intros ->). rewrite Hidv, Hidx by done.
      split; [|by apply Hreach].
      destruct (ti_stack0 y Hy) as [i Hi]. unfold indexOf. rewrite Hi. simpl.
      by eapply ti_index0.
    + assert (Hxin : x ∈ stack s).
      { rewrite H0. apply elem_of_app. right. by left. }
      assert (Hyin : y ∈ stack s).
      { rewrite H0. apply elem_of_app. right. by right. }
      rewrite !Hidx by (by intros ->). by eapply ti_below0.
  - intros x [->|Hx]%elem_of_cons.
    + rewrite Hlov, Hidv. split; [lia|]. exists v. split_and!; [by left|done..].
    + assert (x ≠ v) by (by intros ->). rewrite Hlow, Hidx by done.
      destruct (ti_low0 x Hx) as [? (z & Hz & ? & ?)]. split; [done|].
      exists z. assert (z ≠ v) by (by intros ->).
      rewrite Hidx by done. split_and!; [by right|done..].
  - done.
Qed.

(** The parties pushed above an old part of the stack, whose lowlink is
    below their index, reach whatever the old part reaches. *)
Lemma reach_down s (v : string) pre new old :
  tarjan_inv s → stack s = pre ++ new ++ old →
  (∀ y, y ∈ old → reach g y v) →
  (∀ x, x ∈ new → lowlinkOf s x < indexOf s x) →
  ∀ x, x ∈ new → reach g x v.
Proof.
  intros Hinv. revert pre. induction new as [|x0 new IH]; intros pre Hst Hold Hnew x Hx;
    [by apply elem_of_nil in Hx|].
  assert (IH' : ∀ y, y ∈ new → reach g y v).
  { apply (IH (pre ++ [x0])); [by rewrite <- app_assoc|done|].
    intros y Hy. apply Hnew. by right. }
  apply elem_of_cons in Hx as [->|Hx]; [|by apply IH'].
  assert (Hx0 : x0 ∈ stack s).
  { rewrite Hst. apply elem_of_app. right. by left. }
  destruct (ti_low s Hinv x0 Hx0) as [_ (z & Hz & Hzi & Hzr)].
  specialize (Hnew x0 (list_elem_of_here _ _)).
  etrans; [exact Hzr|].
  rewrite Hst in Hz. apply elem_of_app in Hz as [Hz|Hz].
  - apply list_elem_of_split in Hz as (p1 & p2 & ->).
    destruct (ti_below s Hinv p1 z (p2 ++ x0 :: new ++ old)) with (y := x0) as [? _].
    + rewrite Hst. by rewrite <- !app_assoc.
    + apply elem_of_app. right. by left.
    + lia.
  - apply elem_of_cons in Hz as [->|Hz]; [lia|].
    apply elem_of_app in Hz as [Hz|Hz]; [by apply IH'|by apply Hold].
Qed.

(** Popping the component of a root [v]: the parties above [v] and [v]. *)
Lemma pop_inv s v new rest sccs' :
  tarjan_inv s → stack s = new ++ v :: rest →
  Forall (goodSCC g) sccs' →
  tarjan_inv (mkTarjan (index s) rest (markOff (onStack s) (new ++ [v]))
                (indices s) (lowlink s) sccs').
Proof.
  intros Hinv Hst Hsccs. pose proof (ti_nodup s Hinv) as Hnd.
  rewrite Hst in Hnd. apply NoDup_app in Hnd as (Hnd1 & Hnd2 & Hnd3).
  apply NoDup_cons in Hnd3 as [Hv Hnd3].
  assert (Hrest : ∀ x, x ∈ rest → x ∈ stack s).
  { intros x Hx. rewrite Hst. apply elem_of_app. right. by right. }
  assert (Hpopped : ∀ x, x ∈ new ++ [v] → x ∉ rest).
  { intros x [Hx| ->%list_elem_of_singleton]%elem_of_app; [|done].
    intros Hr. apply (Hnd2 x Hx). by right. }
  split; simpl; try by destruct Hinv.
  - intros x Hx. by apply (ti_stack s Hinv), Hrest.
  - intros x. unfold isOnStack. simpl. rewrite markOff_lookup.
    case_decide as Hp.
    + split; [done|]. intros Hx. by apply Hpopped in Hp.
    + pose proof (ti_on s Hinv x) as Hon. unfold isOnStack in Hon.
      rewrite Hon, Hst. rewrite elem_of_app, elem_of_cons.
      rewrite elem_of_app, list_elem_of_singleton in Hp.
      split; [|by auto]. intros [?|[?|?]]; [exfalso; by auto..|done].
  - intros l1 x l2 Hr y Hy.
    apply (ti_below s Hinv (new ++ v :: l1) x l2); [|done].
    rewrite Hst, Hr. by rewrite <- app_assoc.
  - intros x Hx. destruct (ti_low s Hinv x (Hrest x Hx)) as [Hle (z & Hz & Hzi & Hzr)].
    split; [done|]. exists z. split; [|done].
    rewrite Hst in Hz. apply elem_of_app in Hz as [Hz|Hz].
    + exfalso. apply list_elem_of_split in Hz as (p1 & p2 & ->).
      destruct (ti_below s Hinv p1 z (p2 ++ v :: rest)) with (y := x) as [? _].
      * rewrite Hst. by rewrite <- app_assoc.
      * apply elem_of_app. right. by right.
      * unfold indexOf, lowlinkOf in *. simpl in *. lia.
    + apply elem_of_cons in Hz as [->|Hz]; [|done]. exfalso.
      destruct (ti_below s Hinv new v rest Hst x Hx) as [? _].
      unfold indexOf, lowlinkOf in *. simpl in *. lia.
Qed.

Lemma fuel_step (dom0 dom1 : gset string) (v : string) (fuel : nat) :
  v ∈ vertices g → v ∉ dom0 → dom0 ⊆ dom1 → v ∈ dom1 →
  (size (vertices g ∖ dom0) ≤ S fuel)%nat →
  (size (vertices g ∖ dom1) ≤ fuel)%nat.
Proof.
  intros Hv Hv0 Hsub Hv1 Hsize.
  assert (vertices g ∖ dom1 ⊆ (vertices g ∖ dom0) ∖ {[v]}) as Hs.
  { intros x. rewrite !elem_of_difference, elem_of_singleton.
    intros [Hx Hx1]. split_and!; [done|by auto|by intros ->]. }
  assert ({[v]} ⊆ vertices g ∖ dom0) as Hs'.
  { apply singleton_subseteq_l. by apply elem_of_difference. }
  apply subseteq_size in Hs. rewrite (size_difference _ _ Hs') in Hs.
  rewrite size_singleton in Hs. lia.
Qed.
Lemma strongConnect_S fuel v s :
  strongConnect (S fuel) g v s
  = (s ← foldM (λ s edge,
            let w := To edge in
            match indices s !! w with
            | None =>
                s ← strongConnect fuel g w s;
                Ok (setLowlink s v (minInt (lowlinkOf s v) (lowlinkOf s w)))
            | Some iw =>
                if isOnStack s w
                then Ok (setLowlink s v (minInt (lowlinkOf s v) iw))
                else Ok s
            end) (edgesOf g v) (enter v s);
     finish v s).
Proof. done. Qed.

(** The state of the loop over the edges of [v], entered in [s]. *)
Definition visiting (v : string) (s si : tarjan) : Prop :=
  tarjan_inv si ∧ extends s si
  ∧ indices si !! v = Some (index s) ∧ index s < index si
  ∧ (∃ new, stack si = new ++ v :: stack s
            ∧ ∀ x, x ∈ new → lowlinkOf si x < indexOf si x)
  ∧ ∀ y, y ∈ stack si → reach g y v.

Lemma visiting_enter v s :
  tarjan_inv s → v ∈ vertices g → indices s !! v = None →
  (∀ y, y ∈ stack s → reach g y v) →
  visiting v s (enter v s).
Proof.
  intros Hinv Hv Hnew Hreach. split_and!.
  - by apply enter_inv.
  - split; [simpl; lia|]. intros x Hx. simpl.
    assert (v ≠ x) by (intros ->; rewrite Hnew in Hx; by destruct Hx).
    by rewrite !lookup_insert_ne.
  - simpl. by rewrite lookup_insert_eq.
  - simpl. lia.
  - exists []. split; [done|]. by intros x Hx%elem_of_nil.
  - intros y [->|Hy]%elem_of_cons; [done|by apply Hreach].
Qed.

(** The update of [lowlink[v]] in the loop keeps its state. *)
Lemma visiting_setLowlink v s si m :
  indices s !! v = None → visiting v s si →
  m ≤ lowlinkOf si v →
  (m < lowlinkOf si v → ∃ z, z ∈ stack si ∧ indexOf si z = m ∧ reach g v z) →
  visiting v s (setLowlink si v m).
Proof.
  intros Hnew (Hinv & Hext & Hiv & Hidx & (new & Hst & Hlow) & Hreach) Hm Hz.
  assert (Hvin : v ∈ stack si).
  { rewrite Hst. apply elem_of_app. right. by left. }
  destruct (ti_low si Hinv v Hvin) as [Hle (z0 & Hz0 & Hz0i & Hz0r)].
  split_and!; try done.
  - apply setLowlink_inv; [done..|lia|].
    destruct (decide (m < lowlinkOf si v)) as [Hlt|Hge]; [by apply Hz|].
    exists z0. split_and!; [done|lia|done].
  - by apply extends_setLowlink.
  - exists new. split; [done|]. intros x Hx.
    rewrite lowlinkOf_setLowlink, decide_False; [by apply Hlow|].
    intros <-. pose proof (ti_nodup si Hinv) as Hnd. rewrite Hst in Hnd.
    apply NoDup_app in Hnd as (_ & Hnd & _). apply (Hnd v Hx). by left.
Qed.

Lemma strongConnect_spec fuel v s :
  tarjan_inv s → v ∈ vertices g → indices s !! v = None →
  (size (vertices g ∖ dom (indices s)) ≤ fuel)%nat →
  (∀ y, y ∈ stack s → reach g y v) →
  ∃ s', strongConnect fuel g v s = Ok s' ∧ connected v s s'.
Proof.
  revert v s. induction fuel as [|fuel IH]; intros v s Hinv Hv Hnew Hfuel Hreach.
  { exfalso. apply Nat.le_0_r, size_empty_inv in Hfuel.
    apply (not_elem_of_empty (C := gset string) v). rewrite <- Hfuel.
    apply elem_of_difference. split; [done|]. by apply not_elem_of_dom. }
  rewrite strongConnect_S.
  match goal with
  | |- context [foldM ?f ?l ?a] =>
      assert (∃ s2, foldM f l a = Ok s2 ∧ visiting v s s2) as (s2 & -> & Hloop)
  end.
  { apply foldM_inv; [by apply visiting_enter|].
    intros si e He Hvis. pose proof Hvis as (Hinv_i & Hext & Hiv & Hidx & (newi & Hst & Hlow) & Hr).
    assert (Hedge : edge g v (To e)) by (by exists e).
    assert (Hvin : v ∈ stack si).
    { rewrite Hst. apply elem_of_app. right. by left. }
    simpl. destruct (indices si !! To e) as [iw|] eqn:Hw.
    - destruct (isOnStack si (To e)) eqn:Hon; [|by exists si].
      eexists. split; [done|]. apply visiting_setLowlink; [done..| |].
      + unfold minInt. lia.
      + intros Hlt. exists (To e). split_and!.
        * by apply (ti_on si Hinv_i).
        * unfold indexOf, minInt in *. rewrite Hw. simpl. lia.
        * by apply rtc_once.
    - destruct (IH (To e) si) as (s' & -> & Hinv' & Hext' & Hiw' & new & Hst' & Hlow' & Hwn).
      + done.
      + by apply (edge_vertices g v).
      + done.
      + apply (fuel_step (dom (indices s)) _ v); [done|by apply not_elem_of_dom| |
          by apply elem_of_dom|done].
        intros x Hx%elem_of_dom. apply elem_of_dom.
        destruct Hext as [_ Hext]. destruct (Hext x Hx) as [-> _]. done.
      + intros y Hy. eapply rtc_r; [by apply Hr|done].
      + simpl. eexists. split; [done|].
        assert (Hvs : is_Some (indices si !! v)) by (by rewrite Hiv).
        destruct (extends_indexOf si s' v Hext' Hvs) as [Hv1 Hv2].
        assert (Hidv : indexOf si v = index s) by (unfold indexOf; by rewrite Hiv).
        assert (Hvis' : visiting v s s').
        { split_and!.
          - done.
          - by eapply extends_trans.
          - destruct Hext' as [_ Hext']. destruct (Hext' v Hvs) as [-> _]. done.
          - destruct Hext'. lia.
          - exists (new ++ newi). split; [by rewrite Hst', Hst, app_assoc|].
            intros x [Hx|Hx]%elem_of_app; [by apply Hlow'|].
            assert (is_Some (indices si !! x)) as Hxs.
            { apply (ti_stack si Hinv_i). rewrite Hst. apply elem_of_app. by left. }
            destruct (extends_indexOf si s' x Hext' Hxs) as [-> ->]. by apply Hlow.
          - intros y. rewrite Hst'. intros [Hy|Hy]%elem_of_app; [|by apply Hr].
            by apply (reach_down s' v [] new (stack si)). }
        apply visiting_setLowlink; [done..| |].
        * unfold minInt. lia.
        * intros Hlt. unfold minInt in *. destruct Hwn as [Hwn|Hwn].
          -- assert (Hwin : To e ∈ stack s').
             { rewrite Hst'. apply elem_of_app. by left. }
             destruct (ti_low s' Hinv' (To e) Hwin) as [_ (z & Hz & Hzi & Hzr)].
             exists z. split_and!; [done|lia|].
             eapply rtc_l; [exact Hedge|done].
          -- exfalso.
             assert (Hvin' : v ∈ stack s').
             { rewrite Hst'. apply elem_of_app. by right. }
             destruct (ti_low s' Hinv' v Hvin') as [Hle _]. lia. }
  simpl. destruct Hloop as (Hinv2 & Hext2 & Hiv2 & Hidx2 & (new2 & Hst2 & Hlow2) & Hr2).
  assert (Hvin : v ∈ stack s2).
  { rewrite Hst2. apply elem_of_app. right. by left. }
  assert (Hidv : indexOf s2 v = index s) by (unfold indexOf; by rewrite Hiv2).
  pose proof (ti_nodup s2 Hinv2) as Hnd. rewrite Hst2 in Hnd.
  apply NoDup_app in Hnd as (Hnd1 & Hnd2 & Hnd3).
  unfold finish. case_decide as Hroot.
  - rewrite Hst2, popSCC_spec by (intros Hin; apply (Hnd2 v Hin); by left).
    simpl. eexists. split; [done|]. split_and!.
    + apply pop_inv; [done..|]. case_decide as Hlen; [|by apply (ti_sccs s2)].
      apply Forall_app. split; [by apply (ti_sccs s2)|]. apply Forall_singleton.
      split_and!; [done| |].
      * apply NoDup_app. split_and!; [done| |apply NoDup_singleton].
        intros x Hx ->%list_elem_of_singleton. apply (Hnd2 v Hx). by left.
      * intros x y Hx Hy. etrans.
        -- apply Hr2. rewrite Hst2.
           apply elem_of_app in Hx as [Hx|Hx%list_elem_of_singleton];
             apply elem_of_app; [by left|right; subst; by left].
        -- apply elem_of_app in Hy as [Hy| ->%list_elem_of_singleton]; [|done].
           apply list_elem_of_split in Hy as (p1 & p2 & ->).
           eapply (ti_below s2 Hinv2 p1 y (p2 ++ v :: stack s)).
           ++ rewrite Hst2. by rewrite <- app_assoc.
           ++ apply elem_of_app. right. by left.
    + destruct Hext2 as [? Hext2]. split; [done|]. intros x Hx. by apply Hext2.
    + done.
    + exists []. split; [done|]. split; [by intros x Hx%elem_of_nil|].
      right. unfold lowlinkOf in *. simpl. lia.
  - exists s2. split; [done|]. split_and!; [done..|].
    exists (new2 ++ [v]). split; [by rewrite Hst2, <- app_assoc|]. split.
    + intros x [Hx| ->%list_elem_of_singleton]%elem_of_app; [by apply Hlow2|].
      destruct (ti_low s2 Hinv2 v Hvin) as [Hle _]. lia.
    + left. apply elem_of_app. right. by left.
Qed.

Lemma tarjan0_inv : tarjan_inv tarjan0.
Proof.
  split; simpl; try done.
  - intros x Hx%elem_of_nil. done.
  - constructor.
  - intros x. unfold isOnStack. simpl. rewrite lookup_empty. simpl.
    split; [done|]. by intros Hx%elem_of_nil.
  - intros l1 x l2 Hst. by destruct l1.
  - intros x Hx%elem_of_nil. done.
Qed.

(** Back at the top level the stack is empty. *)
Lemma connected_root v s s' : stack s = [] → connected v s s' → stack s' = [].
Proof.
  intros Hs (Hinv & _ & _ & new & Hst & Hlow & _). rewrite Hs, app_nil_r in Hst.
  destruct new as [|x0 new0] using rev_ind; [done|]. exfalso. clear IHnew0.
  assert (Hx : x0 ∈ stack s') by (rewrite Hst; apply elem_of_app; right; by left).
  destruct (ti_low s' Hinv x0 Hx) as [_ (z & Hz & Hzi & _)].
  specialize (Hlow x0). rewrite Hst in Hz.
  apply elem_of_app in Hz as [Hz| ->%list_elem_of_singleton].
  - apply list_elem_of_split in Hz as (p1 & p2 & ->).
    destruct (ti_below s' Hinv p1 z (p2 ++ [x0])) with (y := x0) as [? _].
    + by rewrite Hst, <- app_assoc.
    + apply elem_of_app. right. by left.
    + assert (lowlinkOf s' x0 < indexOf s' x0); [|lia].
      apply Hlow, elem_of_app. right. by left.
  - assert (lowlinkOf s' x0 < indexOf s' x0); [|lia].
    apply Hlow, elem_of_app. right. by left.
Qed.

(** [FindSCCs] returns, and what it returns are components of at least
    two parties that reach each other. *)
Lemma FindSCCs_spec roots :
  (∀ v, v ∈ roots → v ∈ vertices g) →
  ∃ sccs, FindSCCs roots g = Ok sccs ∧ Forall (goodSCC g) sccs.
Proof.
  intros Hroots. unfold FindSCCs.
  match goal with
  | |- context [foldM ?f ?l ?a] =>
      assert (∃ s, foldM f l a = Ok s ∧ tarjan_inv s ∧ stack s = [])
        as (s & -> & Hinv & _)
  end; [|simpl; eexists; split; [done|by apply (ti_sccs s)]].
  apply foldM_inv; [split; [apply tarjan0_inv|done]|].
  intros s v Hv [Hinv Hst]. destruct (indices s !! v) eqn:Hi; [by exists s|].
  destruct (strongConnect_spec (size (vertices g)) v s) as (s' & -> & Hc); try done.
  - by apply Hroots.
  - apply subseteq_size. apply subseteq_difference_l. done.
  - rewrite Hst. by intros y Hy%elem_of_nil.
  - exists s'. split; [done|]. split; [by destruct Hc|].
    by eapply connected_root.
Qed.
End tarjan.

(** ** The pipeline always returns *)

Lemma oracle_roots o g v : fair o → v ∈ o 0%nat (keys g) → v ∈ vertices g.
Proof. intros Ho Hv. rewrite (Ho 0%nat (keys g)) in Hv. by apply keys_vertices. Qed.

Lemma netSCCs_inv (I : Graph → Prop) o sccs st :
  I st.1 →
  (∀ g scc c tokens, I g → scc ∈ sccs → foundIn scc maxCycleLength c →
     I (netTokens g c tokens)) →
  ∃ st', foldM (netSCC o) sccs st = Ok st' ∧ I st'.1.
Proof.
  intros Hst Hstep. apply (foldM_inv (λ st, I st.1)); [done|].
  intros st1 scc Hscc Hst1. rewrite netSCC_eq.
  destruct (FindCycles_spec st1.1 scc maxCycleLength) as (cs & -> & Hcs).
  eexists. split; [done|]. revert st1 Hst1.
  induction Hcs as [|c cs Hc Hcs IH]; intros st1 Hst1; [done|].
  simpl. apply IH. unfold netCycle. simpl. by eapply Hstep.
Qed.

Lemma ProcessNetting_total o intents :
  fair o → ∃ out, ProcessNetting o intents = Ok out.
Proof.
  intros Ho. unfold ProcessNetting.
  destruct (FindSCCs_spec (buildGraph intents) (o 0%nat (keys (buildGraph intents))))
    as (sccs & -> & _); [intros v; by apply oracle_roots|].
  simpl.
  destruct (netSCCs_inv (λ _, True) o sccs (buildGraph intents, 1%nat))
    as (st' & -> & _); [done..|].
  by eexists.
Qed.

(** ** Self-obligations *)

Lemma subEdge_lookup_unmatched es to token amount j e :
  matches to token e = false →
  subEdge es to token amount !! j = Some e ↔ es !! j = Some e.
Proof.
  intros Hne. revert j. induction es as [|e0 es IH]; intros j; simpl; [done|].
  destruct (matches to token e0) eqn:Hm; [|destruct j; simpl; [done|apply IH]].
  destruct j; simpl; [|done].
  split; intros [= <-]; [|congruence].
  unfold matches in *. simpl in *. congruence.
Qed.

Lemma applyPairs_lookup_unmatched token amount ps g from j e :
  (∀ to, (from, to) ∈ ps → matches to token e = false) →
  edgesOf (applyPairs token amount ps g) from !! j = Some e
  ↔ edgesOf g from !! j = Some e.
Proof.
  revert g. induction ps as [|[f t] ps IH]; intros g Hps; [done|].
  rewrite applyPairs_cons, IH, edgesOf_alter by (done || intros; apply Hps; by right).
  case_decide; [|done]. subst. apply subEdge_lookup_unmatched, Hps. left.
Qed.

(** In a list of pairwise distinct parties only the cycle of one party
    has a party followed by itself. *)
Lemma cyclePairs_self cycle A :
  NoDup cycle → (A, A) ∈ cyclePairs cycle → cycle = [A].
Proof.
  intros Hnd [i Hi]%list_elem_of_lookup.
  assert (i < length cycle)%nat as Hlt.
  { rewrite <- cyclePairs_length. by eapply lookup_lt_Some. }
  rewrite cyclePairs_lookup in Hi by done. injection Hi as H1 H2.
  assert (Hm : ((i + 1) mod length cycle < length cycle)%nat)
    by (apply Nat.mod_upper_bound; lia).
  destruct (nth_lookup_or_length cycle i "") as [Hl1|]; [|lia].
  destruct (nth_lookup_or_length cycle ((i + 1) mod length cycle) "") as [Hl2|]; [|lia].
  rewrite H1 in Hl1. rewrite H2 in Hl2.
  pose proof (NoDup_lookup _ _ _ _ Hnd Hl1 Hl2) as Heq.
  assert (length cycle = 1%nat ∧ i = 0%nat) as [Hlen ->].
  { destruct (decide (i + 1 < length cycle)%nat).
    - rewrite Nat.mod_small in Heq by done. lia.
    - assert (i + 1 = length cycle)%nat as Hi1 by lia.
      rewrite Hi1, Nat.Div0.mod_same in Heq. lia. }
  destruct cycle as [|x [|y cycle]]; simpl in Hlen; [lia| |lia].
  simpl in Hl1. congruence.
Qed.

(** The edges from [A] to [A] are where they were, as they were. *)
Definition selfLoopsKept (A : string) (g g' : Graph) : Prop :=
  ∀ j e, To e = A → edgesOf g' A !! j = Some e ↔ edgesOf g A !! j = Some e.

Lemma netTokens_selfLoops A g cycle tokens :
  (A, A) ∉ cyclePairs cycle → selfLoopsKept A g (netTokens g cycle tokens).
Proof.
  intros Hself. unfold netTokens. revert g.
  induction tokens as [|t tokens IH]; intros g j e He; [done|].
  simpl. etrans; [by apply IH|]. case_decide; [|done].
  rewrite ApplyNetting_applyPairs. apply applyPairs_lookup_unmatched.
  intros to Hto. unfold matches. apply andb_false_iff. left.
  apply bool_decide_eq_false. intros Heq. apply Hself. congruence.
Qed.

Lemma found_no_self A scc c :
  A ∉ scc → foundIn scc maxCycleLength c → (A, A) ∉ cyclePairs c.
Proof.
  intros HA (v & Hv & _ & Hnd & Hhd) Hself.
  apply cyclePairs_self in Hself; [|done]. subst c. simpl in Hhd.
  by simplify_eq.
Qed.

(** ** The amounts of a built graph *)

(** The amount that the calls of [AddEdge] accumulate for the triple
    (from, to, token): the first intent sets it, the later ones are added
    in [uint64]; [None] when no intent has the triple. *)
Definition mergedAmount (from to token : string) (intents : list Intent)
    : option Z :=
  fold_left (λ acc i,
     if bool_decide (Sender i = from ∧ Receiver i = to ∧ Token i = token)
     then Some (match acc with Some a => wadd a (Amount i) | None => Amount i end)
     else acc) intents None.

Lemma findEdge_app es es' to token :
  findEdge (es ++ es') to token
  = match findEdge es to token with
    | Some e => Some e
    | None => findEdge es' to token
    end.
Proof.
  induction es as [|e es IH]; [done|]. rewrite <- app_comm_cons, !findEdge_cons.
  by destruct (matches to token e).
Qed.

Lemma findEdge_mergeEdge es to token amount es' to' token' :
  mergeEdge es to token amount = Some es' →
  findEdge es' to' token'
  = if bool_decide (to = to' ∧ token = token')
    then (λ e, mkEdge to token (wadd (EdgeAmount e) amount)) <$> findEdge es to token
    else findEdge es to' token'.
Proof.
  revert es'. induction es as [|e es IH]; intros es'; simpl; [done|].
  rewrite !findEdge_cons. destruct (matches to token e) eqn:Hm.
  - intros [= <-]. rewrite findEdge_cons. apply matches_spec in Hm as [<- <-].
    unfold matches. simpl. case_bool_decide as Hd.
    + destruct Hd as [<- <-]. by rewrite !bool_decide_eq_true_2.
    + destruct (bool_decide (To e = to')) eqn:H1;
        destruct (bool_decide (EdgeToken e = token')) eqn:H2; simpl; try done.
      apply bool_decide_eq_true in H1, H2. exfalso. by apply Hd.
  - destruct (mergeEdge es to token amount) as [es0|]; simpl; [|done].
    intros [= <-]. rewrite findEdge_cons, (IH es0 eq_refl).
    destruct (matches to' token' e) eqn:Hm'; [|done].
    rewrite bool_decide_eq_false_2; [done|]. intros [<- <-]. congruence.
Qed.

Lemma findEdge_AddEdge g from to token amount from' to' token' :
  findEdge (edgesOf (AddEdge g from to token amount) from') to' token'
  = if bool_decide (from = from' ∧ to = to' ∧ token = token')
    then Some (mkEdge to token
                 match findEdge (edgesOf g from) to token with
                 | Some e => wadd (EdgeAmount e) amount
                 | None => amount
                 end)
    else findEdge (edgesOf g from') to' token'.
Proof.
  unfold AddEdge.
  destruct (mergeEdge (edgesOf g from) to token amount) as [es|] eqn:Hm;
    rewrite edgesOf_insert; case_decide as Hf; subst.
  - rewrite (findEdge_mergeEdge _ _ _ _ _ _ _ Hm).
    destruct (findEdge (edgesOf g from') to token) as [e|] eqn:Hfind.
    + repeat case_bool_decide; try done; exfalso; tauto.
    + apply mergeEdge_None with (amount := amount) in Hfind. congruence.
  - rewrite bool_decide_eq_false_2; [done|]. by intros [? _].
  - apply mergeEdge_None in Hm. rewrite findEdge_app, Hm.
    destruct (bool_decide (to = to' ∧ token = token')) eqn:Hd.
    + apply bool_decide_eq_true in Hd as [<- <-].
      rewrite Hm, bool_decide_eq_true_2 by done.
      rewrite findEdge_cons. unfold matches. simpl.
      by rewrite !bool_decide_eq_true_2.
    + apply bool_decide_eq_false in Hd.
      rewrite bool_decide_eq_false_2 by (intros (_ & ? & ?); by apply Hd).
      rewrite findEdge_cons. unfold matches. simpl.
      destruct (findEdge (edgesOf g from') to' token'); [done|].
      destruct (bool_decide (to = to')) eqn:H1;
        destruct (bool_decide (token = token')) eqn:H2; simpl; try done.
      apply bool_decide_eq_true in H1, H2. exfalso. by apply Hd.
  - rewrite bool_decide_eq_false_2; [done|]. by intros [? _].
Qed.

Lemma mergedAmount_snoc from to token l i :
  mergedAmount from to token (l ++ [i])
  = if bool_decide (Sender i = from ∧ Receiver i = to ∧ Token i = token)
    then Some (match mergedAmount from to token l with
               | Some a => wadd a (Amount i)
               | None => Amount i
               end)
    else mergedAmount from to token l.
Proof. unfold mergedAmount. by rewrite fold_left_app. Qed.

Lemma buildGraph_findEdge l from to token :
  findEdge (edgesOf (buildGraph l) from) to token
  = mkEdge to token <$> mergedAmount from to token l.
Proof.
  induction l as [|i l IH] using rev_ind; [done|].
  rewrite buildGraph_snoc, findEdge_AddEdge, mergedAmount_snoc.
  case_bool_decide as Hd; [|done]. destruct Hd as (-> & -> & ->).
  rewrite IH. by destruct (mergedAmount _ _ _ l).
Qed.

Lemma mergedAmount_None from to token l :
  mergedAmount from to token l = None →
  ∀ i, i ∈ l → ¬ (Sender i = from ∧ Receiver i = to ∧ Token i = token).
Proof.
  induction l as [|i0 l IH] using rev_ind; [by intros _ i Hi%elem_of_nil|].
  rewrite mergedAmount_snoc. case_bool_decide as Hd; [done|].
  intros Hl i [Hi| ->%list_elem_of_singleton]%elem_of_app; [by apply IH|done].
Qed.

(** Every edge of a built graph comes from an intent. *)
Lemma buildGraph_edge_intent l from e :
  e ∈ edgesOf (buildGraph l) from →
  ∃ i, i ∈ l ∧ Sender i = from ∧ Receiver i = To e ∧ Token i = EdgeToken e.
Proof.
  intros He. apply findEdge_unique in He; [|apply buildGraph_unique].
  rewrite buildGraph_findEdge in He.
  destruct (mergedAmount from (To e) (EdgeToken e) l) as [a|] eqn:Ha; [|done].
  clear He. induction l as [|i l IH] using rev_ind; [done|].
  rewrite mergedAmount_snoc in Ha. case_bool_decide as Hd.
  - exists i. split; [apply elem_of_app; right; left|done].
  - destruct (IH Ha) as (i' & Hi' & ?). exists i'. split; [|done].
    apply elem_of_app. by left.
Qed.

Lemma goodSCC_other g scc A :
  goodSCC g scc → A ∈ scc → ∃ B, B ∈ scc ∧ B ≠ A.
Proof.
  intros (Hlen & Hnd & _) HA.
  destruct scc as [|x [|y scc]]; simpl in Hlen; [lia..|].
  apply NoDup_cons in Hnd as [Hx _]. apply not_elem_of_cons in Hx as [Hxy _].
  destruct (decide (A = x)) as [->|Hne].
  - exists y. split; [right; left|done].
  - exists x. split; [left|done].
Qed.

(** A→A with A and B owing each other: A is on a cycle with B. *)
Definition selfLoopExample : list Intent :=
  [mkIntent "A" "B" "ETH" 10; mkIntent "B" "A" "ETH" 10;
   mkIntent "A" "A" "ETH" 5].

(** The self-obligation of A is netted with the rest: for every order of
    the map ranges the output is empty. *)
Lemma self_loop_netted :
  mergedAmount "A" "A" "ETH" selfLoopExample = Some 5
  ∧ outcomes selfLoopExample = [Ok []].
Proof. vm_compute. done. Qed.

(** A self-obligation of a party [A] that is on no cycle with another
    party (so that [A] is in no component of two parties or more) is not
    netted: whenever its merged amount is positive, [ProcessNetting]
    returns, whatever the order of its map ranges, and its output has the
    intent from [A] to [A] with that amount. *)
Lemma self_loop_alone_kept (o : Oracle) (intents : list Intent) (A T : string) (a : Z) :
  fair o →
  mergedAmount A A T intents = Some a → a > 0 →
  (∀ B, reach (buildGraph intents) A B → reach (buildGraph intents) B A → B = A) →
  ∃ out, ProcessNetting o intents = Ok out ∧ mkIntent A A T a ∈ out.
Proof.
  intros Ho Ha Hpos Halone. unfold ProcessNetting.
  set (g := buildGraph intents) in *.
  destruct (FindSCCs_spec g (o 0%nat (keys g))) as (sccs & -> & Hsccs);
    [intros v; by apply oracle_roots|].
  simpl. rewrite Forall_forall in Hsccs.
  assert (Hout : ∀ scc, scc ∈ sccs → A ∉ scc).
  { intros scc Hscc HA. pose proof (Hsccs scc Hscc) as Hgood.
    destruct (goodSCC_other g scc A Hgood HA) as (B & HB & Hne).
    destruct Hgood as (_ & _ & Hreach). apply Hne, Halone; by apply Hreach. }
  destruct (netSCCs_inv (selfLoopsKept A g) o sccs (g, 1%nat)) as (st' & -> & Hkept).
  { by intros j e He. }
  { intros g1 scc c tokens Hg1 Hscc Hc j e He.
    etrans; [|by apply Hg1].
    eapply netTokens_selfLoops; [|done]. eapply found_no_self; [|done]. by apply Hout. }
  simpl. eexists. split; [done|].
  pose proof (buildGraph_findEdge intents A A T) as Hfind.
  fold g in Hfind. rewrite Ha in Hfind. simpl in Hfind.
  apply findEdge_Some in Hfind as (He & _).
  apply list_elem_of_lookup in He as [j Hj].
  apply (Hkept j (mkEdge A T a) eq_refl) in Hj.
  assert (He' : mkEdge A T a ∈ edgesOf st'.1 A) by (by eapply list_elem_of_lookup_2).
  unfold ToIntents. apply list_elem_of_bind. exists A. split.
  - unfold edgeIntents. apply list_elem_of_omap. exists (mkEdge A T a).
    split; [done|]. simpl. by rewrite decide_True.
  - rewrite (Ho st'.2 (keys st'.1)).
    apply edgesOf_elem_of in He' as (es & Hes & _).
    unfold keys. apply list_elem_of_fmap. exists (A, es).
    split; [done|]. by apply elem_of_map_to_list.
Qed.

Definition loneSelfLoop : list Intent :=
  [mkIntent "A" "A" "ETH" 5; mkIntent "A" "A" "ETH" 2; mkIntent "A" "B" "ETH" 10].

Lemma loneSelfLoop_alone B :
  reach (buildGraph loneSelfLoop) "A" B → reach (buildGraph loneSelfLoop) B "A" →
  B = "A".
Proof.
  intros _ HB. apply rtc_inv in HB as [?|(y & (e & He & _) & _)]; [done|].
  apply buildGraph_edge_intent in He as (i & Hi & <- & _).
  unfold loneSelfLoop in Hi. repeat (apply elem_of_cons in Hi as [->|Hi]; [done|]).
  by apply elem_of_nil in Hi.
Qed.

(** ** Graphs without cycles *)

(** No two different parties reach each other: every strongly connected
    component has one party. *)
Definition acyclic (g : Graph) : Prop :=
  ∀ x y, reach g x y → reach g y x → x = y.

Definition triple (i : Intent) : string * string * string :=
  (Sender i, Receiver i, Token i).

(** The intents of all the edges, in the order of [map_to_list]. *)
Definition allIntents (g : Graph) : list Intent :=
  kv ← map_to_list g; edgeIntents kv.1 kv.2.

Lemma ToIntents_keys g : ToIntents (keys g) g = allIntents g.
Proof.
  unfold ToIntents, keys, allIntents.
  assert (H : ∀ kv, kv ∈ map_to_list g → edgesOf g kv.1 = kv.2).
  { intros [k es] Hkv%elem_of_map_to_list. unfold edgesOf. simpl. by rewrite Hkv. }
  induction (map_to_list g) as [|kv l IH]; [done|].
  rewrite fmap_cons, !bind_cons, IH by (intros; apply H; by right).
  by rewrite H by left.
Qed.

Lemma ToIntents_order order g :
  order ≡ₚ keys g → ToIntents order g ≡ₚ allIntents g.
Proof. intros Hp. rewrite <- ToIntents_keys. unfold ToIntents. by rewrite Hp. Qed.

Lemma allIntents_insert g from es es' :
  edgesOf g from = es →
  ∃ rest, allIntents g ≡ₚ edgeIntents from es ++ rest
          ∧ allIntents (<[from := es']> g) ≡ₚ edgeIntents from es' ++ rest.
Proof.
  intros Hes. unfold allIntents. destruct (g !! from) as [es0|] eqn:Hg.
  - assert (es0 = es) as -> by (unfold edgesOf in Hes; by rewrite Hg in Hes).
    exists (kv ← map_to_list (delete from g); edgeIntents kv.1 kv.2). split.
    + by rewrite <- (map_to_list_delete g from es Hg), bind_cons.
    + rewrite <- insert_delete_eq.
      by rewrite map_to_list_insert, bind_cons by apply lookup_delete_eq.
  - assert (es = []) as -> by (unfold edgesOf in Hes; by rewrite Hg in Hes).
    exists (kv ← map_to_list g; edgeIntents kv.1 kv.2). split; [done|].
    by rewrite map_to_list_insert, bind_cons.
Qed.

(** A new edge with a positive amount adds its intent, and nothing else. *)
Lemma allIntents_AddEdge_new g from to token amount :
  findEdge (edgesOf g from) to token = None → amount > 0 →
  allIntents (AddEdge g from to token amount)
  ≡ₚ allIntents g ++ [mkIntent from to token amount].
Proof.
  intros Hnone Hpos. unfold AddEdge.
  rewrite (proj2 (mergeEdge_None _ _ _ amount) Hnone).
  destruct (allIntents_insert g from (edgesOf g from)
              (edgesOf g from ++ [mkEdge to token amount]) eq_refl)
    as (rest & -> & ->).
  unfold edgeIntents at 1. rewrite omap_app. simpl.
  rewrite decide_True by done. fold (edgeIntents from (edgesOf g from)).
  rewrite <- !app_assoc. apply Permutation_app_head, Permutation_app_comm.
Qed.

Lemma mergedAmount_absent from to token l :
  (from, to, token) ∉ triple <$> l → mergedAmount from to token l = None.
Proof.
  induction l as [|i l IH] using rev_ind; [done|].
  rewrite fmap_app, not_elem_of_app. intros [Hl Hi].
  rewrite mergedAmount_snoc, bool_decide_eq_false_2; [by apply IH|].
  intros (<- & <- & <-). apply Hi. left.
Qed.

(** Building the graph of intents with pairwise distinct triples and
    positive amounts, and extracting it, gives the intents back. *)
Lemma buildGraph_allIntents l :
  NoDup (triple <$> l) → Forall (λ i, Amount i > 0) l →
  allIntents (buildGraph l) ≡ₚ l.
Proof.
  induction l as [|i l IH] using rev_ind; intros Hnd Hpos.
  - unfold allIntents, buildGraph. simpl. unfold NewGraph.
    by rewrite map_to_list_empty.
  - rewrite fmap_app in Hnd. apply NoDup_app in Hnd as (Hnd & Hi & _).
    apply Forall_app in Hpos as [Hpos Hipos]. rewrite Forall_singleton in Hipos.
    rewrite buildGraph_snoc, allIntents_AddEdge_new, IH by
      (done || (rewrite buildGraph_findEdge, mergedAmount_absent; [done|];
                intros Hin; apply (Hi _ Hin); left)).
    by destruct i.
Qed.

Lemma acyclic_no_scc g roots :
  acyclic g → (∀ v, v ∈ roots → v ∈ vertices g) → FindSCCs roots g = Ok [].
Proof.
  intros Hac Hroots. destruct (FindSCCs_spec g roots Hroots) as (sccs & -> & Hsccs).
  destruct sccs as [|scc sccs]; [done|]. exfalso.
  apply Forall_cons in Hsccs as [Hgood _].
  destruct scc as [|x [|y scc]]; destruct Hgood as (Hlen & Hnd & Hreach);
    simpl in Hlen; [lia..|].
  apply NoDup_cons in Hnd as [Hx _].
  assert (x = y) as Heq.
  { apply Hac; apply Hreach; (by left) || (right; by left). }
  apply Hx. rewrite Heq. left.
Qed.

(** One obligation stated in two intents. *)
Definition splitExample : list Intent :=
  [mkIntent "A" "B" "ETH" 10; mkIntent "A" "B" "ETH" 5].

Lemma splitExample_acyclic : acyclic (buildGraph splitExample).
Proof.
  intros x y Hxy Hyx.
  apply rtc_inv in Hxy as [?|(z & (e & He & _) & _)]; [done|].
  apply rtc_inv_r in Hyx as [?|(w & _ & (e' & He' & Hto))]; [done|].
  apply buildGraph_edge_intent in He' as (i & Hi & _ & Hr & _).
  exfalso. apply buildGraph_edge_intent in He as (i0 & Hi0 & Hs & _).
  unfold splitExample in Hi, Hi0.
  repeat (apply elem_of_cons in Hi as [->|Hi]);
    repeat (apply elem_of_cons in Hi0 as [->|Hi0]);
    try (by apply elem_of_nil in Hi); try (by apply elem_of_nil in Hi0);
    simpl in *; congruence.
Qed.

(** The graph of [splitExample] has no cycle, and the output is the one
    merged obligation, not the two of the input. *)
Lemma acyclic_output_merged :
  acyclic (buildGraph splitExample)
  ∧ outcomes splitExample = [Ok [mkIntent "A" "B" "ETH" 15]]
  ∧ ProcessNetting idOracle splitExample ≠ Ok splitExample.
Proof.
  split; [apply splitExample_acyclic|]. split; [vm_compute; reflexivity|].
  vm_compute. discriminate.
Qed.

(** C6 (amended).  For every input whose obligation graph has no cycle
    through two parties, [ProcessNetting] returns the obligations of the
    graph it builds: the intents of the edges with a positive amount, in
    the order of the map range.  When the input has no two intents with
    the same (sender, receiver, token) and no zero amount, that is the
    input itself, up to the order. *)
Theorem acyclic_noop (o : Oracle) (intents : list Intent) :
  fair o → acyclic (buildGraph intents) →
  ∃ out, ProcessNetting o intents = Ok out
         ∧ out ≡ₚ allIntents (buildGraph intents)
         ∧ (NoDup (triple <$> intents) → Forall (λ i, Amount i > 0) intents →
            out ≡ₚ intents).
Proof.
  intros Ho Hac. unfold ProcessNetting.
  rewrite acyclic_no_scc by (done || intros v; by apply oracle_roots).
  simpl. eexists. split; [done|].
  assert (Hout : ToIntents (o 1%nat (keys (buildGraph intents))) (buildGraph intents)
                 ≡ₚ allIntents (buildGraph intents)) by apply ToIntents_order, Ho.
  split; [done|]. intros Hnd Hpos. by rewrite Hout, buildGraph_allIntents.
Qed.

Definition chainExample : list Intent :=
  [mkIntent "A" "B" "ETH" 10; mkIntent "B" "C" "ETH" 5].

Lemma chainExample_acyclic : acyclic (buildGraph chainExample).
Proof.
  assert (Hedge : ∀ u v, edge (buildGraph chainExample) u v →
            (u = "A" ∧ v = "B") ∨ (u = "B" ∧ v = "C")).
  { intros u v (e & He & <-).
    apply buildGraph_edge_intent in He as (i & Hi & <- & <- & _).
    unfold chainExample in Hi.
    repeat (apply elem_of_cons in Hi as [->|Hi]); [by left|by right|].
    by apply elem_of_nil in Hi. }
  assert (HC : ∀ y, reach (buildGraph chainExample) "C" y → y = "C").
  { intros y [?|(z & [[? _]|[? _]]%Hedge & _)]%rtc_inv; done. }
  assert (HB : ∀ y, reach (buildGraph chainExample) "B" y → y = "B" ∨ y = "C").
  { intros y [?|(z & [[? _]|[_ ->]]%Hedge & Hz)]%rtc_inv; [by left|done|].
    right. by apply HC. }
  intros x y Hxy Hyx.
  apply rtc_inv in Hxy as [?|(z & [[-> ->]|[-> ->]]%Hedge & Hz)]; [done|..].
  - apply HB in Hz as [->| ->].
    + by apply HB in Hyx as [?|?].
    + by apply HC in Hyx.
  - apply HC in Hz as ->. by apply HC in Hyx.
Qed.

Lemma acyclic_noop_witness :
  acyclic (buildGraph chainExample)
  ∧ ∃ out, ProcessNetting idOracle chainExample = Ok out ∧ out ≡ₚ chainExample.
Proof.
  split; [apply chainExample_acyclic|].
  destruct (acyclic_noop idOracle chainExample idOracle_fair chainExample_acyclic)
    as (out & Hout & _ & Hperm).
  exists out. split; [exact Hout|]. apply Hperm.
  - refine (bool_decide_unpack (NoDup (triple <$> chainExample)) _).
    vm_compute. exact I.
  - repeat constructor.
Defined.

(** ** No subtraction of the pipeline wraps *)

(** Netting with exact subtraction, edge by edge. *)
Definition exactNetting (g : Graph) (cycle : list string) (token : string)
    (amount : Z) : Graph :=
  map_imap (λ (from : string) (es : list Edge),
              Some (list_fmap _ _ (nettedEdge cycle token amount from) es)) g.

Lemma ApplyNetting_exact g cycle token amount :
  unique_edges g → wf_graph g → NoDup cycle →
  0 ≤ amount ≤ CalculateNetting g cycle token →
  ApplyNetting g cycle token amount = exactNetting g cycle token amount.
Proof.
  intros Hu Hwf Hnd Hamt. apply map_eq. intros from.
  unfold exactNetting. rewrite map_lookup_imap.
  destruct (ApplyNetting_exact_edges g cycle token amount from) as [Hedges _];
    [done..|].
  pose proof (applyPairs_dom token amount (cyclePairs cycle) g) as Hdom.
  rewrite <- ApplyNetting_applyPairs in Hdom.
  destruct (g !! from) as [es|] eqn:Hg; simpl.
  - assert (from ∈ dom (ApplyNetting g cycle token amount)) as Hin.
    { rewrite Hdom. apply elem_of_dom. by exists es. }
    apply elem_of_dom in Hin as [es' Hes']. rewrite Hes'. f_equal.
    unfold edgesOf in Hedges. by rewrite Hes', Hg in Hedges.
  - apply not_elem_of_dom. rewrite Hdom. by apply not_elem_of_dom.
Qed.

(** The loop over the tokens of a cycle, with exact subtraction. *)
Definition netTokensExact (g : Graph) (cycle : list string)
    (tokens : list string) : Graph :=
  fold_left (λ g token,
     let amount := CalculateNetting g cycle token in
     if decide (amount > 0) then exactNetting g cycle token amount else g)
     tokens g.

(** In the loop of [ProcessNetting] over the tokens of a cycle found by
    [FindCycles], every call of [ApplyNetting] subtracts exactly, and the
    graph keeps one edge per triple and [uint64] amounts. *)
Lemma netTokens_exact g cycle tokens :
  unique_edges g → wf_graph g → NoDup cycle →
  netTokens g cycle tokens = netTokensExact g cycle tokens
  ∧ unique_edges (netTokens g cycle tokens)
  ∧ wf_graph (netTokens g cycle tokens).
Proof.
  intros Hu Hwf Hnd. revert g Hu Hwf.
  induction tokens as [|t tokens IH]; intros g Hu Hwf; [done|].
  unfold netTokens, netTokensExact. simpl.
  fold (netTokens (if decide (CalculateNetting g cycle t > 0)
                   then ApplyNetting g cycle t (CalculateNetting g cycle t) else g)
                  cycle tokens).
  fold (netTokensExact (if decide (CalculateNetting g cycle t > 0)
                        then exactNetting g cycle t (CalculateNetting g cycle t) else g)
                       cycle tokens).
  case_decide as Hpos; [|by apply IH].
  rewrite <- ApplyNetting_exact by (done || lia).
  apply IH; [by apply ApplyNetting_unique|apply ApplyNetting_wf; (done || lia)].
Qed.

(** The graph that [ProcessNetting] extracts from has one edge per triple
    and [uint64] amounts, when the amounts of the intents are [uint64]s. *)
Lemma netSCCs_wf o intents sccs :
  Forall (λ i, is_uint64 (Amount i)) intents →
  ∃ st', foldM (netSCC o) sccs (buildGraph intents, 1%nat) = Ok st'
         ∧ unique_edges st'.1 ∧ wf_graph st'.1.
Proof.
  intros Hin.
  apply (netSCCs_inv (λ g, unique_edges g ∧ wf_graph g)).
  - split; [apply buildGraph_unique|by apply buildGraph_wf].
  - intros g scc c tokens [Hu Hwf] _ (v & _ & _ & Hnd & _).
    by apply netTokens_exact.
Qed.

(** * Further properties of the graph engine *)

(** ** [AddEdge] and the edges of a built graph *)

(** X1.  Looking an edge up after [AddEdge]: the edge of the inserted
    triple holds the amount, added in [uint64] to what the triple had
    before; the edge of every other triple, from any party, is found as
    before. *)
Theorem AddEdge_lookup (g : Graph) (from to token : string) (amount : Z)
    (from' to' token' : string) :
  findEdge (edgesOf (AddEdge g from to token amount) from') to' token'
  = if bool_decide (from = from' ∧ to = to' ∧ token = token')
    then Some (mkEdge to token
                 match findEdge (edgesOf g from) to token with
                 | Some e => wadd (EdgeAmount e) amount
                 | None => amount
                 end)
    else findEdge (edgesOf g from') to' token'.
Proof. apply findEdge_AddEdge. Qed.

(** The intents of a triple, in their order, and the sum of amounts. *)
Definition matching (from to token : string) (intents : list Intent)
    : list Intent :=
  filter (λ i, triple i = (from, to, token)) intents.

Definition sumAmounts (intents : list Intent) : Z :=
  foldr (λ i acc, Amount i + acc) 0 intents.

Lemma sumAmounts_app l1 l2 : sumAmounts (l1 ++ l2) = sumAmounts l1 + sumAmounts l2.
Proof. induction l1 as [|i l1 IH]; simpl; [done|]. rewrite IH. lia. Qed.

Lemma mergedAmount_sum from to token l :
  Forall (λ i, is_uint64 (Amount i)) l →
  mergedAmount from to token l
  = match matching from to token l with
    | [] => None
    | m => Some (wrap64 (sumAmounts m))
    end.
Proof.
  induction l as [|i l IH] using rev_ind; intros Hl; [done|].
  apply Forall_app in Hl as [Hl Hi]. rewrite Forall_singleton in Hi.
  rewrite mergedAmount_snoc, IH by done. unfold matching.
  rewrite filter_app, filter_cons, filter_nil.
  case_bool_decide as Hd.
  - rewrite decide_True by (unfold triple; destruct Hd as (-> & -> & ->); done).
    destruct (filter _ l) as [|i0 m] eqn:Hm; simpl.
    + f_equal. unfold wrap64. unfold is_uint64, MaxUint64 in Hi.
      rewrite Z.add_0_r. symmetry. apply Z.mod_small. lia.
    + f_equal. unfold wadd, wrap64.
      rewrite sumAmounts_app. simpl.
      rewrite Zplus_mod_idemp_l. f_equal. lia.
  - rewrite decide_False by (unfold triple; intros [= <- <- <-]; by apply Hd).
    by rewrite app_nil_r.
Qed.

(** X2.  The graph built from intents with [uint64] amounts has an edge
    for a triple (from, to, token) exactly when some intent has the
    triple, and the edge holds the sum of the amounts of these intents
    modulo 2^64. *)
Theorem buildGraph_lookup (intents : list Intent) (from to token : string) :
  Forall (λ i, is_uint64 (Amount i)) intents →
  findEdge (edgesOf (buildGraph intents) from) to token
  = match matching from to token intents with
    | [] => None
    | m => Some (mkEdge to token (wrap64 (sumAmounts m)))
    end.
Proof.
  intros Hl. rewrite buildGraph_findEdge, mergedAmount_sum by done.
  by destruct (matching from to token intents).
Qed.

Lemma buildGraph_lookup_witness :
  findEdge (edgesOf (buildGraph splitExample) "A") "B" "ETH"
  = Some (mkEdge "B" "ETH" 15)
  ∧ findEdge (edgesOf (buildGraph splitExample) "B") "A" "ETH" = None.
Proof.
  assert (H : Forall (λ i, is_uint64 (Amount i)) splitExample).
  { repeat constructor; vm_compute; discriminate. }
  split.
  - rewrite (buildGraph_lookup splitExample "A" "B" "ETH" H). vm_compute. reflexivity.
  - rewrite (buildGraph_lookup splitExample "B" "A" "ETH" H). vm_compute. reflexivity.
Defined.

(** ** [CalculateNetting] is a minimum *)

Lemma minStep_fold_attained g token ps acc :
  fold_left (minStep g token) ps acc = acc
  ∨ ∃ from to e, (from, to) ∈ ps
      ∧ findEdge (edgesOf g from) to token = Some e
      ∧ EdgeAmount e = fold_left (minStep g token) ps acc.
Proof.
  revert acc. induction ps as [|[from to] ps IH]; intros acc; simpl; [by left|].
  destruct (IH (minStep g token acc (from, to))) as [Heq|(f & t & e & Hin & Hf & He)].
  - rewrite Heq. unfold minStep. simpl.
    destruct (findEdge (edgesOf g from) to token) as [e|] eqn:Hf; [|by left].
    case_decide; [|by left]. right. exists from, to, e. split_and!; [left|done..].
  - right. exists f, t, e. split_and!; [by right|done..].
Qed.

(** X3.  [CalculateNetting] returns the least amount among the edges it
    finds, one per consecutive pair of the cycle that has an edge in the
    token: it is at most each of them, and it is the amount of one of
    them unless it is the initial [MaxUint64]. *)
Theorem CalculateNetting_minimum (g : Graph) (cycle : list string) (token : string) :
  CalculateNetting g cycle token ≤ MaxUint64
  ∧ (∀ from to e, (from, to) ∈ cyclePairs cycle →
       findEdge (edgesOf g from) to token = Some e →
       CalculateNetting g cycle token ≤ EdgeAmount e)
  ∧ (CalculateNetting g cycle token = MaxUint64
     ∨ ∃ from to e, (from, to) ∈ cyclePairs cycle
         ∧ findEdge (edgesOf g from) to token = Some e
         ∧ EdgeAmount e = CalculateNetting g cycle token).
Proof.
  split_and!.
  - rewrite CalculateNetting_fold. apply minStep_fold_le.
  - intros from to e. apply CalculateNetting_le.
  - rewrite CalculateNetting_fold. apply minStep_fold_attained.
Qed.

(** ** [ApplyNetting] changes amounts only *)

(** X4.  [ApplyNetting], on any graph, cycle, token and amount, adds no
    edge, removes none and moves none: every party has the same list of
    (destination, token) as before. *)
Theorem ApplyNetting_structure (g : Graph) (cycle : list string) (token : string)
    (amount : Z) (from : string) :
  edgeKey <$> edgesOf (ApplyNetting g cycle token amount) from
  = edgeKey <$> edgesOf g from.
Proof.
  rewrite ApplyNetting_applyPairs. generalize (cyclePairs cycle). intros ps.
  revert g. induction ps as [|[f t] ps IH]; intros g; [done|].
  rewrite applyPairs_cons, IH, edgesOf_alter by done.
  case_decide; [apply subEdge_keys|done].
Qed.

(** ** [FindCycles]: the cycles found are the cycles of the graph *)

(** Every party of [c] has an edge to the next one, and the last to the
    first. *)
Definition isCycle (g : Graph) (c : list string) : Prop :=
  ∀ u v, (u, v) ∈ cyclePairs c → edge g u v.

(** Every party of [l] has an edge to the next one. *)
Definition chain (g : Graph) (l : list string) : Prop :=
  ∀ i x y, l !! i = Some x → l !! S i = Some y → edge g x y.

Lemma cyclePairs_lookup_Some cycle i u v :
  cyclePairs cycle !! i = Some (u, v) ↔
  cycle !! i = Some u ∧ cycle !! ((i + 1) mod length cycle)%nat = Some v.
Proof.
  destruct (decide (i < length cycle)%nat) as [Hi|Hi].
  - rewrite cyclePairs_lookup by done.
    assert (Hm : ((i + 1) mod length cycle < length cycle)%nat)
      by (apply Nat.mod_upper_bound; lia).
    destruct (nth_lookup_or_length cycle i "") as [H1|]; [|lia].
    destruct (nth_lookup_or_length cycle ((i + 1) mod length cycle) "") as [H2|]; [|lia].
    rewrite H1, H2. split; [by intros [= -> ->]|by intros [[= ->] [= ->]]].
  - rewrite (lookup_ge_None_2 (cyclePairs cycle)) by (rewrite cyclePairs_length; lia).
    rewrite (lookup_ge_None_2 cycle i) by lia. split; [done|by intros [? _]].
Qed.

Lemma chain_snoc g l x :
  chain g l → (∀ prev, last l = Some prev → edge g prev x) → chain g (l ++ [x]).
Proof.
  intros Hl Hlast i a b Ha Hb.
  destruct (decide (S i < length l)%nat) as [Hlt|Hge].
  - rewrite lookup_app_l in Ha, Hb by lia. by eapply Hl.
  - assert (S i = length l) as Hi.
    { apply lookup_lt_Some in Hb. rewrite length_app in Hb. simpl in Hb. lia. }
    rewrite lookup_app_l in Ha by lia.
    rewrite lookup_app_r, Hi, Nat.sub_diag in Hb by lia. injection Hb as <-.
    apply Hlast. rewrite last_lookup. rewrite <- Hi. simpl. done.
Qed.

Lemma isCycle_chain g c :
  chain g c → (∀ x h, last c = Some x → head c = Some h → edge g x h) →
  isCycle g c.
Proof.
  intros Hch Hclose u v [i Hi]%list_elem_of_lookup.
  apply cyclePairs_lookup_Some in Hi as [Hu Hv].
  assert (i < length c)%nat as Hlt by (by eapply lookup_lt_Some).
  destruct (decide (i + 1 < length c)%nat) as [Hs|Hs].
  - rewrite Nat.mod_small in Hv by done. rewrite Nat.add_1_r in Hv. by eapply Hch.
  - assert (i + 1 = length c)%nat as Hi1 by lia.
    rewrite Hi1, Nat.Div0.mod_same in Hv. apply Hclose.
    + rewrite last_lookup. replace (pred (length c)) with i by lia. done.
    + by rewrite head_lookup.
Qed.

Lemma isCycle_next g c i x y :
  isCycle g c → c !! i = Some x → c !! S i = Some y → edge g x y.
Proof.
  intros Hc Hx Hy. apply Hc, list_elem_of_lookup. exists i.
  apply cyclePairs_lookup_Some. split; [done|].
  pose proof (lookup_lt_Some _ _ _ Hy) as Hlt. rewrite Nat.mod_small by lia.
  by rewrite Nat.add_1_r.
Qed.

Lemma isCycle_close g c x h :
  isCycle g c → last c = Some x → head c = Some h → edge g x h.
Proof.
  intros Hc Hx Hh. apply Hc, list_elem_of_lookup.
  assert (0 < length c)%nat as Hlen by (destruct c; simpl in *; [done|lia]).
  exists (pred (length c)). apply cyclePairs_lookup_Some.
  rewrite last_lookup in Hx. split; [done|].
  replace (pred (length c) + 1)%nat with (length c) by lia.
  rewrite Nat.Div0.mod_same. by rewrite <- head_lookup.
Qed.

Section find_cycles_full.
Variables (g : Graph) (maxLength : Z) (start : string).

(** The body of the loop over the edges of the current party. *)
Definition visitEdge (fuel : nat) (depth : Z) (s : search) (e : Edge)
    : result search :=
  if negb (isVisited s (To e)) || bool_decide (To e = start)
  then findCyclesRecursive fuel g maxLength (To e) start (depth + 1) s
  else Ok s.

Lemma findCyclesRecursive_S fuel current depth s :
  findCyclesRecursive (S fuel) g maxLength current start depth s
  = if decide (depth > maxLength) then Ok s
    else if decide (depth > 0 ∧ current = start) then
      Ok (mkSearch (cycles s ++ [path s]) (visited s) (path s))
    else
      s ← foldM (visitEdge fuel depth) (edgesOf g current)
             (mkSearch (cycles s) (<[current := true]> (visited s))
                       (path s ++ [current]));
      Ok (mkSearch (cycles s) (<[current := false]> (visited s))
                   (removelast (path s))).
Proof. done. Qed.

(** A cycle recorded from [start]. *)
Definition recorded (c : list string) : Prop :=
  foundFrom maxLength start c ∧ isCycle g c.

(** What a call adds to [cycles]: only cycles of the graph; the path
    itself when the call closes it; and every cycle within the bound
    that continues the path through [current]. *)
Definition explores (current : string) (depth : Z) (s : search)
    (new : list (list string)) : Prop :=
  Forall recorded new
  ∧ (depth > 0 → current = start → depth ≤ maxLength → new = [path s])
  ∧ ∀ rest, depth = 0 ∨ current ≠ start →
      NoDup (path s ++ current :: rest) →
      Z.of_nat (length (path s ++ current :: rest)) ≤ maxLength →
      isCycle g (path s ++ current :: rest) →
      path s ++ current :: rest ∈ new.

Lemma findCyclesRecursive_full fuel current depth s :
  (1 ≤ fuel)%nat → maxLength + 2 - depth ≤ Z.of_nat fuel →
  depth = Z.of_nat (length (path s)) →
  tracks s →
  (depth = 0 → current = start) →
  (depth > 0 → head (path s) = Some start ∧ (current = start ∨ current ∉ path s)) →
  chain g (path s) →
  (∀ prev, last (path s) = Some prev → edge g prev current) →
  ∃ s', findCyclesRecursive fuel g maxLength current start depth s = Ok s'
    ∧ path s' = path s
    ∧ (∀ x, isVisited s' x = isVisited s x)
    ∧ ∃ new, cycles s' = cycles s ++ new ∧ explores current depth s new.
Proof.
  revert current depth s.
  induction fuel as [|fuel IH];
    intros current depth s Hf1 Hf2 Hd [Hnd Hvis] H0 Hpos Hch Hlast; [lia|].
  rewrite findCyclesRecursive_S. case_decide as Hmax.
  { exists s. split_and!; try done. exists []. rewrite app_nil_r. split; [done|].
    split_and!; [done|lia|]. intros rest _ _ Hlen _. exfalso.
    rewrite length_app in Hlen. simpl in Hlen. lia. }
  case_decide as Hrec.
  { eexists. split_and!; try done. exists [path s]. split; [done|].
    destruct Hrec as [Hgt ->]. destruct (Hpos Hgt) as [Hhd _].
    split_and!; [|done|intros rest [?|?]; [lia|done]].
    apply Forall_singleton. split; [split_and!; [lia|done..]|].
    apply isCycle_chain; [done|]. intros x h Hx Hh.
    assert (h = start) as -> by congruence. by apply Hlast. }
  assert (current ∉ path s) as Hfresh.
  { destruct (decide (depth = 0)) as [Hz|Hz].
    - destruct (path s); [apply not_elem_of_nil|simpl in Hd; lia].
    - destruct Hpos as [_ [->|?]]; [lia| |done]. exfalso. apply Hrec. split; [lia|done]. }
  set (s1 := mkSearch (cycles s) (<[current:=true]> (visited s)) (path s ++ [current])).
  set (J := λ si : search,
    path si = path s ++ [current] ∧ ∀ x, isVisited si x = isVisited s1 x).
  assert (Htr1 : ∀ x, isVisited s1 x = true ↔ x ∈ path s ++ [current]).
  { intros x. unfold s1. rewrite (isVisited_insert _ _ _ s current true x) by done.
    rewrite elem_of_app, list_elem_of_singleton. case_decide; subst.
    - split; [by right|done].
    - rewrite Hvis. split; [by left|]. by intros [?|?]. }
  assert (Hhead : head (path s ++ [current]) = Some start).
  { destruct (path s) eqn:Hps; simpl.
    - f_equal. apply H0. rewrite Hd. done.
    - apply Hpos. rewrite Hd. simpl. lia. }
  assert (Hstep : ∀ e si, e ∈ edgesOf g current → J si →
    ∃ s', visitEdge fuel depth si e = Ok s' ∧ J s'
      ∧ ∃ add, cycles s' = cycles si ++ add ∧ explores (To e) (depth + 1) si add).
  { intros e si He [Hpi Hvi]. unfold visitEdge.
    destruct (negb (isVisited si (To e)) || bool_decide (To e = start)) eqn:Hcond.
    - destruct (IH (To e) (depth + 1) si) as (s' & -> & Hp' & Hv' & add & Hc' & Hadd).
      + lia.
      + lia.
      + rewrite Hpi, length_app. simpl. lia.
      + split; rewrite Hpi.
        * apply NoDup_app. split_and!; [done| |apply NoDup_singleton].
          intros x Hx ->%list_elem_of_singleton. done.
        * intros x. by rewrite Hvi.
      + lia.
      + intros _. rewrite Hpi. split; [done|].
        apply orb_true_iff in Hcond as [Hnv|Heq].
        * right. rewrite <- Htr1, <- Hvi. by destruct (isVisited si (To e)).
        * left. by apply bool_decide_eq_true in Heq.
      + rewrite Hpi. by apply chain_snoc.
      + rewrite Hpi, last_snoc. intros prev [= <-]. by exists e.
      + exists s'. split; [done|]. split.
        * split; [by rewrite Hp'|]. intros x. by rewrite Hv'.
        * by exists add.
    - exists si. split; [done|]. split; [done|]. exists []. rewrite app_nil_r.
      split; [done|]. apply orb_false_iff in Hcond as [Hv Hne].
      apply negb_false_iff in Hv. apply bool_decide_eq_false in Hne.
      split_and!; [done|done|].
      intros rest _ Hndr _ _. exfalso. rewrite Hpi in Hndr.
      apply NoDup_app in Hndr as (_ & Hdis & _).
      apply (Hdis (To e)); [|left]. rewrite <- Htr1, <- Hvi. done. }
  assert (Hloop : ∀ l si, (∀ e, e ∈ l → e ∈ edgesOf g current) → J si →
    ∃ s2, foldM (visitEdge fuel depth) l si = Ok s2 ∧ J s2
      ∧ ∃ add, cycles s2 = cycles si ++ add ∧ Forall recorded add).
  { induction l as [|e l IHl]; intros si Hl HJ.
    - exists si. split; [done|]. split; [done|]. exists []. by rewrite app_nil_r.
    - destruct (Hstep e si) as (s' & Hs' & HJ' & add & Hadd & Hex & _);
        [apply Hl; left|done|].
      destruct (IHl s') as (s2 & Hs2 & HJ2 & add2 & Hadd2 & Hrec2);
        [intros; apply Hl; by right|done|].
      exists s2. simpl. rewrite Hs'. split; [done|]. split; [done|].
      exists (add ++ add2). rewrite Hadd2, Hadd, app_assoc. split; [done|].
      by apply Forall_app. }
  destruct (Hloop (edgesOf g current) s1) as (s2 & Hs2 & [Hp2 Hv2] & new & Hc2 & Hnew);
    [done|by split|].
  rewrite Hs2. simpl. eexists. split; [done|]. simpl. split_and!.
  - by rewrite Hp2, removelast_last.
  - intros x. rewrite (isVisited_insert _ _ _ s2 current false x) by done.
    case_decide; subst.
    + destruct (isVisited s x) eqn:Hx; [|done]. by apply Hvis in Hx.
    + rewrite Hv2. unfold s1. rewrite (isVisited_insert _ _ _ s current true x) by done.
      by rewrite decide_False.
  - exists new. split; [done|]. split_and!; [done| |].
    { intros Hgt ->. exfalso. apply Hrec. split; [lia|done]. }
    intros rest _ Hndr Hlen Hcyc.
    set (c := path s ++ current :: rest) in *.
    assert (Hc0 : head c = Some start).
    { unfold c. destruct (path s) eqn:Hps; simpl.
      - f_equal. apply H0. rewrite Hd. done.
      - apply Hpos. rewrite Hd. simpl. lia. }
    assert (Hci : c !! length (path s) = Some current).
    { unfold c. by rewrite lookup_app_r, Nat.sub_diag by lia. }
    assert (Hcs : c = (path s ++ [current]) ++ rest).
    { unfold c. by rewrite <- app_assoc. }
    assert (∃ e, e ∈ edgesOf g current
              ∧ To e = match rest with [] => start | y :: _ => y end) as (e & He & Hto).
    { destruct rest as [|y rest'].
      - assert (edge g current start) as (e & ? & ?); [|by exists e].
        eapply isCycle_close; [done| |done]. unfold c. by rewrite last_snoc.
      - assert (edge g current y) as (e & ? & ?); [|by exists e].
        eapply isCycle_next; [done..|]. unfold c.
        by rewrite lookup_app_r, Nat.sub_succ_l, Nat.sub_diag by lia. }
    apply list_elem_of_split in He as (l1 & l2 & Hsplit).
    assert (Hin : ∀ e', e' ∈ l1 ++ e :: l2 → e' ∈ edgesOf g current)
      by (by rewrite Hsplit).
    rewrite Hsplit, foldM_app in Hs2.
    destruct (Hloop l1 s1) as (sa & Hsa & HJa & add1 & Hadd1 & _);
      [intros; apply Hin, elem_of_app; by left|by split|].
    rewrite Hsa in Hs2. simpl in Hs2.
    destruct (Hstep e sa) as (sb & Hsb & HJb & adde & Hadde & _ & Hclose & Hcont);
      [apply Hin, elem_of_app; right; left|done|].
    rewrite Hsb in Hs2. simpl in Hs2.
    destruct (Hloop l2 sb) as (sc & Hsc & _ & add2 & Hadd2 & _);
      [intros; apply Hin, elem_of_app; right; by right|done|].
    rewrite Hsc in Hs2. injection Hs2 as <-.
    assert (new = add1 ++ adde ++ add2) as ->.
    { apply (app_inv_head (cycles s1)). rewrite <- Hc2, Hadd2, Hadde, Hadd1.
      by rewrite <- !app_assoc. }
    apply elem_of_app. right. apply elem_of_app. left.
    destruct HJa as [Hpa _]. destruct rest as [|y rest'].
    + rewrite Hclose; [rewrite Hpa, Hcs, app_nil_r; left|lia|done|].
      rewrite Hcs, app_nil_r, length_app in Hlen. simpl in Hlen. lia.
    + rewrite <- Hto in *. rewrite Hcs, <- Hpa.
      rewrite Hcs, <- Hpa in Hndr, Hlen, Hcyc. apply Hcont; [|done..].
      right. intros Heq. rewrite Hpa in Hndr.
      apply NoDup_app in Hndr as (_ & Hdis & _).
      apply (Hdis start); [|rewrite Heq; left].
      apply head_Some_elem_of. done.
Qed.
End find_cycles_full.

Lemma foldM_cons {A B : Type} (f : A → B → result A) b l a :
  foldM f (b :: l) a = (a' ← f a b; foldM f l a').
Proof. done. Qed.

(** [isCycle] can be decided by looking the edges up. *)
Definition hasEdges (g : Graph) (c : list string) : Prop :=
  Forall (λ p, Exists (λ e, To e = p.2) (edgesOf g p.1)) (cyclePairs c).

Lemma isCycle_hasEdges g c : isCycle g c ↔ hasEdges g c.
Proof.
  unfold isCycle, hasEdges. rewrite Forall_forall. split.
  - intros H [u v] Hp. apply Exists_exists. by apply H.
  - intros H u v Hp. apply H, Exists_exists in Hp. done.
Qed.

Global Instance isCycle_dec g c : Decision (isCycle g c).
Proof.
  refine (cast_if (decide (hasEdges g c))); by rewrite isCycle_hasEdges.
Defined.

Lemma FindCycles_full g scc maxLength :
  ∃ cs, FindCycles g scc maxLength = Ok cs
    ∧ Forall (λ c, foundIn scc maxLength c ∧ isCycle g c) cs
    ∧ ∀ v c, v ∈ scc → head c = Some v → NoDup c →
        Z.of_nat (length c) ≤ maxLength → isCycle g c → c ∈ cs.
Proof.
  unfold FindCycles.
  set (K := λ s : search, path s = [] ∧ ∀ x, isVisited s x = false).
  set (good := λ c, foundIn scc maxLength c ∧ isCycle g c).
  assert (Hloop : ∀ l si, (∀ v, v ∈ l → v ∈ scc) → K si →
    ∃ s2, foldM (λ s v, findCyclesRecursive (cycleFuel maxLength) g maxLength v v 0 s)
            l si = Ok s2
      ∧ K s2
      ∧ ∃ add, cycles s2 = cycles si ++ add ∧ Forall good add
          ∧ ∀ v c, v ∈ l → head c = Some v → NoDup c →
              Z.of_nat (length c) ≤ maxLength → isCycle g c → c ∈ add).
  { induction l as [|v l IHl]; intros si Hl [Hp Hvis].
    - exists si. split; [done|]. split; [done|]. exists []. rewrite app_nil_r.
      split_and!; [done..|]. by intros v c Hv%elem_of_nil.
    - destruct (findCyclesRecursive_full g maxLength v (cycleFuel maxLength) v 0 si)
        as (s' & Hs' & Hp' & Hv' & new & Hc' & Hrec & _ & Hall).
      + unfold cycleFuel. lia.
      + unfold cycleFuel. lia.
      + by rewrite Hp.
      + split; rewrite Hp; [constructor|]. intros x. rewrite Hvis.
        split; [done|]. intros []%elem_of_nil.
      + done.
      + lia.
      + rewrite Hp. by intros i x y Hx.
      + rewrite Hp. by intros prev Hprev.
      + destruct (IHl s') as (s2 & Hs2 & HK2 & add & Hadd & Hgood & Hcomp).
        { intros; apply Hl; by right. }
        { split; [by rewrite Hp'|]. intros x. by rewrite Hv'. }
        exists s2. rewrite foldM_cons, Hs'. split; [done|]. split; [done|].
        exists (new ++ add). rewrite Hadd, Hc', app_assoc. split_and!; [done| |].
        * apply Forall_app. split; [|done]. eapply Forall_impl; [exact Hrec|].
          intros c [Hf Hc]. split; [|done]. exists v. split; [apply Hl; left|done].
        * intros v' c Hv'in Hhd Hnd Hlen Hcyc. apply elem_of_app.
          apply elem_of_cons in Hv'in as [->|Hv'in].
          -- left. destruct c as [|x rest]; [done|]. injection Hhd as ->.
             rewrite Hp in Hall. apply (Hall rest); [by left|done..].
          -- right. by eapply Hcomp. }
  destruct (Hloop scc search0) as (s2 & -> & _ & add & Hadd & Hgood & Hcomp).
  - done.
  - split; [done|]. intros x. unfold isVisited. simpl. by rewrite lookup_empty.
  - simpl. exists (cycles s2). split; [done|]. rewrite Hadd. simpl. done.
Qed.

(** X5.  Every cycle that [FindCycles] returns is a cycle of the graph:
    its parties are pairwise distinct, the first is a member of the
    given component, and each party has an edge to the next one, the last
    to the first. *)
Theorem FindCycles_sound (g : Graph) (scc : list string) (maxLength : Z) :
  ∃ cs, FindCycles g scc maxLength = Ok cs
    ∧ Forall (λ c, NoDup c ∧ (∃ v, v ∈ scc ∧ head c = Some v) ∧ isCycle g c) cs.
Proof.
  destruct (FindCycles_full g scc maxLength) as (cs & Hcs & Hgood & _).
  exists cs. split; [done|]. eapply Forall_impl; [exact Hgood|].
  intros c [(v & Hv & _ & Hnd & Hhd) Hc]. split_and!; [done| |done]. by exists v.
Qed.

(** X6.  [FindCycles] misses no cycle within the bound: every list of
    at most [maxLength] pairwise distinct parties that begins at a member
    of the given component, each with an edge to the next and the last to
    the first, is among the cycles returned. *)
Theorem FindCycles_complete (g : Graph) (scc : list string) (maxLength : Z)
    (v : string) (c : list string) :
  v ∈ scc → head c = Some v → NoDup c →
  Z.of_nat (length c) ≤ maxLength → isCycle g c →
  ∃ cs, FindCycles g scc maxLength = Ok cs ∧ c ∈ cs.
Proof.
  intros Hv Hhd Hnd Hlen Hc.
  destruct (FindCycles_full g scc maxLength) as (cs & Hcs & _ & Hall).
  exists cs. split; [done|]. by eapply Hall.
Qed.

Lemma FindCycles_complete_witness :
  ∃ cs, FindCycles ringGraph ["A"; "C"] 5 = Ok cs
        ∧ ["C"; "D"; "E"; "A"; "B"] ∈ cs.
Proof.
  apply (FindCycles_complete ringGraph ["A"; "C"] 5 "C").
  - right. left.
  - reflexivity.
  - refine (bool_decide_unpack (NoDup ["C"; "D"; "E"; "A"; "B"]) _).
    vm_compute. exact I.
  - simpl. lia.
  - refine (bool_decide_unpack (isCycle ringGraph ["C"; "D"; "E"; "A"; "B"]) _).
    vm_compute. exact I.
Defined.

(** ** [FindSCCs] reports every component of two parties or more *)

Lemma foldM_ok_prefix {A B : Type} (I : list B → A → Prop)
    (f : A → B → result A) l a a' :
  I [] a →
  (∀ pre b suf x x', l = pre ++ b :: suf → I pre x → f x b = Ok x' →
     I (pre ++ [b]) x') →
  foldM f l a = Ok a' → I l a'.
Proof.
  intros H0 Hstep.
  assert (H : ∀ suf pre x, l = pre ++ suf → I pre x → foldM f suf x = Ok a' → I l a').
  { induction suf as [|b suf IH]; intros pre x Hl Hx Hf.
    - rewrite app_nil_r in Hl. subst pre. simpl in Hf. by injection Hf as <-.
    - rewrite foldM_cons in Hf. destruct (f x b) as [x'| |] eqn:Hfx; [|done..].
      simpl in Hf. apply (IH (pre ++ [b]) x'); [by rewrite <- app_assoc| |done].
      by eapply Hstep. }
  intros Hf. by apply (H l [] a).
Qed.

Section tarjan_complete.
Variable g : Graph.

(** A party that has been numbered and is no longer on the stack. *)
Definition popped (s : tarjan) (x : string) : Prop :=
  is_Some (indices s !! x) ∧ x ∉ stack s.

(** The edges of a popped party lead to popped parties. *)
Definition closed (s : tarjan) : Prop :=
  ∀ u w, popped s u → edge g u w → popped s w.

(** A popped party has its whole component reported, or is alone in it. *)
Definition settled (s : tarjan) : Prop :=
  ∀ x, popped s x →
    (∃ scc, scc ∈ sccs s ∧ x ∈ scc ∧ ∀ y, reach g x y → reach g y x → y ∈ scc)
    ∨ (∀ y, reach g x y → reach g y x → y = x).

(** The edges of the parties pushed by a call of [strongConnect v] that
    are still on the stack lead to numbered parties, and to no party of
    the old stack with an index below the lowlink of [v]. *)
Definition bounded (v : string) (s s' : tarjan) : Prop :=
  ∀ u w, u ∈ stack s' → u ∉ stack s → edge g u w →
    is_Some (indices s' !! w)
    ∧ (w ∈ stack s → lowlinkOf s' v ≤ indexOf s' w).

(** The same in the loop over the edges of [v], [seen] being the edges
    already visited. *)
Definition scanning (v : string) (s si : tarjan) (seen : list Edge) : Prop :=
  (∀ e, e ∈ seen →
     is_Some (indices si !! To e)
     ∧ (To e ∈ v :: stack s → lowlinkOf si v ≤ indexOf si (To e)))
  ∧ ∀ u w, u ∈ stack si → u ∉ v :: stack s → edge g u w →
      is_Some (indices si !! w)
      ∧ (w ∈ v :: stack s → lowlinkOf si v ≤ indexOf si w).

Lemma closed_reach s x y : closed s → popped s x → reach g x y → popped s y.
Proof. intros Hc Hx Hr. induction Hr as [|x z y Hxz _ IH]; [done|]. eauto. Qed.

Lemma visiting_stack v s si : visiting g v s si → ∀ x, x ∈ v :: stack s → x ∈ stack si.
Proof.
  intros (_ & _ & _ & _ & (new & -> & _) & _) x Hx. apply elem_of_app. by right.
Qed.

Lemma visiting_fuel v s si fuel :
  visiting g v s si → v ∈ vertices g → indices s !! v = None →
  (size (vertices g ∖ dom (indices s)) ≤ S fuel)%nat →
  (size (vertices g ∖ dom (indices si)) ≤ fuel)%nat.
Proof.
  intros (_ & [_ Hext] & Hiv & _) Hv Hnew Hfuel.
  apply (fuel_step g (dom (indices s)) _ v); [done|by apply not_elem_of_dom| |
    by apply elem_of_dom|done].
  intros x Hx%elem_of_dom. apply elem_of_dom. destruct (Hext x Hx) as [-> _]. done.
Qed.

Lemma visiting_step_stack v s si w iw :
  indices s !! v = None → visiting g v s si → edge g v w →
  indices si !! w = Some iw → isOnStack si w = true →
  visiting g v s (setLowlink si v (minInt (lowlinkOf si v) iw)).
Proof.
  intros Hnew Hvis Hedge Hw Hon. pose proof Hvis as (Hinv_i & _).
  apply visiting_setLowlink; [done..| |].
  - unfold minInt. lia.
  - intros Hlt. exists w. split_and!.
    + by apply (ti_on g si Hinv_i).
    + unfold indexOf, minInt in *. rewrite Hw. simpl. lia.
    + by apply rtc_once.
Qed.

Lemma visiting_step_call v s si w s' :
  indices s !! v = None → visiting g v s si → edge g v w →
  connected g w si s' →
  visiting g v s (setLowlink s' v (minInt (lowlinkOf s' v) (lowlinkOf s' w))).
Proof.
  intros Hnew Hvis Hedge (Hinv' & Hext' & Hiw' & new & Hst' & Hlow' & Hwn).
  pose proof Hvis as (Hinv_i & Hext & Hiv & Hidx & (newi & Hst & Hlow) & Hr).
  assert (Hvs : is_Some (indices si !! v)) by (by rewrite Hiv).
  destruct (extends_indexOf si s' v Hext' Hvs) as [Hv1 Hv2].
  assert (Hidv : indexOf si v = index s) by (unfold indexOf; by rewrite Hiv).
  assert (Hvis' : visiting g v s s').
  { split_and!.
    - done.
    - by eapply extends_trans.
    - destruct Hext' as [_ Hext']. destruct (Hext' v Hvs) as [-> _]. done.
    - destruct Hext'. lia.
    - exists (new ++ newi). split; [by rewrite Hst', Hst, app_assoc|].
      intros x [Hx|Hx]%elem_of_app; [by apply Hlow'|].
      assert (is_Some (indices si !! x)) as Hxs.
      { apply (ti_stack g si Hinv_i). rewrite Hst. apply elem_of_app. by left. }
      destruct (extends_indexOf si s' x Hext' Hxs) as [-> ->]. by apply Hlow.
    - intros y. rewrite Hst'. intros [Hy|Hy]%elem_of_app; [|by apply Hr].
      by apply (reach_down g s' v [] new (stack si)). }
  apply visiting_setLowlink; [done..| |].
  - unfold minInt. lia.
  - intros Hlt. unfold minInt in *. destruct Hwn as [Hwn|Hwn].
    + assert (Hwin : w ∈ stack s').
      { rewrite Hst'. apply elem_of_app. by left. }
      destruct (ti_low g s' Hinv' w Hwin) as [_ (z & Hz & Hzi & Hzr)].
      exists z. split_and!; [done|lia|].
      eapply rtc_l; [exact Hedge|done].
    + exfalso.
      assert (Hvin' : v ∈ stack s').
      { rewrite Hst'. apply elem_of_app. right. rewrite Hst.
        apply elem_of_app. right. left. }
      destruct (ti_low g s' Hinv' v Hvin') as [Hle _]. lia.
Qed.

(** The two ways in which [finish] ends. *)
Lemma finish_cases v s s2 s' :
  visiting g v s s2 → finish v s2 = Ok s' →
  (lowlinkOf s2 v ≠ indexOf s2 v ∧ s' = s2)
  ∨ (lowlinkOf s2 v = indexOf s2 v
     ∧ ∃ new2, stack s2 = new2 ++ v :: stack s
         ∧ s' = mkTarjan (index s2) (stack s)
                  (markOff (onStack s2) (new2 ++ [v])) (indices s2) (lowlink s2)
                  (if decide (1 < length (new2 ++ [v]))%nat
                   then sccs s2 ++ [new2 ++ [v]] else sccs s2)).
Proof.
  intros (Hinv2 & _ & _ & _ & (new2 & Hst2 & _) & _). unfold finish.
  case_decide as Hroot; [|intros [= <-]; by left].
  pose proof (ti_nodup g s2 Hinv2) as Hnd. rewrite Hst2 in Hnd.
  apply NoDup_app in Hnd as (_ & Hnd2 & _).
  rewrite Hst2, popSCC_spec by (intros Hin; apply (Hnd2 v Hin); by left).
  simpl. intros [= <-]. right. split; [done|]. by exists new2.
Qed.
(** No party is in two reported components, and their parties are popped. *)
Definition apart (s : tarjan) : Prop :=
  (∀ scc x, scc ∈ sccs s → x ∈ scc → popped s x)
  ∧ ∀ i j a b x, sccs s !! i = Some a → sccs s !! j = Some b →
      x ∈ a → x ∈ b → i = j.

Definition whole (s : tarjan) : Prop := closed s ∧ settled s ∧ apart s.

(** The parties that a call pushes had no index before. *)
Definition pushed (s s' : tarjan) : Prop :=
  ∀ u, u ∈ stack s' → u ∉ stack s → indices s !! u = None.

Lemma whole_setLowlink s v m : whole s → whole (setLowlink s v m).
Proof. done. Qed.

Lemma popped_enter s v x :
  indices s !! v = None → popped (enter v s) x ↔ popped s x.
Proof.
  intros Hnew. unfold popped. simpl. rewrite not_elem_of_cons, lookup_insert.
  case_decide; subst.
  - split; [by intros [_ [? _]]|]. rewrite Hnew. by intros [[] _].
  - split; [by intros [? [_ ?]]|]. intros [? ?]. split_and!; [done| |done].
    intros ->. done.
Qed.

Lemma whole_enter s v : indices s !! v = None → whole s → whole (enter v s).
Proof.
  intros Hnew (Hc & Hs & Ha1 & Ha2). split_and!.
  - intros u w Hu He. apply popped_enter; [done|].
    apply popped_enter in Hu; [|done]. by eapply Hc.
  - intros x Hx. apply popped_enter in Hx; [|done]. by apply Hs.
  - split; [|done].
    intros scc x Hscc Hx. apply popped_enter; [done|]. by eapply Ha1.
Qed.

Lemma scanning_lower v s x seen m :
  scanning v s x seen → m ≤ lowlinkOf x v → scanning v s (setLowlink x v m) seen.
Proof.
  intros [Hev Hen] Hm. split.
  - intros e He. destruct (Hev e He) as [? Hb]. split; [done|].
    intros Hin. rewrite lowlinkOf_setLowlink, decide_True by done.
    specialize (Hb Hin). unfold indexOf in *. simpl. lia.
  - intros u w Hu Hnu Hedge. destruct (Hen u w Hu Hnu Hedge) as [? Hb].
    split; [done|]. intros Hin. rewrite lowlinkOf_setLowlink, decide_True by done.
    specialize (Hb Hin). unfold indexOf in *. simpl. lia.
Qed.

Lemma scanning_snoc v s x seen e :
  scanning v s x seen →
  is_Some (indices x !! To e) →
  (To e ∈ v :: stack s → lowlinkOf x v ≤ indexOf x (To e)) →
  scanning v s x (seen ++ [e]).
Proof.
  intros [Hev Hen] H1 H2. split; [|done].
  intros e0 [He0| ->%list_elem_of_singleton]%elem_of_app; [by apply Hev|done].
Qed.

Lemma strongConnect_complete fuel v s s' :
  tarjan_inv g s → v ∈ vertices g → indices s !! v = None →
  (size (vertices g ∖ dom (indices s)) ≤ fuel)%nat →
  (∀ y, y ∈ stack s → reach g y v) →
  whole s →
  strongConnect fuel g v s = Ok s' →
  whole s' ∧ bounded v s s' ∧ pushed s s'.
Proof.
  revert v s s'. induction fuel as [|fuel IH];
    intros v s s' Hinv Hv Hnew Hfuel Hreach Hwhole Hrun; [done|].
  rewrite strongConnect_S in Hrun.
  match type of Hrun with
  | context [foldM ?f ?l ?a] => destruct (foldM f l a) as [s2| |] eqn:Hloop; [|done..]
  end.
  simpl in Hrun.
  set (I := λ (seen : list Edge) (x : tarjan),
    visiting g v s x ∧ whole x ∧ scanning v s x seen
    ∧ ∀ u, u ∈ stack x → u ∉ v :: stack s → indices s !! u = None).
  apply (foldM_ok_prefix I) in Hloop.
  - destruct Hloop as (Hvis & (Hc2 & Hs2 & Ha2 & Ha2') & [Hev Hen] & Hfresh).
    pose proof Hvis as (Hinv2 & Hext2 & Hiv2 & _ & _ & Hr2).
    destruct (finish_cases v s s2 s' Hvis Hrun) as [[Hne ->]|(Hroot & new2 & Hst2 & ->)].
    + split; [done|]. split.
      * intros u w Hu Hnu Hedge. destruct (decide (u = v)) as [->|Hneq].
        -- destruct Hedge as (e & He & <-). destruct (Hev e He) as [? Hb].
           split; [done|]. intros Hw. apply Hb. by right.
        -- destruct (Hen u w) as [? Hb]; [done| |done|].
           { by intros [?|?]%elem_of_cons. }
           split; [done|]. intros Hw. apply Hb. by right.
      * intros u Hu Hnu. destruct (decide (u = v)) as [->|Hneq]; [done|].
        apply Hfresh; [done|]. by intros [?|?]%elem_of_cons.
    + pose proof (ti_nodup g s2 Hinv2) as Hnd. rewrite Hst2 in Hnd.
      apply NoDup_app in Hnd as (Hnd1 & Hnd2 & Hnd3).
      apply NoDup_cons in Hnd3 as [Hvold _].
      assert (Hin2 : ∀ x, x ∈ stack s2 ↔ x ∈ new2 ++ [v] ∨ x ∈ stack s).
      { intros x. rewrite Hst2, !elem_of_app, elem_of_cons, list_elem_of_singleton.
        tauto. }
      assert (Hdis : ∀ x, x ∈ new2 ++ [v] → x ∉ stack s).
      { intros x [Hx| ->%list_elem_of_singleton]%elem_of_app; [|done].
        intros Hs. apply (Hnd2 x Hx). by right. }
      assert (Hold : ∀ x, is_Some (indices s2 !! x) → x ∉ stack s → x ∉ stack s2 →
                          popped s2 x) by (by intros; split).
      set (s3 := mkTarjan _ _ _ _ _ _).
      assert (Hclosed3 : closed s3).
      { intros u w [Hu Hnu] Hedge. simpl in Hu, Hnu.
        destruct (decide (u ∈ stack s2)) as [Hus|Hus].
        - assert (is_Some (indices s2 !! w)
                  ∧ (w ∈ v :: stack s → lowlinkOf s2 v ≤ indexOf s2 w)) as [Hw Hb].
          { destruct (decide (u = v)) as [->|Hneq].
            - destruct Hedge as (e & He & <-). by apply Hev.
            - apply (Hen u w); [done| |done]. by intros [?|?]%elem_of_cons. }
          split; [done|]. simpl. intros Hws.
          destruct (ti_below g s2 Hinv2 new2 v (stack s) Hst2 w Hws) as [Hlt _].
          specialize (Hb (list_elem_of_further _ _ _ Hws)). lia.
        - destruct (Hc2 u w (Hold u Hu Hnu Hus) Hedge) as [Hw Hws].
          split; [done|]. simpl. intros Hin. apply Hws, Hin2. by right. }
      assert (Hclass : ∀ x y, x ∈ new2 ++ [v] → reach g x y → reach g y x →
                              y ∈ new2 ++ [v]).
      { intros x y Hx Hxy Hyx.
        assert (popped s3 x) as Hpx.
        { split; simpl; [|by apply Hdis].
          apply (ti_stack g s2 Hinv2), Hin2. by left. }
        destruct (closed_reach s3 x y Hclosed3 Hpx Hxy) as [Hy Hny]. simpl in Hy, Hny.
        destruct (decide (y ∈ stack s2)) as [Hys|Hys].
        - apply Hin2 in Hys as [?|?]; done.
        - exfalso.
          destruct (closed_reach s2 y x Hc2 (Hold y Hy Hny Hys) Hyx) as [_ Hnx].
          apply Hnx, Hin2. by left. }
      split; [split_and!|split].
      * done.
      * intros x [Hx Hnx]. simpl in Hx, Hnx.
        destruct (decide (x ∈ stack s2)) as [Hxs|Hxs].
        -- apply Hin2 in Hxs as [Hxs|?]; [|done]. simpl. case_decide as Hlen.
           ++ left. exists (new2 ++ [v]).
              split_and!; [|done|intros y; by apply Hclass].
              apply elem_of_app. right. left.
           ++ right. intros y Hxy Hyx. pose proof (Hclass x y Hxs Hxy Hyx) as Hy.
              destruct new2 as [|n0 new2]; [|rewrite length_app in Hlen; simpl in Hlen; lia].
              apply list_elem_of_singleton in Hxs, Hy. congruence.
        -- destruct (Hs2 x (Hold x Hx Hnx Hxs)) as [(scc & Hscc & ?)|?]; [left|by right].
           exists scc. split; [|done]. simpl. case_decide; [|done].
           apply elem_of_app. by left.
      * split; [intros scc x Hscc Hx; simpl in Hscc; split; simpl|].
        -- case_decide; [apply elem_of_app in Hscc as [Hscc|Hscc%list_elem_of_singleton]|].
           ++ by apply (Ha2 scc x).
           ++ subst scc. apply (ti_stack g s2 Hinv2), Hin2. by left.
           ++ by apply (Ha2 scc x).
        -- case_decide; [apply elem_of_app in Hscc as [Hscc|Hscc%list_elem_of_singleton]|].
           ++ intros Hin. apply (Ha2 scc x Hscc Hx), Hin2. by right.
           ++ subst scc. by apply Hdis.
           ++ intros Hin. apply (Ha2 scc x Hscc Hx), Hin2. by right.
        -- simpl. case_decide; [|done]. intros i j a b x Hi Hj Hxa Hxb.
           assert (Hnew_old : ∀ k c, sccs s2 !! k = Some c → x ∈ c →
                                     x ∈ new2 ++ [v] → False).
           { intros k c Hk Hxc Hxn.
             apply (Ha2 c x); [by eapply list_elem_of_lookup_2|done|].
             apply Hin2. by left. }
           destruct (decide (i < length (sccs s2))%nat) as [Hil|Hil];
             destruct (decide (j < length (sccs s2))%nat) as [Hjl|Hjl].
           ++ rewrite lookup_app_l in Hi, Hj by done. by eapply Ha2'.
           ++ rewrite lookup_app_l in Hi by done. rewrite lookup_app_r in Hj by lia.
              apply list_lookup_singleton_Some in Hj as [_ <-]. exfalso.
              by eapply Hnew_old.
           ++ rewrite lookup_app_l in Hj by done. rewrite lookup_app_r in Hi by lia.
              apply list_lookup_singleton_Some in Hi as [_ <-]. exfalso.
              by eapply Hnew_old.
           ++ rewrite lookup_app_r in Hi, Hj by lia.
              apply list_lookup_singleton_Some in Hi as [Hi _].
              apply list_lookup_singleton_Some in Hj as [Hj _]. lia.
      * intros u w Hu Hnu. done.
      * intros u Hu Hnu. done.
  - split_and!.
    + by apply visiting_enter.
    + by apply whole_enter.
    + split; [by intros e He%elem_of_nil|]. intros u w Hu Hnu. done.
    + intros u Hu Hnu. done.
  - intros seen e suf x x' Hl (Hvis & Hwx & Hscan & Hfresh) Hbody.
    pose proof Hvis as (Hinv_x & Hext & Hiv & Hidx & _ & Hr).
    assert (Hedge : edge g v (To e)).
    { exists e. split; [|done]. rewrite Hl. apply elem_of_app. right. left. }
    simpl in Hbody. destruct (indices x !! To e) as [iw|] eqn:Hw.
    + destruct (isOnStack x (To e)) eqn:Hon.
      * injection Hbody as <-. split_and!.
        -- by eapply visiting_step_stack.
        -- done.
        -- apply scanning_snoc.
           ++ apply scanning_lower; [done|unfold minInt; lia].
           ++ simpl. by rewrite Hw.
           ++ intros _. rewrite lowlinkOf_setLowlink, decide_True by done.
              unfold indexOf, minInt. simpl. rewrite Hw. simpl. lia.
        -- done.
      * injection Hbody as <-. split_and!; [done..| |done].
        apply scanning_snoc; [done|by rewrite Hw|].
        intros Hin. apply (visiting_stack v s x Hvis) in Hin.
        apply (ti_on g x Hinv_x) in Hin. congruence.
    + destruct (strongConnect fuel g (To e) x) as [sw| |] eqn:Hcall; [|done..].
      simpl in Hbody. injection Hbody as <-.
      assert (Hpre_fuel : (size (vertices g ∖ dom (indices x)) ≤ fuel)%nat)
        by (by eapply visiting_fuel).
      assert (Hpre_reach : ∀ y, y ∈ stack x → reach g y (To e)).
      { intros y Hy. eapply rtc_r; [by apply Hr|done]. }
      assert (Hpre_v : To e ∈ vertices g) by (by apply (edge_vertices g v)).
      destruct (strongConnect_spec g fuel (To e) x Hinv_x Hpre_v Hw Hpre_fuel Hpre_reach)
        as (sw' & Hsw' & Hconn).
      rewrite Hcall in Hsw'. injection Hsw' as <-.
      destruct (IH (To e) x sw Hinv_x Hpre_v Hw Hpre_fuel Hpre_reach Hwx Hcall)
        as (Hwsw & Hbound & Hpushed).
      pose proof Hconn as (Hinv_sw & Hext_sw & Hiw & new & Hst_sw & _).
      assert (Hkeep : ∀ z, is_Some (indices x !! z) →
                is_Some (indices sw !! z) ∧ indexOf sw z = indexOf x z
                ∧ lowlinkOf sw z = lowlinkOf x z).
      { intros z Hz. destruct (extends_indexOf x sw z Hext_sw Hz) as [? ?].
        destruct Hext_sw as [_ He]. destruct (He z Hz) as [-> _]. done. }
      assert (Hvx : is_Some (indices x !! v)) by (by rewrite Hiv).
      destruct (Hkeep v Hvx) as (_ & _ & Hlv).
      split_and!.
      * by eapply visiting_step_call.
      * done.
      * destruct Hscan as [Hev Hen]. split.
        -- intros e0 [He0| ->%list_elem_of_singleton]%elem_of_app.
           ++ destruct (Hev e0 He0) as [Hs0 Hb0]. destruct (Hkeep _ Hs0) as (? & Hi0 & _).
              split; [done|]. intros Hin. specialize (Hb0 Hin).
              rewrite lowlinkOf_setLowlink, decide_True by done.
              change (indexOf (setLowlink sw v _) (To e0)) with (indexOf sw (To e0)).
              unfold minInt. lia.
           ++ split; [simpl; by rewrite Hiw|]. intros Hin.
              apply (visiting_stack v s x Hvis), (ti_stack g x Hinv_x) in Hin.
              rewrite Hw in Hin. by destruct Hin.
        -- intros u z Hu Hnu Huz.
           change (indexOf (setLowlink sw v (minInt (lowlinkOf sw v) (lowlinkOf sw (To e)))) z)
             with (indexOf sw z).
           rewrite lowlinkOf_setLowlink, decide_True by done.
           destruct (decide (u ∈ stack x)) as [Hux|Hux].
           ++ destruct (Hen u z Hux Hnu Huz) as [Hs0 Hb0].
              destruct (Hkeep _ Hs0) as (? & Hi0 & _). split; [done|].
              intros Hin. specialize (Hb0 Hin). unfold minInt. lia.
           ++ destruct (Hbound u z Hu Hux Huz) as [Hs0 Hb0]. split; [done|].
              intros Hin.
              apply (visiting_stack v s x Hvis) in Hin. specialize (Hb0 Hin).
              unfold minInt. lia.
      * intros u Hu Hnu. simpl in Hu. destruct (decide (u ∈ stack x)) as [Hux|Hux].
        -- by apply Hfresh.
        -- specialize (Hpushed u Hu Hux). destruct (indices s !! u) eqn:Hsu; [|done].
           destruct Hext as [_ He]. destruct (He u) as [Heq _]; [by rewrite Hsu|].
           rewrite Hpushed in Heq. by rewrite Hsu in Heq.
Qed.
Lemma whole_tarjan0 : whole tarjan0.
Proof.
  split_and!.
  - intros u w [[? Hu] _]. simpl in Hu. by rewrite lookup_empty in Hu.
  - intros x [[? Hx] _]. simpl in Hx. by rewrite lookup_empty in Hx.
  - split; [by intros scc x Hscc%elem_of_nil|]. by intros i j a b x Hi.
Qed.

(** The state in which [FindSCCs] leaves its loop. *)
Lemma FindSCCs_final roots :
  (∀ v, v ∈ roots → v ∈ vertices g) →
  ∃ s, FindSCCs roots g = Ok (sccs s)
    ∧ tarjan_inv g s ∧ stack s = [] ∧ whole s
    ∧ ∀ r, r ∈ roots → is_Some (indices s !! r).
Proof.
  intros Hroots. destruct (FindSCCs_spec g roots Hroots) as (res & Hres & _).
  unfold FindSCCs in *.
  match type of Hres with
  | context [foldM ?f ?l ?a] => destruct (foldM f l a) as [s| |] eqn:Hloop; [|done..]
  end.
  exists s. split; [done|].
  apply (foldM_ok_prefix (λ seen x,
    tarjan_inv g x ∧ stack x = [] ∧ whole x
    ∧ ∀ r, r ∈ seen → is_Some (indices x !! r))) in Hloop.
  - destruct Hloop as (? & ? & ? & ?). done.
  - split_and!; [apply tarjan0_inv|done|apply whole_tarjan0|].
    by intros r Hr%elem_of_nil.
  - intros seen v suf x x' Hl (Hinv & Hst & Hwx & Hseen) Hbody.
    assert (Hv : v ∈ vertices g).
    { apply Hroots. rewrite Hl. apply elem_of_app. right. left. }
    destruct (indices x !! v) as [iv|] eqn:Hi.
    + injection Hbody as <-. split_and!; [done..|].
      intros r [Hr| ->%list_elem_of_singleton]%elem_of_app; [by apply Hseen|].
      by rewrite Hi.
    + assert (Hfuel : (size (vertices g ∖ dom (indices x)) ≤ size (vertices g))%nat).
      { apply subseteq_size. apply subseteq_difference_l. done. }
      assert (Hreach : ∀ y, y ∈ stack x → reach g y v).
      { rewrite Hst. by intros y Hy%elem_of_nil. }
      destruct (strongConnect_spec g _ v x Hinv Hv Hi Hfuel Hreach) as (x'' & Hx'' & Hconn).
      rewrite Hbody in Hx''. injection Hx'' as <-.
      destruct (strongConnect_complete _ v x x' Hinv Hv Hi Hfuel Hreach Hwx Hbody)
        as (Hwx' & _ & _).
      pose proof Hconn as (Hinv' & [_ Hext] & Hiv & _).
      split_and!; [done|by eapply connected_root|done|].
      intros r [Hr| ->%list_elem_of_singleton]%elem_of_app; [|by rewrite Hiv].
      destruct (Hext r (Hseen r Hr)) as [-> _]. by apply Hseen.
Qed.
End tarjan_complete.

Lemma roots_vertices g roots v : roots ≡ₚ keys g → v ∈ roots → v ∈ vertices g.
Proof. intros -> Hv. by apply keys_vertices. Qed.

Lemma edge_key g u v : edge g u v → u ∈ keys g.
Proof.
  intros (e & (es & Hes & _)%edgesOf_elem_of & _). unfold keys.
  apply list_elem_of_fmap. exists (u, es). split; [done|].
  by apply elem_of_map_to_list.
Qed.

(** X7.  [FindSCCs] returns, whatever the order in which the keys of the
    graph are visited: the stack it pops is never empty and the recursion
    ends.  Every component it reports has at least two parties, pairwise
    distinct, and each of them reaches each other along edges. *)
Theorem FindSCCs_sound (g : Graph) (roots : list string) :
  roots ≡ₚ keys g →
  ∃ sccs, FindSCCs roots g = Ok sccs
    ∧ Forall (λ scc, (1 < length scc)%nat ∧ NoDup scc
                     ∧ ∀ x y, x ∈ scc → y ∈ scc → reach g x y) sccs.
Proof.
  intros Hroots. apply FindSCCs_spec. intros v. by apply roots_vertices.
Qed.

Lemma FindSCCs_sound_witness :
  ∃ sccs, FindSCCs (keys (buildGraph partialExample)) (buildGraph partialExample)
          = Ok sccs
    ∧ Forall (λ scc, (1 < length scc)%nat ∧ NoDup scc
                     ∧ ∀ x y, x ∈ scc → y ∈ scc →
                         reach (buildGraph partialExample) x y) sccs.
Proof.
  apply (FindSCCs_sound (buildGraph partialExample)
           (keys (buildGraph partialExample))).
  reflexivity.
Defined.

(** X8.  [FindSCCs] misses no component: two different parties that
    reach each other are together in one of the components reported. *)
Theorem FindSCCs_complete (g : Graph) (roots : list string) (x y : string) :
  roots ≡ₚ keys g → x ≠ y → reach g x y → reach g y x →
  ∃ sccs scc, FindSCCs roots g = Ok sccs ∧ scc ∈ sccs ∧ x ∈ scc ∧ y ∈ scc.
Proof.
  intros Hroots Hne Hxy Hyx.
  destruct (FindSCCs_final g roots) as (s & Hs & Hinv & Hst & (_ & Hsettled & _) & Hseen).
  { intros v. by apply roots_vertices. }
  assert (Hx : x ∈ roots).
  { rewrite Hroots. apply rtc_inv in Hxy as [?|(z & Hedge & _)]; [done|].
    by eapply edge_key. }
  destruct (Hsettled x) as [(scc & Hscc & Hxs & Hall)|Halone].
  - split; [by apply Hseen|]. rewrite Hst. apply not_elem_of_nil.
  - exists (sccs s), scc. split_and!; [done..|]. by apply Hall.
  - exfalso. apply Hne. symmetry. by apply Halone.
Qed.

Lemma partialExample_reach :
  reach (buildGraph partialExample) "A" "C" ∧ reach (buildGraph partialExample) "C" "A".
Proof.
  assert (H : ∀ u v, bool_decide (Exists (λ e, To e = v)
                 (edgesOf (buildGraph partialExample) u)) = true →
            edge (buildGraph partialExample) u v).
  { intros u v Hb%bool_decide_eq_true. by apply Exists_exists in Hb. }
  split.
  - apply rtc_l with "B"; [by apply H|]. apply rtc_once. by apply H.
  - apply rtc_once. by apply H.
Qed.

Lemma FindSCCs_complete_witness :
  ∃ sccs scc,
    FindSCCs (keys (buildGraph partialExample)) (buildGraph partialExample) = Ok sccs
    ∧ scc ∈ sccs ∧ "A" ∈ scc ∧ "C" ∈ scc.
Proof.
  apply (FindSCCs_complete (buildGraph partialExample)
           (keys (buildGraph partialExample)) "A" "C").
  - reflexivity.
  - discriminate.
  - apply partialExample_reach.
  - apply partialExample_reach.
Defined.

(** X9.  No party is reported twice by [FindSCCs]: two entries of its
    result that share a party are the same entry. *)
Theorem FindSCCs_disjoint (g : Graph) (roots : list string) :
  roots ≡ₚ keys g →
  ∃ sccs, FindSCCs roots g = Ok sccs
    ∧ ∀ i j a b x, sccs !! i = Some a → sccs !! j = Some b →
        x ∈ a → x ∈ b → i = j.
Proof.
  intros Hroots.
  destruct (FindSCCs_final g roots) as (s & Hs & _ & _ & (_ & _ & _ & Hapart) & _).
  { intros v. by apply roots_vertices. }
  by exists (sccs s).
Qed.

Lemma FindSCCs_disjoint_witness :
  ∃ sccs, FindSCCs (keys twoTokenGraph) twoTokenGraph = Ok sccs
    ∧ ∀ i j a b x, sccs !! i = Some a → sccs !! j = Some b →
        x ∈ a → x ∈ b → i = j.
Proof.
  apply (FindSCCs_disjoint twoTokenGraph (keys twoTokenGraph)). reflexivity.
Defined.

(** ** What the pipeline does to the amounts *)

(** [g'] has the edges of [g], in place, with amounts that are not larger. *)
Definition shrinks (g g' : Graph) : Prop :=
  ∀ from, Forall2 (λ e e', edgeKey e' = edgeKey e ∧ EdgeAmount e' ≤ EdgeAmount e)
                  (edgesOf g from) (edgesOf g' from).

Lemma shrinks_refl g : shrinks g g.
Proof. intros from. apply Forall_Forall2_diag, Forall_true. intros e. split; [done|lia]. Qed.

Lemma shrinks_trans g1 g2 g3 : shrinks g1 g2 → shrinks g2 g3 → shrinks g1 g3.
Proof.
  intros H1 H2 from. eapply Forall2_trans; [|apply H1|apply H2].
  intros x y z [Hk1 Ha1] [Hk2 Ha2]. split; [congruence|lia].
Qed.

Lemma ApplyNetting_shrinks g cycle token amount :
  unique_edges g → wf_graph g → NoDup cycle →
  0 ≤ amount ≤ CalculateNetting g cycle token →
  shrinks g (ApplyNetting g cycle token amount).
Proof.
  intros Hu Hwf Hnd Hamt from.
  destruct (ApplyNetting_exact_edges g cycle token amount from) as [-> _]; [done..|].
  apply Forall2_fmap_r, Forall_Forall2_diag, Forall_true. intros e. simpl.
  unfold nettedEdge. case_decide; simpl; split; (done || lia).
Qed.

Lemma netTokens_shrinks g cycle tokens :
  unique_edges g → wf_graph g → NoDup cycle →
  shrinks g (netTokens g cycle tokens).
Proof.
  intros Hu Hwf Hnd. revert g Hu Hwf.
  induction tokens as [|t tokens IH]; intros g Hu Hwf; [apply shrinks_refl|].
  unfold netTokens. simpl.
  fold (netTokens (if decide (CalculateNetting g cycle t > 0)
                   then ApplyNetting g cycle t (CalculateNetting g cycle t) else g)
                  cycle tokens).
  case_decide as Hpos; [|by apply IH].
  apply (shrinks_trans _ (ApplyNetting g cycle t (CalculateNetting g cycle t)));
    [apply ApplyNetting_shrinks; (done || lia)|].
  apply IH; [by apply ApplyNetting_unique|apply ApplyNetting_wf; (done || lia)].
Qed.

(** The graph that [ProcessNetting] extracts from. *)
Lemma netSCCs_shrinks o intents sccs :
  Forall (λ i, is_uint64 (Amount i)) intents →
  ∃ st', foldM (netSCC o) sccs (buildGraph intents, 1%nat) = Ok st'
         ∧ unique_edges st'.1 ∧ wf_graph st'.1
         ∧ shrinks (buildGraph intents) st'.1.
Proof.
  intros Hin.
  apply (netSCCs_inv (λ g, unique_edges g ∧ wf_graph g
                          ∧ shrinks (buildGraph intents) g)).
  - split_and!; [apply buildGraph_unique|by apply buildGraph_wf|apply shrinks_refl].
  - intros g scc c tokens (Hu & Hwf & Hs) _ (v & _ & _ & Hnd & _).
    destruct (netTokens_exact g c tokens Hu Hwf Hnd) as (_ & ? & ?).
    split_and!; [done..|]. eapply shrinks_trans; [done|].
    by apply netTokens_shrinks.
Qed.

Lemma ToIntents_elem order g i :
  i ∈ ToIntents order g ↔
  Sender i ∈ order ∧ Amount i > 0
  ∧ mkEdge (Receiver i) (Token i) (Amount i) ∈ edgesOf g (Sender i).
Proof.
  unfold ToIntents, edgeIntents. rewrite list_elem_of_bind. split.
  - intros (from & (e & He & Hi)%list_elem_of_omap & Hfrom).
    case_decide; [|done]. injection Hi as <-. simpl. by destruct e.
  - intros (Hfrom & Hpos & He). exists (Sender i). split; [|done].
    apply list_elem_of_omap. eexists. split; [done|]. simpl.
    rewrite decide_True by done. by destruct i.
Qed.

Lemma ToIntents_NoDup order g :
  NoDup order → unique_edges g → NoDup (triple <$> ToIntents order g).
Proof.
  intros Hnd Hu. apply NoDup_fmap_2_strong.
  - intros i1 i2 (_ & _ & H1)%ToIntents_elem (_ & _ & H2)%ToIntents_elem Ht.
    unfold triple in Ht. injection Ht as Hs Hr Ht. rewrite Hs in H1.
    assert (mkEdge (Receiver i1) (Token i1) (Amount i1)
            = mkEdge (Receiver i2) (Token i2) (Amount i2)) as Heq.
    { apply (unique_edges_elem (edgesOf g (Sender i2))); [apply Hu|done..|].
      unfold edgeKey. simpl. congruence. }
    destruct i1, i2. simpl in *. congruence.
  - unfold ToIntents. apply NoDup_bind; [| |done].
    + intros f1 f2 i _ _ H1 H2. unfold edgeIntents in *.
      apply list_elem_of_omap in H1 as (e1 & _ & H1), H2 as (e2 & _ & H2).
      repeat case_decide; simplify_eq. done.
    + intros from _. unfold edgeIntents. specialize (Hu from).
      induction (edgesOf g from) as [|e es IH]; csimpl; [constructor|].
      rewrite fmap_cons in Hu. apply NoDup_cons in Hu as [Hne Hu].
      case_decide; [|by apply IH]. apply NoDup_cons. split; [|by apply IH].
      intros (e' & He' & Hi)%list_elem_of_omap. case_decide; [|done].
      injection Hi as Hto Htok _. apply Hne, list_elem_of_fmap. exists e'.
      split; [|done]. unfold edgeKey. congruence.
Qed.

Lemma keys_NoDup {V : Type} (m : gmap string V) : NoDup (keys m).
Proof. apply NoDup_fst_map_to_list. Qed.

(** X10.  On intents with [uint64] amounts [ProcessNetting] returns,
    whatever the order of its map ranges.  Its output has at most one
    intent for a (sender, receiver, token); each of them is a triple of
    the input, with a positive amount that is not larger than the amount
    merged for that triple: netting never creates or enlarges an
    obligation. *)
Theorem ProcessNetting_output (o : Oracle) (intents : list Intent) :
  fair o → Forall (λ i, is_uint64 (Amount i)) intents →
  ∃ out, ProcessNetting o intents = Ok out
    ∧ NoDup (triple <$> out)
    ∧ Forall (λ i, ∃ a, mergedAmount (Sender i) (Receiver i) (Token i) intents = Some a
                        ∧ 0 < Amount i ≤ a) out.
Proof.
  intros Ho Hin. unfold ProcessNetting.
  set (g := buildGraph intents) in *.
  destruct (FindSCCs_spec g (o 0%nat (keys g))) as (sccs & -> & _);
    [intros v; by apply oracle_roots|].
  simpl. destruct (netSCCs_shrinks o intents sccs Hin) as (st' & Hst' & Hu & Hwf & Hs).
  fold g in Hst', Hs. rewrite Hst'.
  simpl. eexists. split; [done|]. split.
  - apply ToIntents_NoDup; [|done]. rewrite (Ho st'.2 (keys st'.1)). apply keys_NoDup.
  - apply Forall_forall. intros i (_ & Hpos & He)%ToIntents_elem.
    apply list_elem_of_lookup in He as [j Hj].
    destruct (Forall2_lookup_r _ _ _ _ _ (Hs (Sender i)) Hj) as (e0 & Hj0 & Hk & Ha).
    simpl in Ha. unfold edgeKey in Hk. simpl in Hk. injection Hk as Hto Htok.
    assert (He0 : e0 ∈ edgesOf g (Sender i)) by (by eapply list_elem_of_lookup_2).
    apply findEdge_unique in He0; [|apply buildGraph_unique].
    unfold g in He0. rewrite buildGraph_findEdge, <- Hto, <- Htok in He0.
    destruct (mergedAmount _ _ _ intents) as [a|]; [|done]. simpl in He0.
    exists a. split; [done|]. injection He0 as <-. simpl in Ha. lia.
Qed.

Lemma ProcessNetting_output_witness :
  ∃ out, ProcessNetting idOracle rerunExample = Ok out
    ∧ NoDup (triple <$> out)
    ∧ Forall (λ i, ∃ a, mergedAmount (Sender i) (Receiver i) (Token i) rerunExample
                          = Some a ∧ 0 < Amount i ≤ a) out.
Proof.
  apply (ProcessNetting_output idOracle rerunExample idOracle_fair).
  repeat constructor; vm_compute; discriminate.
Defined.

(** ** Inputs in a single token *)

(** Every edge of the graph is in token [T]. *)
Definition singleToken (T : string) (g : Graph) : Prop :=
  ∀ from e, e ∈ edgesOf g from → EdgeToken e = T.

Lemma buildGraph_singleToken T l :
  Forall (λ i, Token i = T) l → singleToken T (buildGraph l).
Proof.
  intros Hl from e (i & Hi & _ & _ & <-)%buildGraph_edge_intent.
  rewrite Forall_forall in Hl. by apply Hl.
Qed.

Lemma edge_shrinks g g' u v : shrinks g g' → edge g u v ↔ edge g' u v.
Proof.
  intros Hs. specialize (Hs u). split.
  - intros (e & [j Hj]%list_elem_of_lookup & <-).
    destruct (Forall2_lookup_l _ _ _ _ _ Hs Hj) as (e' & Hj' & Hk & _).
    exists e'. split; [by eapply list_elem_of_lookup_2|].
    unfold edgeKey in Hk. congruence.
  - intros (e' & [j Hj]%list_elem_of_lookup & <-).
    destruct (Forall2_lookup_r _ _ _ _ _ Hs Hj) as (e & Hj' & Hk & _).
    exists e. split; [by eapply list_elem_of_lookup_2|].
    unfold edgeKey in Hk. congruence.
Qed.

Lemma isCycle_shrinks g g' c : shrinks g g' → isCycle g c ↔ isCycle g' c.
Proof.
  intros Hs. unfold isCycle. split; intros H u v Hp.
  - apply (edge_shrinks g g'); auto.
  - apply (edge_shrinks g g'); auto.
Qed.

Lemma singleToken_shrinks T g g' : shrinks g g' → singleToken T g → singleToken T g'.
Proof.
  intros Hs HT from e' [j Hj]%list_elem_of_lookup.
  destruct (Forall2_lookup_r _ _ _ _ _ (Hs from) Hj) as (e & Hj' & Hk & _).
  unfold edgeKey in Hk. injection Hk as _ ->. apply (HT from).
  by eapply list_elem_of_lookup_2.
Qed.

Lemma findEdge_shrinks es es' to token e :
  Forall2 (λ e e', edgeKey e' = edgeKey e ∧ EdgeAmount e' ≤ EdgeAmount e) es es' →
  findEdge es to token = Some e →
  ∃ e', findEdge es' to token = Some e' ∧ EdgeAmount e' ≤ EdgeAmount e.
Proof.
  induction 1 as [|e0 e0' es es' [Hk Ha] _ IH]; [done|].
  rewrite !findEdge_cons.
  assert (matches to token e0' = matches to token e0) as ->.
  { unfold matches, edgeKey in *. by injection Hk as -> ->. }
  destruct (matches to token e0); [|done]. intros [= <-]. by exists e0'.
Qed.

(** In a graph of one token, with one edge per triple, an edge between
    two parties is the edge found for the token. *)
Lemma edge_findEdge T g u v :
  singleToken T g → unique_edges g → edge g u v →
  ∃ e, findEdge (edgesOf g u) v T = Some e ∧ e ∈ edgesOf g u.
Proof.
  intros HT Hu (e & He & <-). exists e. split; [|done].
  rewrite <- (HT u e He). by apply findEdge_unique.
Qed.

(** *** The tokens of a cycle *)

Definition tokenStep (to : string) (tm : gmap string bool) (e : Edge)
    : gmap string bool :=
  if bool_decide (To e = to) then <[EdgeToken e := true]> tm else tm.

Lemma tokenMap_fold g cycle :
  tokenMap g cycle
  = fold_left (λ tm p, fold_left (tokenStep p.2) (edgesOf g p.1) tm)
              (cyclePairs cycle) ∅.
Proof.
  unfold tokenMap. generalize (∅ : gmap string bool). generalize (cyclePairs cycle).
  induction l as [|[from to] ps IH]; intros tm; simpl; [done|]. by rewrite IH.
Qed.

Lemma tokenStep_single T to es tm :
  (∀ e, e ∈ es → EdgeToken e = T) →
  tm = ∅ ∨ tm = {[T := true]} →
  let tm' := fold_left (tokenStep to) es tm in
  (tm' = ∅ ∨ tm' = {[T := true]})
  ∧ (tm = {[T := true]} → tm' = {[T := true]})
  ∧ ((∃ e, e ∈ es ∧ To e = to) → tm' = {[T := true]}).
Proof.
  revert tm. induction es as [|e es IH]; intros tm HT Htm; simpl.
  - split_and!; [done..|]. by intros (e & He%elem_of_nil & _).
  - assert (Hstep : tokenStep to tm e = ∅ ∨ tokenStep to tm e = {[T := true]}).
    { unfold tokenStep. case_bool_decide; [|done]. right.
      rewrite (HT e) by left. destruct Htm as [-> | ->].
      - by rewrite insert_empty.
      - by rewrite insert_singleton_eq. }
    destruct (IH (tokenStep to tm e)) as (H1 & H2 & H3);
      [intros; apply HT; by right|done|].
    split_and!; [done| |].
    + intros ->. apply H2. unfold tokenStep. case_bool_decide; [|done].
      rewrite (HT e) by left. by rewrite insert_singleton_eq.
    + intros (e' & [->|He']%elem_of_cons & Hto).
      * apply H2. unfold tokenStep. rewrite bool_decide_eq_true_2 by done.
        rewrite (HT e) by left. destruct Htm as [-> | ->].
        -- by rewrite insert_empty.
        -- by rewrite insert_singleton_eq.
      * apply H3. by exists e'.
Qed.

Lemma tokenMap_single T g cycle :
  singleToken T g →
  (∃ u v, (u, v) ∈ cyclePairs cycle ∧ edge g u v) →
  tokenMap g cycle = {[T := true]}.
Proof.
  intros HT. rewrite tokenMap_fold. generalize (cyclePairs cycle). intros ps.
  assert (H : ∀ tm, tm = ∅ ∨ tm = {[T := true]} →
    let tm' := fold_left (λ tm p, fold_left (tokenStep p.2) (edgesOf g p.1) tm) ps tm in
    (tm = {[T := true]} → tm' = {[T := true]})
    ∧ ((∃ u v, (u, v) ∈ ps ∧ edge g u v) → tm' = {[T := true]})).
  { induction ps as [|[u v] ps IH]; intros tm Htm; simpl.
    - split; [done|]. by intros (? & ? & ?%elem_of_nil & _).
    - destruct (tokenStep_single T v (edgesOf g u) tm (HT u) Htm) as (H1 & H2 & H3).
      destruct (IH _ H1) as [H4 H5]. split.
      + intros Hs. apply H4, H2, Hs.
      + intros (u' & v' & [[= -> ->]|Hin]%elem_of_cons & Hedge).
        * apply H4, H3. destruct Hedge as (e & ? & ?). by exists e.
        * apply H5. by exists u', v'. }
  intros Hex. by apply (H ∅); [left|].
Qed.

Lemma keys_singleton (T : string) (b : bool) : keys ({[T := b]} : gmap string bool) = [T].
Proof. unfold keys. by rewrite map_to_list_singleton. Qed.

Lemma cyclePairs_nonempty c v : head c = Some v → ∃ u w, (u, w) ∈ cyclePairs c.
Proof.
  intros Hhd. destruct (cyclePairs c) as [|[u w] ps] eqn:Hps.
  - apply (f_equal length) in Hps. rewrite cyclePairs_length in Hps.
    destruct c; simpl in *; done.
  - exists u, w. left.
Qed.

(** The tokens that the pipeline nets on a cycle of a one-token graph. *)
Lemma netCycle_single o T st c v :
  fair o → singleToken T st.1 → isCycle st.1 c → head c = Some v →
  netCycle o st c = (netTokens st.1 c [T], S st.2).
Proof.
  intros Ho HT Hc Hhd. unfold netCycle.
  destruct (cyclePairs_nonempty c v Hhd) as (u & w & Hp).
  rewrite (tokenMap_single T) by (done || (exists u, w; auto)).
  rewrite keys_singleton.
  pose proof (Ho st.2 [T]) as Hperm. apply Permutation_singleton_r in Hperm.
  by rewrite Hperm.
Qed.

(** *** A netted cycle has an edge at zero *)

(** One of the edges of [c] in token [T] carries nothing. *)
Definition zeroOn (g : Graph) (T : string) (c : list string) : Prop :=
  ∃ u v e, (u, v) ∈ cyclePairs c
    ∧ findEdge (edgesOf g u) v T = Some e ∧ EdgeAmount e ≤ 0.

Lemma zeroOn_shrinks g g' T c : shrinks g g' → zeroOn g T c → zeroOn g' T c.
Proof.
  intros Hs (u & v & e & Hp & Hf & Ha).
  destruct (findEdge_shrinks _ _ _ _ _ (Hs u) Hf) as (e' & Hf' & Ha').
  exists u, v, e'. split_and!; [done..|lia].
Qed.

Lemma findEdge_fmap (f : Edge → Edge) (es : list Edge) to token :
  (∀ e, edgeKey (f e) = edgeKey e) →
  findEdge (f <$> es) to token = f <$> findEdge es to token.
Proof.
  intros Hf. induction es as [|e es IH]; [done|].
  rewrite fmap_cons, !findEdge_cons.
  assert (matches to token (f e) = matches to token e) as ->.
  { specialize (Hf e). unfold matches, edgeKey in *. by injection Hf as -> ->. }
  by destruct (matches to token e).
Qed.

Lemma nettedEdge_key cycle token amount from e :
  edgeKey (nettedEdge cycle token amount from e) = edgeKey e.
Proof. unfold nettedEdge. by case_decide. Qed.

(** The amount netted on a cycle of a one-token graph is the amount of
    one of its edges. *)
Lemma CalculateNetting_attained T g c v :
  unique_edges g → wf_graph g → singleToken T g → isCycle g c →
  head c = Some v →
  ∃ u w e, (u, w) ∈ cyclePairs c
    ∧ findEdge (edgesOf g u) w T = Some e
    ∧ EdgeAmount e = CalculateNetting g c T.
Proof.
  intros Hu Hwf HT Hc Hhd.
  pose proof (minStep_fold_attained g T (cyclePairs c) MaxUint64) as Hatt.
  rewrite <- CalculateNetting_fold in Hatt.
  destruct Hatt as [Heq|Hatt]; [|done].
  destruct (cyclePairs_nonempty c v Hhd) as (u & w & Hp).
  destruct (edge_findEdge T g u w HT Hu (Hc u w Hp)) as (e & Hf & He).
  exists u, w, e. split_and!; [done..|].
  pose proof (CalculateNetting_le g c T u w e Hp Hf).
  pose proof (Hwf u e He) as [_ ?]. lia.
Qed.

Lemma netTokens_zeroOn T g c v :
  unique_edges g → wf_graph g → singleToken T g →
  NoDup c → isCycle g c → head c = Some v →
  zeroOn (netTokens g c [T]) T c.
Proof.
  intros Hu Hwf HT Hnd Hc Hhd.
  destruct (CalculateNetting_attained T g c v) as (u & w & e & Hp & Hf & Ha);
    [done..|].
  unfold netTokens. simpl. case_decide as Hpos.
  - exists u, w, (nettedEdge c T (CalculateNetting g c T) u e).
    split; [done|].
    destruct (ApplyNetting_exact_edges g c T (CalculateNetting g c T) u)
      as [-> _]; [done..|lia|].
    rewrite findEdge_fmap by (intros; apply nettedEdge_key).
    rewrite Hf. split; [done|].
    apply findEdge_Some in Hf as (_ & Hto & Htok).
    unfold nettedEdge. rewrite decide_True by (by rewrite Hto).
    simpl. lia.
  - exists u, w, e. split_and!; [done..|lia].
Qed.

(** *** The pipeline on a one-token graph *)

(** What the loops of [ProcessNetting] keep true of the graph. *)
Definition netted (T : string) (g0 g : Graph) : Prop :=
  unique_edges g ∧ wf_graph g ∧ singleToken T g ∧ shrinks g0 g.

Lemma netted_step o T g0 st c v :
  fair o → netted T g0 st.1 → NoDup c → isCycle g0 c → head c = Some v →
  let st' := netCycle o st c in
  netted T g0 st'.1 ∧ shrinks st.1 st'.1 ∧ zeroOn st'.1 T c.
Proof.
  intros Ho (Hu & Hwf & HT & Hs) Hnd Hc Hhd.
  assert (Hc' : isCycle st.1 c) by (by apply (isCycle_shrinks g0 st.1)).
  rewrite (netCycle_single o T st c v) by done. simpl.
  destruct (netTokens_exact st.1 c [T] Hu Hwf Hnd) as (_ & Hu' & Hwf').
  pose proof (netTokens_shrinks st.1 c [T] Hu Hwf Hnd) as Hs'.
  split_and!; [split_and!| |]; try done.
  - by eapply singleToken_shrinks.
  - by eapply shrinks_trans.
  - by eapply netTokens_zeroOn.
Qed.

Lemma netted_cycles o T g0 cs st :
  fair o → netted T g0 st.1 →
  Forall (λ c, NoDup c ∧ isCycle g0 c ∧ is_Some (head c)) cs →
  let st' := fold_left (netCycle o) cs st in
  netted T g0 st'.1 ∧ shrinks st.1 st'.1 ∧ ∀ c, c ∈ cs → zeroOn st'.1 T c.
Proof.
  intros Ho Hst Hcs. revert st Hst.
  induction Hcs as [|c cs (Hnd & Hc & [v Hhd]) _ IH]; intros st Hst; simpl.
  - split_and!; [done|apply shrinks_refl|]. by intros c Hc%elem_of_nil.
  - destruct (netted_step o T g0 st c v) as (H1 & H2 & H3); [done..|].
    destruct (IH _ H1) as (H4 & H5 & H6).
    split_and!; [done|by eapply shrinks_trans|].
    intros c' [->|Hin]%elem_of_cons; [|by apply H6].
    by eapply zeroOn_shrinks.
Qed.

(** After the loops, every cycle of the input graph of at most four
    parties that begins in one of the components has an edge at zero. *)
Lemma netted_sccs o T g0 sccs st :
  fair o → netted T g0 st.1 →
  ∃ st', foldM (netSCC o) sccs st = Ok st'
    ∧ netted T g0 st'.1 ∧ shrinks st.1 st'.1
    ∧ ∀ scc v c, scc ∈ sccs → v ∈ scc → head c = Some v → NoDup c →
        Z.of_nat (length c) ≤ maxCycleLength → isCycle g0 c →
        zeroOn st'.1 T c.
Proof.
  intros Ho. revert st. induction sccs as [|scc sccs IH]; intros st Hst.
  - exists st. split_and!; [done..|apply shrinks_refl|].
    by intros scc v c Hscc%elem_of_nil.
  - rewrite foldM_cons, netSCC_eq.
    destruct (FindCycles_full st.1 scc maxCycleLength) as (cs & -> & Hcs & Hall).
    destruct (netted_cycles o T g0 cs st) as (H1 & H2 & H3); [done..| |].
    { eapply Forall_impl; [exact Hcs|]. simpl.
      intros c [(v & _ & _ & Hnd & Hhd) Hc]. split_and!; [done| |by exists v].
      destruct Hst as (_ & _ & _ & Hs). by apply (isCycle_shrinks g0 st.1). }
    destruct (IH _ H1) as (st' & Hst' & H4 & H5 & H6).
    exists st'. split_and!; [done..|by eapply shrinks_trans|].
    intros scc' v c [->|Hin]%elem_of_cons Hv Hhd Hnd Hlen Hc; [|by eapply H6].
    eapply zeroOn_shrinks; [exact H5|]. apply H3. eapply Hall; try done.
    destruct Hst as (_ & _ & _ & Hs). by apply (isCycle_shrinks g0 st.1).
Qed.

Lemma isCycle_forward g c k i x y :
  isCycle g c → c !! i = Some x → c !! (i + k)%nat = Some y → reach g x y.
Proof.
  intros Hc Hx. revert y. induction k as [|k IH]; intros y Hy.
  - rewrite Nat.add_0_r in Hy. assert (x = y) as -> by congruence. apply rtc_refl.
  - replace (i + S k)%nat with (S (i + k)) in Hy by lia.
    destruct (lookup_lt_is_Some_2 c (i + k)) as [z Hz].
    { apply lookup_lt_Some in Hy. lia. }
    eapply rtc_r; [by apply IH|]. by eapply isCycle_next.
Qed.

(** The parties of a cycle reach each other. *)
Lemma isCycle_reach g c x y : isCycle g c → x ∈ c → y ∈ c → reach g x y.
Proof.
  intros Hc [i Hi]%list_elem_of_lookup [j Hj]%list_elem_of_lookup.
  destruct (decide (i ≤ j)%nat) as [Hle|Hgt].
  - apply (isCycle_forward g c (j - i) i); [done..|].
    by replace (i + (j - i))%nat with j by lia.
  - pose proof (lookup_lt_Some _ _ _ Hi) as Hlt.
    destruct (lookup_lt_is_Some_2 c (pred (length c))) as [z Hz]; [lia|].
    destruct (lookup_lt_is_Some_2 c 0) as [h Hh]; [lia|].
    etrans; [|etrans].
    + apply (isCycle_forward g c (pred (length c) - i) i x z); [done..|].
      by replace (i + (pred (length c) - i))%nat with (pred (length c)) by lia.
    + apply rtc_once. apply (isCycle_close g c z h); [done| |].
      * by rewrite last_lookup.
      * by rewrite head_lookup.
    + by apply (isCycle_forward g c j 0 h y).
Qed.

Lemma reach_sub g g' u v :
  (∀ a b, edge g a b → edge g' a b) → reach g u v → reach g' u v.
Proof.
  intros Hsub. induction 1 as [|a b c Hab _ IH]; [apply rtc_refl|].
  eapply rtc_l; [by apply Hsub|done].
Qed.

(** A cycle with an edge at zero is not a cycle of positive edges. *)
Lemma zeroOn_positive T g c :
  unique_edges g → singleToken T g → zeroOn g T c →
  ¬ ∀ u v, (u, v) ∈ cyclePairs c →
      ∃ e, e ∈ edgesOf g u ∧ To e = v ∧ EdgeAmount e > 0.
Proof.
  intros Hu HT (u & v & e & Hp & Hf & Ha) Hpos.
  destruct (Hpos u v Hp) as (e' & He' & Hto & Hamt).
  pose proof (findEdge_unique (edgesOf g u) e' (Hu u) He') as Hf'.
  rewrite Hto, (HT u e' He') in Hf'. rewrite Hf in Hf'. injection Hf' as ->. lia.
Qed.

(** The edges of the graph built from extracted intents are the positive
    edges of the graph they were extracted from. *)
Lemma edge_extracted order g u v :
  edge (buildGraph (ToIntents order g)) u v →
  ∃ e, e ∈ edgesOf g u ∧ To e = v ∧ EdgeAmount e > 0.
Proof.
  intros (e & (i & Hi & Hs & Hr & _)%buildGraph_edge_intent & Hto).
  apply ToIntents_elem in Hi as (_ & Hpos & He). rewrite Hs in He.
  eexists. split; [exact He|]. simpl. split; [congruence|done].
Qed.

(** [ProcessNetting] on intents in one token: the graph it extracts its
    result from, and the cycles that have an edge at zero in it. *)
Lemma ProcessNetting_single o T intents :
  fair o → Forall (λ i, Token i = T ∧ is_uint64 (Amount i)) intents →
  ∃ st', ProcessNetting o intents = Ok (ToIntents (o st'.2 (keys st'.1)) st'.1)
    ∧ netted T (buildGraph intents) st'.1
    ∧ ∀ v w c, head c = Some v → w ≠ v →
        reach (buildGraph intents) v w → reach (buildGraph intents) w v →
        NoDup c → Z.of_nat (length c) ≤ maxCycleLength →
        isCycle (buildGraph intents) c → zeroOn st'.1 T c.
Proof.
  intros Ho Hin. unfold ProcessNetting.
  set (g := buildGraph intents) in *.
  destruct (FindSCCs_final g (o 0%nat (keys g)))
    as (s & -> & _ & Hst & (_ & Hsettled & _) & Hseen);
    [intros v; by apply oracle_roots|].
  simpl.
  destruct (netted_sccs o T g (sccs s) (g, 1%nat) Ho) as (st' & -> & Hn & _ & Hzero).
  { split_and!; simpl.
    - apply buildGraph_unique.
    - apply buildGraph_wf. eapply Forall_impl; [exact Hin|]. by intros i [_ ?].
    - apply buildGraph_singleToken. eapply Forall_impl; [exact Hin|]. by intros i [? _].
    - apply shrinks_refl. }
  simpl. exists st'. split_and!; [done..|].
  intros v w c Hhd Hne Hvw Hwv Hnd Hlen Hc.
  assert (Hv : v ∈ o 0%nat (keys g)).
  { rewrite (Ho 0%nat (keys g)).
    apply rtc_inv in Hvw as [?|(z & Hedge & _)]; [done|]. by eapply edge_key. }
  destruct (Hsettled v) as [(scc & Hscc & Hvs & _)|Halone].
  - split; [by apply Hseen|]. rewrite Hst. apply not_elem_of_nil.
  - by apply (Hzero scc v c).
  - exfalso. apply Hne. by apply Halone.
Qed.

Lemma netSCCs_none o g sccs n :
  (∀ scc, scc ∈ sccs → FindCycles g scc maxCycleLength = Ok []) →
  foldM (netSCC o) sccs (g, n) = Ok (g, n).
Proof.
  induction sccs as [|scc sccs IH]; intros Hnone; [done|].
  rewrite foldM_cons, netSCC_eq. simpl. rewrite Hnone by left. simpl.
  apply IH. intros scc' Hin. apply Hnone. by right.
Qed.

(** X11.  With every intent in one token and [uint64] amounts, the
    result of [ProcessNetting] holds no cycle of two to four parties:
    there are no pairwise distinct parties, two to four of them, each
    owing the next and the last owing the first in the result. *)
Theorem ProcessNetting_no_cycle_left (o : Oracle) (T : string)
    (intents : list Intent) :
  fair o → Forall (λ i, Token i = T ∧ is_uint64 (Amount i)) intents →
  ∃ out, ProcessNetting o intents = Ok out
    ∧ ∀ c, NoDup c → (2 ≤ length c ≤ 4)%nat →
        ¬ ∀ u v, (u, v) ∈ cyclePairs c →
            ∃ i, i ∈ out ∧ Sender i = u ∧ Receiver i = v.
Proof.
  intros Ho Hin.
  destruct (ProcessNetting_single o T intents Ho Hin)
    as (st' & -> & (Hu & _ & HT & Hs) & Hzero).
  eexists. split; [done|]. intros c Hnd Hlen Hout.
  assert (Hpos : ∀ u v, (u, v) ∈ cyclePairs c →
            ∃ e, e ∈ edgesOf st'.1 u ∧ To e = v ∧ EdgeAmount e > 0).
  { intros u v Hp. destruct (Hout u v Hp) as (i & Hi & <- & <-).
    apply ToIntents_elem in Hi as (_ & ? & ?). by eexists. }
  assert (Hc : isCycle (buildGraph intents) c).
  { apply (isCycle_shrinks _ st'.1); [done|]. intros u v Hp.
    destruct (Hpos u v Hp) as (e & ? & ? & _). by exists e. }
  destruct c as [|v [|w c]]; simpl in Hlen; [lia..|].
  apply (zeroOn_positive T st'.1 (v :: w :: c)); [done..| |done].
  apply (Hzero v w); try done.
  - apply NoDup_cons in Hnd as [Hv _]. intros ->. apply Hv. left.
  - apply (isCycle_reach _ (v :: w :: c)); [done|left|right; left].
  - apply (isCycle_reach _ (v :: w :: c)); [done|right; left|left].
  - unfold maxCycleLength. simpl. lia.
Qed.

Lemma ProcessNetting_no_cycle_left_witness :
  ∃ out, ProcessNetting idOracle partialExample = Ok out
    ∧ ∀ c, NoDup c → (2 ≤ length c ≤ 4)%nat →
        ¬ ∀ u v, (u, v) ∈ cyclePairs c →
            ∃ i, i ∈ out ∧ Sender i = u ∧ Receiver i = v.
Proof.
  apply (ProcessNetting_no_cycle_left idOracle "ETH" partialExample idOracle_fair).
  repeat constructor; vm_compute; discriminate.
Defined.

(** X12.  With every intent in one token and [uint64] amounts, netting
    the result of [ProcessNetting] again changes nothing: the second run
    returns the intents of the first, possibly in another order,
    whatever the orders of the map ranges in the two runs. *)
Theorem ProcessNetting_rerun_single_token (o1 o2 : Oracle) (T : string)
    (intents : list Intent) :
  fair o1 → fair o2 →
  Forall (λ i, Token i = T ∧ is_uint64 (Amount i)) intents →
  ∃ out1 out2, ProcessNetting o1 intents = Ok out1
    ∧ ProcessNetting o2 out1 = Ok out2
    ∧ out2 ≡ₚ out1.
Proof.
  intros Ho1 Ho2 Hin.
  destruct (ProcessNetting_single o1 T intents Ho1 Hin)
    as (st' & Hrun1 & (Hu & Hwf & HT & Hs) & Hzero).
  set (out1 := ToIntents (o1 st'.2 (keys st'.1)) st'.1) in *.
  set (g0 := buildGraph intents) in *.
  set (g1 := buildGraph out1).
  assert (Hedge : ∀ u v, edge g1 u v → edge g0 u v).
  { intros u v (e & He & Hto & _)%edge_extracted.
    apply (edge_shrinks g0 st'.1); [done|]. by exists e. }
  exists out1. unfold ProcessNetting at 2. fold g1.
  destruct (FindSCCs_spec g1 (o2 0%nat (keys g1))) as (sccs2 & -> & Hgood);
    [intros v; by apply oracle_roots|].
  simpl. rewrite netSCCs_none.
  - simpl. eexists. split_and!; [done..|].
    rewrite (ToIntents_order _ g1) by apply Ho2.
    apply buildGraph_allIntents.
    + apply ToIntents_NoDup; [|done]. rewrite (Ho1 st'.2 (keys st'.1)).
      apply keys_NoDup.
    + apply ToIntents_positive.
  - intros scc2 Hscc2. rewrite Forall_forall in Hgood. specialize (Hgood _ Hscc2).
    destruct (FindCycles_full g1 scc2 maxCycleLength) as (cs & -> & Hcs & _).
    destruct cs as [|c cs]; [done|]. exfalso.
    apply Forall_cons in Hcs as [[(v & Hv & Hlen & Hnd & Hhd) Hc] _].
    destruct (goodSCC_other g1 scc2 v Hgood Hv) as (w & Hw & Hne).
    destruct Hgood as (_ & _ & Hreach).
    apply (zeroOn_positive T st'.1 c); [done..| |].
    + apply (Hzero v w); try done.
      * apply (reach_sub g1); [done|]. by apply Hreach.
      * apply (reach_sub g1); [done|]. by apply Hreach.
      * intros a b Hp. by apply Hedge, Hc.
    + intros a b Hp. by apply (edge_extracted (o1 st'.2 (keys st'.1))), Hc.
Qed.

Lemma ProcessNetting_rerun_single_token_witness :
  ∃ out1 out2, ProcessNetting idOracle partialExample = Ok out1
    ∧ ProcessNetting idOracle out1 = Ok out2
    ∧ out2 ≡ₚ out1.
Proof.
  apply (ProcessNetting_rerun_single_token idOracle idOracle "ETH" partialExample
           idOracle_fair idOracle_fair).
  repeat constructor; vm_compute; discriminate.
Defined.

(** ** Net positions on inputs in a single token *)

(** The part of one obligation in the net position of [party]: [+1] as
    its sender, [-1] as its receiver, per unit of the amount. *)
Definition side (party token from to tok : string) : Z :=
  (if bool_decide (tok = token ∧ from = party) then 1 else 0)
  - (if bool_decide (tok = token ∧ to = party) then 1 else 0).

Lemma netPosition_cons p T i l :
  netPosition p T (i :: l)
  = Amount i * side p T (Sender i) (Receiver i) (Token i) + netPosition p T l.
Proof. unfold side. simpl. repeat case_bool_decide; lia. Qed.

Lemma netPosition_app p T l1 l2 :
  netPosition p T (l1 ++ l2) = netPosition p T l1 + netPosition p T l2.
Proof.
  induction l1 as [|i l1 IH]; [done|].
  rewrite <- app_comm_cons, !netPosition_cons, IH. lia.
Qed.

Global Instance netPosition_perm p T : Proper ((≡ₚ) ==> (=)) (netPosition p T).
Proof.
  induction 1 as [|i l l' _ IH|i j l|l1 l2 l3 _ IH1 _ IH2];
    rewrite ?netPosition_cons; [done|by rewrite IH|lia|congruence].
Qed.

Lemma netPosition_edgeIntents_cons p T from e (es : list Edge) :
  0 ≤ EdgeAmount e →
  netPosition p T (edgeIntents from (e :: es))
  = EdgeAmount e * side p T from (To e) (EdgeToken e)
    + netPosition p T (edgeIntents from es).
Proof.
  intros Hpos. unfold edgeIntents. csimpl. case_decide.
  - by rewrite netPosition_cons.
  - assert (EdgeAmount e = 0) as -> by lia. lia.
Qed.

(** What a replacement of the edges of [from] does to a net position. *)
Lemma netPosition_insert p T g from es' :
  netPosition p T (allIntents (<[from := es']> g))
  = netPosition p T (allIntents g)
    - netPosition p T (edgeIntents from (edgesOf g from))
    + netPosition p T (edgeIntents from es').
Proof.
  destruct (allIntents_insert g from (edgesOf g from) es' eq_refl) as (rest & H1 & H2).
  rewrite H1, H2, !netPosition_app. lia.
Qed.

(** *** [ApplyNetting] on a cycle whose edges are all there *)

Lemma netPosition_subEdge p T from to token a (es : list Edge) e :
  (∀ e', e' ∈ es → 0 ≤ EdgeAmount e') →
  findEdge es to token = Some e → 0 ≤ a ≤ EdgeAmount e → EdgeAmount e ≤ MaxUint64 →
  netPosition p T (edgeIntents from (subEdge es to token a))
  = netPosition p T (edgeIntents from es) - a * side p T from to token.
Proof.
  intros Hpos Hf Ha Hmax. induction es as [|e0 es IH]; [done|].
  rewrite findEdge_cons in Hf. simpl subEdge. destruct (matches to token e0) eqn:Hm.
  - injection Hf as ->. apply matches_spec in Hm as [Hto Htok].
    rewrite (netPosition_edgeIntents_cons p T from e es) by lia.
    rewrite netPosition_edgeIntents_cons; simpl; rewrite wsub_exact by done; [|lia].
    rewrite Hto, Htok. lia.
  - rewrite !netPosition_edgeIntents_cons by (apply Hpos; left).
    rewrite IH; [lia| |done]. intros e' He'. apply Hpos. by right.
Qed.

Lemma alter_insert_edges (g : Graph) (f : list Edge → list Edge) from :
  f [] = [] → is_Some (g !! from) → alter f from g = <[from := f (edgesOf g from)]> g.
Proof.
  intros Hf [es Hes]. apply map_eq. intros k.
  rewrite lookup_alter, lookup_insert. case_decide; [|done]. subst.
  unfold edgesOf. by rewrite Hes.
Qed.

Lemma netPosition_alter p T g from to token a e :
  wf_graph g →
  findEdge (edgesOf g from) to token = Some e → 0 ≤ a ≤ EdgeAmount e →
  netPosition p T (allIntents (alter (λ es, subEdge es to token a) from g))
  = netPosition p T (allIntents g) - a * side p T from to token.
Proof.
  intros Hwf Hf Ha.
  assert (He : e ∈ edgesOf g from) by (by apply findEdge_Some in Hf as [? _]).
  rewrite alter_insert_edges; [|done|].
  - rewrite netPosition_insert, (netPosition_subEdge p T from to token a _ e);
      [lia| |done..|apply (Hwf from e He)].
    intros e' He'. apply (Hwf from e' He').
  - unfold edgesOf in He. destruct (g !! from); [done|].
    by apply elem_of_nil in He.
Qed.

Lemma findEdge_subEdge_other (es : list Edge) to token a to' token' :
  (to', token') ≠ (to, token) →
  findEdge (subEdge es to token a) to' token' = findEdge es to' token'.
Proof.
  intros Hne. induction es as [|e es IH]; [done|]. simpl.
  destruct (matches to token e) eqn:Hm.
  - rewrite !findEdge_cons. apply matches_spec in Hm as [Hto Htok].
    assert (matches to' token' e = false) as Hm'.
    { apply not_true_is_false. intros [??]%matches_spec. apply Hne. congruence. }
    rewrite Hm'. unfold matches. simpl. fold (matches to' token' e). by rewrite Hm'.
  - by rewrite !findEdge_cons, IH.
Qed.

Lemma wf_graph_alter g from to token a e :
  wf_graph g → findEdge (edgesOf g from) to token = Some e →
  0 ≤ a ≤ EdgeAmount e →
  wf_graph (alter (λ es, subEdge es to token a) from g).
Proof.
  intros Hwf Hf Ha from' e'. rewrite edgesOf_alter by done.
  case_decide; [|apply Hwf]. subst from'.
  assert (He : e ∈ edgesOf g from) by (by apply findEdge_Some in Hf as [? _]).
  pose proof (Hwf from e He) as [_ Hmax]. clear He.
  generalize (Hwf from). revert Hf.
  induction (edgesOf g from) as [|e0 es IH]; intros Hf Hes; [done|].
  rewrite findEdge_cons in Hf. simpl. destruct (matches to token e0).
  - injection Hf as ->. intros [->|Hin]%elem_of_cons; [|apply Hes; by right].
    simpl. rewrite wsub_exact by done. unfold is_uint64. lia.
  - intros [->|Hin]%elem_of_cons; [apply Hes; left|].
    apply IH; [done| |done]. intros e1 He1. apply Hes. by right.
Qed.

(** The sum of [side] over pairs. *)
Definition pairSum (p T token : string) (ps : list (string * string)) : Z :=
  foldr (λ uv acc, side p T uv.1 uv.2 token + acc) 0 ps.

Lemma netPosition_applyPairs p T token a ps g :
  0 ≤ a → NoDup ps → wf_graph g →
  (∀ u v, (u, v) ∈ ps →
     ∃ e, findEdge (edgesOf g u) v token = Some e ∧ a ≤ EdgeAmount e) →
  netPosition p T (allIntents (applyPairs token a ps g))
  = netPosition p T (allIntents g) - a * pairSum p T token ps.
Proof.
  intros Ha. revert g. induction ps as [|[u v] ps IH]; intros g Hnd Hwf Hall.
  - simpl. lia.
  - apply NoDup_cons in Hnd as [Hnin Hnd].
    destruct (Hall u v) as (e & Hf & Hle); [left|].
    rewrite applyPairs_cons, IH; [| |by eapply wf_graph_alter|]; [|done|].
    + rewrite (netPosition_alter p T g u v token a e) by (done || lia).
      simpl. lia.
    + intros u' v' Hin. destruct (Hall u' v') as (e' & Hf' & Hle'); [by right|].
      exists e'. split; [|done]. rewrite edgesOf_alter by done.
      case_decide; [|done]. subst u'. rewrite findEdge_subEdge_other; [done|].
      intros [= ->]. by apply Hnin.
Qed.

(** Each party of a cycle is once the first and once the second of a
    consecutive pair. *)
Definition countSide (p T token : string) (l : list string) : Z :=
  foldr (λ x acc, (if bool_decide (token = T ∧ x = p) then 1 else 0) + acc) 0 l.

Lemma countSide_app p T token l1 l2 :
  countSide p T token (l1 ++ l2) = countSide p T token l1 + countSide p T token l2.
Proof. induction l1 as [|x l1 IH]; simpl; [done|]. rewrite IH. lia. Qed.

Lemma pairSum_count p T token ps :
  pairSum p T token ps = countSide p T token ps.*1 - countSide p T token ps.*2.
Proof.
  induction ps as [|[u v] ps IH]; csimpl; [done|]. rewrite IH. unfold side. csimpl. lia.
Qed.

Lemma cyclePairs_snd c :
  (cyclePairs c).*2 = match c with [] => [] | x :: t => t ++ [x] end.
Proof.
  destruct c as [|x t]; [done|]. apply list_eq. intros i.
  rewrite list_lookup_fmap.
  destruct (decide (i < length (x :: t))%nat) as [Hi|Hi].
  - rewrite cyclePairs_lookup by done. cbn -[Nat.modulo nth length].
    rewrite length_cons in *.
    destruct (decide (i < length t)%nat) as [Hlt|Hge].
    + rewrite lookup_app_l by done. rewrite Nat.mod_small by lia.
      rewrite Nat.add_1_r. change (nth (S i) (x :: t) "") with (nth i t "").
      destruct (nth_lookup_or_length t i "") as [->|]; [done|lia].
    + assert (i = length t) as -> by lia.
      rewrite lookup_app_r, Nat.sub_diag by done.
      replace (length t + 1)%nat with (S (length t)) by lia.
      by rewrite Nat.Div0.mod_same.
  - rewrite (lookup_ge_None_2 (cyclePairs _)) by (rewrite cyclePairs_length; lia).
    rewrite length_cons in Hi.
    rewrite lookup_ge_None_2; [done|]. rewrite length_app. simpl. lia.
Qed.

Lemma pairSum_cycle p T token c : pairSum p T token (cyclePairs c) = 0.
Proof.
  rewrite pairSum_count, cyclePairs_fst, cyclePairs_snd.
  destruct c as [|x t]; [done|]. rewrite countSide_app. simpl. lia.
Qed.

Lemma cyclePairs_NoDup c : NoDup c → NoDup (cyclePairs c).
Proof. intros Hnd. apply (NoDup_fmap_1 fst). by rewrite cyclePairs_fst. Qed.

(** Netting a cycle of a one-token graph keeps every net position. *)
Lemma netTokens_position T g c p T' :
  unique_edges g → wf_graph g → singleToken T g → NoDup c → isCycle g c →
  netPosition p T' (allIntents (netTokens g c [T]))
  = netPosition p T' (allIntents g).
Proof.
  intros Hu Hwf HT Hnd Hc. unfold netTokens. simpl. case_decide as Hpos; [|done].
  rewrite ApplyNetting_applyPairs, netPosition_applyPairs, ?pairSum_cycle;
    [lia|lia|by apply cyclePairs_NoDup|done|].
  intros u v Hp. destruct (edge_findEdge T g u v HT Hu (Hc u v Hp)) as (e & Hf & _).
  exists e. split; [done|]. by apply (CalculateNetting_le g c T u v).
Qed.

(** An invariant of the loops of [ProcessNetting] on a one-token graph. *)
Lemma netted_inv o T g0 (J : Graph → Prop) sccs st :
  fair o → netted T g0 st.1 → J st.1 →
  (∀ g c, netted T g0 g → J g → NoDup c → isCycle g c → J (netTokens g c [T])) →
  ∃ st', foldM (netSCC o) sccs st = Ok st' ∧ netted T g0 st'.1 ∧ J st'.1.
Proof.
  intros Ho Hst HJ Hstep.
  apply (foldM_inv (λ st, netted T g0 st.1 ∧ J st.1)); [done|].
  clear st Hst HJ. intros st scc _ [Hst HJ]. rewrite netSCC_eq.
  destruct (FindCycles_full st.1 scc maxCycleLength) as (cs & -> & Hcs & _).
  eexists. split; [done|].
  assert (Hcs0 : Forall (λ c, NoDup c ∧ isCycle g0 c ∧ is_Some (head c)) cs).
  { eapply Forall_impl; [exact Hcs|]. simpl.
    intros c [(v & _ & _ & Hnd & Hhd) Hc]. split_and!; [done| |by exists v].
    destruct Hst as (_ & _ & _ & Hs). by apply (isCycle_shrinks g0 st.1). }
  clear Hcs. revert st Hst HJ.
  induction Hcs0 as [|c cs (Hnd & Hc & [v Hhd]) _ IH]; intros st Hst HJ; [done|].
  simpl. destruct (netted_step o T g0 st c v) as (H1 & _ & _); [done..|].
  apply IH; [done|].
  assert (Hc' : isCycle st.1 c).
  { destruct Hst as (_ & _ & _ & Hs). by apply (isCycle_shrinks g0 st.1). }
  rewrite (netCycle_single o T st c v); try done; [|by destruct Hst as (_&_&?&_)].
  simpl. by apply Hstep.
Qed.

(** *** The net positions of a built graph *)

Lemma edgeIntents_app from (es es' : list Edge) :
  edgeIntents from (es ++ es') = edgeIntents from es ++ edgeIntents from es'.
Proof. unfold edgeIntents. apply omap_app. Qed.

Lemma netPosition_mergeEdge p T from to token a (es es' : list Edge) :
  (∀ e, e ∈ es → 0 ≤ EdgeAmount e) → 0 ≤ a →
  (∀ e, findEdge es to token = Some e → EdgeAmount e + a ≤ MaxUint64) →
  mergeEdge es to token a = Some es' →
  netPosition p T (edgeIntents from es')
  = netPosition p T (edgeIntents from es) + a * side p T from to token.
Proof.
  intros Hpos Ha. revert es' Hpos. induction es as [|e es IH]; intros es' Hpos Hfit;
    [done|].
  rewrite findEdge_cons in Hfit. simpl mergeEdge.
  pose proof (Hpos e (list_elem_of_here _ _)) as He.
  destruct (matches to token e) eqn:Hm.
  - intros [= <-]. apply matches_spec in Hm as [Hto Htok].
    specialize (Hfit e eq_refl).
    rewrite (netPosition_edgeIntents_cons p T from e es) by done.
    rewrite netPosition_edgeIntents_cons; simpl; rewrite wadd_exact by lia; [|lia].
    rewrite Hto, Htok. lia.
  - destruct (mergeEdge es to token a) as [es0|] eqn:Hes0; [|done].
    intros [= <-]. rewrite !netPosition_edgeIntents_cons by done.
    rewrite (IH es0); [lia| |done..]. intros e' He'. apply Hpos. by right.
Qed.

Lemma netPosition_AddEdge p T g from to token a :
  wf_graph g → 0 ≤ a →
  (∀ e, findEdge (edgesOf g from) to token = Some e →
        EdgeAmount e + a ≤ MaxUint64) →
  netPosition p T (allIntents (AddEdge g from to token a))
  = netPosition p T (allIntents g) + a * side p T from to token.
Proof.
  intros Hwf Ha Hfit. unfold AddEdge.
  destruct (mergeEdge (edgesOf g from) to token a) as [es'|] eqn:Hm.
  - rewrite netPosition_insert.
    rewrite (netPosition_mergeEdge p T from to token a (edgesOf g from) es');
      [lia| |done..].
    intros e He. apply (Hwf from e He).
  - rewrite netPosition_insert, edgeIntents_app, netPosition_app.
    rewrite (netPosition_edgeIntents_cons p T from (mkEdge to token a) []) by done.
    simpl. lia.
Qed.

Lemma sumAmounts_filter_nonneg (P : Intent → Prop) `{∀ i, Decision (P i)} l :
  Forall (λ i, 0 ≤ Amount i) l → 0 ≤ sumAmounts (filter P l).
Proof.
  induction 1 as [|i l Hi _ IH]; [done|]. rewrite filter_cons.
  case_decide; simpl; lia.
Qed.

Lemma sumAmounts_filter_elem (P : Intent → Prop) `{∀ i, Decision (P i)} l i :
  Forall (λ i, 0 ≤ Amount i) l → i ∈ l → P i →
  Amount i ≤ sumAmounts (filter P l).
Proof.
  intros Hl Hi HP. induction Hl as [|i0 l Hi0 Hl IH]; [by apply elem_of_nil in Hi|].
  rewrite filter_cons. apply elem_of_cons in Hi as [->|Hi].
  - rewrite decide_True by done. simpl.
    pose proof (sumAmounts_filter_nonneg P l Hl). lia.
  - specialize (IH Hi). case_decide; simpl; lia.
Qed.

(** No amount is negative and no merged amount exceeds [uint64]. *)
Definition fits (l : list Intent) : Prop :=
  Forall (λ i, 0 ≤ Amount i) l
  ∧ ∀ from to token, sumAmounts (matching from to token l) ≤ MaxUint64.

Lemma fits_uint64 l : fits l → Forall (λ i, is_uint64 (Amount i)) l.
Proof.
  intros [Hpos Hsum]. apply Forall_forall. intros i Hi. split.
  - rewrite Forall_forall in Hpos. by apply Hpos.
  - etrans; [|apply (Hsum (Sender i) (Receiver i) (Token i))].
    by apply sumAmounts_filter_elem.
Qed.

Lemma matching_snoc from to token l i :
  matching from to token (l ++ [i])
  = matching from to token l
    ++ (if decide (triple i = (from, to, token)) then [i] else []).
Proof. unfold matching. by rewrite filter_app, filter_cons, filter_nil. Qed.

Lemma fits_snoc l i : fits (l ++ [i]) → fits l ∧ 0 ≤ Amount i.
Proof.
  intros [[Hl Hi]%Forall_app Hsum]. rewrite Forall_singleton in Hi.
  split; [|done]. split; [done|]. intros from to token.
  specialize (Hsum from to token). rewrite matching_snoc, sumAmounts_app in Hsum.
  case_decide; simpl in Hsum; lia.
Qed.

Lemma buildGraph_position p T l :
  fits l → netPosition p T (allIntents (buildGraph l)) = netPosition p T l.
Proof.
  induction l as [|i l IH] using rev_ind; intros Hfit; [done|].
  destruct (fits_snoc l i Hfit) as [Hl Hi].
  pose proof (fits_uint64 l Hl) as Hu.
  rewrite buildGraph_snoc, netPosition_AddEdge, IH, netPosition_app,
    netPosition_cons; [simpl; lia|done|by apply buildGraph_wf|done|].
  intros e. rewrite buildGraph_findEdge, mergedAmount_sum by done.
  destruct Hfit as [_ Hsum]. specialize (Hsum (Sender i) (Receiver i) (Token i)).
  rewrite matching_snoc, decide_True, sumAmounts_app in Hsum by done.
  simpl in Hsum.
  pose proof (sumAmounts_filter_nonneg
                (λ j, triple j = (Sender i, Receiver i, Token i)) l (proj1 Hl)) as Hnn.
  fold (matching (Sender i) (Receiver i) (Token i) l) in Hnn.
  destruct (matching (Sender i) (Receiver i) (Token i) l) as [|i0 m]; [done|].
  intros [= <-]. simpl EdgeAmount. unfold wrap64.
  change (sumAmounts (i0 :: m)) with (Amount i0 + sumAmounts m) in *.
  unfold MaxUint64 in *. rewrite Z.mod_small; lia.
Qed.

(** X13.  With every intent in one token, no negative amount and no
    merged amount beyond [uint64], [ProcessNetting] keeps the net
    position of every party: what a party owes minus what it is owed is
    the same in the result as in the input, in every token and whatever
    the order of the map ranges. *)
Theorem ProcessNetting_net_positions (o : Oracle) (T : string)
    (intents : list Intent) :
  fair o →
  Forall (λ i, Token i = T ∧ 0 ≤ Amount i
               ∧ sumAmounts (matching (Sender i) (Receiver i) (Token i) intents)
                 ≤ MaxUint64) intents →
  ∃ out, ProcessNetting o intents = Ok out
    ∧ ∀ party token, netPosition party token out = netPosition party token intents.
Proof.
  intros Ho Hin.
  assert (Hfit : fits intents).
  { split; [eapply Forall_impl; [exact Hin|]; by intros i (_ & ? & _)|].
    intros from to token.
    destruct (matching from to token intents) as [|i0 m] eqn:Hm; [done|].
    assert (Hi0 : i0 ∈ matching from to token intents) by (rewrite Hm; left).
    apply list_elem_of_filter in Hi0 as [Ht Hi0].
    rewrite Forall_forall in Hin. destruct (Hin i0 Hi0) as (_ & _ & Hsum).
    unfold triple in Ht. injection Ht as <- <- <-. by rewrite Hm in Hsum. }
  pose proof (fits_uint64 intents Hfit) as Hu.
  unfold ProcessNetting. set (g := buildGraph intents).
  destruct (FindSCCs_spec g (o 0%nat (keys g))) as (sccs & -> & _);
    [intros v; by apply oracle_roots|].
  simpl.
  destruct (netted_inv o T g
              (λ g', ∀ p T', netPosition p T' (allIntents g')
                             = netPosition p T' (allIntents g))
              sccs (g, 1%nat) Ho) as (st' & -> & _ & Hpos).
  - split_and!; simpl.
    + apply buildGraph_unique.
    + by apply buildGraph_wf.
    + apply buildGraph_singleToken. eapply Forall_impl; [exact Hin|]. by intros i [? _].
    + apply shrinks_refl.
  - done.
  - intros g' c (Hu' & Hwf' & HT' & _) HJ Hnd Hc p T'.
    by rewrite (netTokens_position T g' c p T'), HJ.
  - simpl. eexists. split; [done|]. intros party token.
    rewrite (ToIntents_order _ st'.1) by apply Ho.
    rewrite Hpos. by apply buildGraph_position.
Qed.

Lemma ProcessNetting_net_positions_witness :
  ∃ out, ProcessNetting idOracle partialExample = Ok out
    ∧ ∀ party token,
        netPosition party token out = netPosition party token partialExample.
Proof.
  apply (ProcessNetting_net_positions idOracle "ETH" partialExample idOracle_fair).
  repeat constructor; vm_compute; discriminate.
Defined.

(** ** Self-obligations inside a component *)

(** *** The tokens of a cycle, in general *)

Lemma tokenStep_mono to (es : list Edge) tm t :
  tm !! t = Some true → fold_left (tokenStep to) es tm !! t = Some true.
Proof.
  revert tm. induction es as [|e es IH]; intros tm Htm; [done|].
  simpl. apply IH. unfold tokenStep. case_bool_decide; [|done].
  rewrite lookup_insert. by case_decide.
Qed.

Lemma tokenStep_elem to (es : list Edge) tm e :
  e ∈ es → To e = to → fold_left (tokenStep to) es tm !! EdgeToken e = Some true.
Proof.
  intros He Hto. revert tm. induction es as [|e0 es IH]; intros tm;
    [by apply elem_of_nil in He|].
  simpl. apply elem_of_cons in He as [->|He]; [|by apply IH].
  apply tokenStep_mono. unfold tokenStep. rewrite bool_decide_eq_true_2 by done.
  rewrite lookup_insert. by rewrite decide_True.
Qed.

(** The token of every edge between consecutive parties of the cycle is
    among the tokens netted on it. *)
Lemma tokenMap_elem g c u v e :
  (u, v) ∈ cyclePairs c → e ∈ edgesOf g u → To e = v →
  tokenMap g c !! EdgeToken e = Some true.
Proof.
  intros Hp He Hto. rewrite tokenMap_fold.
  generalize (∅ : gmap string bool). revert Hp. generalize (cyclePairs c).
  intros ps Hp.
  assert (Hmono : ∀ (qs : list (string * string)) tm t, tm !! t = Some true →
    fold_left (λ tm p, fold_left (tokenStep p.2) (edgesOf g p.1) tm) qs tm !! t
    = Some true).
  { induction qs as [|q qs IH]; intros tm t Htm; [done|].
    simpl. by apply IH, tokenStep_mono. }
  induction ps as [|p ps IH]; intros tm; [by apply elem_of_nil in Hp|].
  simpl. apply elem_of_cons in Hp as [<-|Hp]; [|by apply IH].
  apply Hmono. simpl. by apply tokenStep_elem.
Qed.

Lemma elem_of_keys {V : Type} (m : gmap string V) k : k ∈ keys m ↔ is_Some (m !! k).
Proof.
  unfold keys. rewrite list_elem_of_fmap. split.
  - intros ([k' x] & -> & Hkx%elem_of_map_to_list). by exists x.
  - intros [x Hx]. exists (k, x). split; [done|]. by apply elem_of_map_to_list.
Qed.

(** *** Netting a token zeroes an edge of the cycle *)

Lemma netTokens_cons g c t tokens :
  netTokens g c (t :: tokens) = netTokens (netTokens g c [t]) c tokens.
Proof. done. Qed.

(** After the netting of token [t] on a cycle that has an edge in [t],
    one of the edges of the cycle in [t] carries nothing. *)
Lemma netToken_zeroOn g c t :
  unique_edges g → wf_graph g → NoDup c →
  (∃ u v e, (u, v) ∈ cyclePairs c ∧ findEdge (edgesOf g u) v t = Some e) →
  zeroOn (netTokens g c [t]) t c.
Proof.
  intros Hu Hwf Hnd (u0 & v0 & e0 & Hp0 & Hf0).
  assert (∃ u v e, (u, v) ∈ cyclePairs c
            ∧ findEdge (edgesOf g u) v t = Some e
            ∧ EdgeAmount e = CalculateNetting g c t) as (u & v & e & Hp & Hf & Ha).
  { pose proof (minStep_fold_attained g t (cyclePairs c) MaxUint64) as Hatt.
    rewrite <- CalculateNetting_fold in Hatt.
    destruct Hatt as [Heq|Hatt]; [|done].
    exists u0, v0, e0. split_and!; [done..|].
    pose proof (CalculateNetting_le g c t u0 v0 e0 Hp0 Hf0).
    apply findEdge_Some in Hf0 as (He0 & _).
    pose proof (Hwf u0 e0 He0) as [_ ?]. lia. }
  unfold netTokens. simpl. case_decide as Hpos.
  - exists u, v, (nettedEdge c t (CalculateNetting g c t) u e).
    split; [done|].
    destruct (ApplyNetting_exact_edges g c t (CalculateNetting g c t) u)
      as [-> _]; [done..|lia|].
    rewrite findEdge_fmap by (intros; apply nettedEdge_key).
    rewrite Hf. split; [done|].
    apply findEdge_Some in Hf as (_ & Hto & Htok).
    unfold nettedEdge. rewrite decide_True by (by rewrite Hto).
    simpl. lia.
  - exists u, v, e. split_and!; [done..|lia].
Qed.

Lemma netTokens_zeroOn_elem g c tokens t :
  unique_edges g → wf_graph g → NoDup c → t ∈ tokens →
  (∃ u v e, (u, v) ∈ cyclePairs c ∧ findEdge (edgesOf g u) v t = Some e) →
  zeroOn (netTokens g c tokens) t c.
Proof.
  intros Hu Hwf Hnd. revert g Hu Hwf.
  induction tokens as [|t0 tokens IH]; intros g Hu Hwf Ht Hex;
    [by apply elem_of_nil in Ht|].
  rewrite netTokens_cons.
  destruct (netTokens_exact g c [t0] Hu Hwf Hnd) as (_ & Hu1 & Hwf1).
  pose proof (netTokens_shrinks g c [t0] Hu Hwf Hnd) as Hs1.
  destruct (decide (t = t0)) as [->|Hne].
  - eapply zeroOn_shrinks; [by apply netTokens_shrinks|]. by apply netToken_zeroOn.
  - apply elem_of_cons in Ht as [?|Ht]; [done|]. apply IH; [done..|].
    destruct Hex as (u & v & e & Hp & Hf).
    destruct (findEdge_shrinks _ _ _ _ _ (Hs1 u) Hf) as (e' & Hf' & _).
    by exists u, v, e'.
Qed.

(** *** The self-obligations of a party *)

(** Every edge from [A] to [A] carries nothing. *)
Definition selfZero (A : string) (g : Graph) : Prop :=
  ∀ t e, findEdge (edgesOf g A) A t = Some e → EdgeAmount e ≤ 0.

Lemma findEdge_shrinks_r es es' to token e' :
  Forall2 (λ e e', edgeKey e' = edgeKey e ∧ EdgeAmount e' ≤ EdgeAmount e) es es' →
  findEdge es' to token = Some e' →
  ∃ e, findEdge es to token = Some e ∧ EdgeAmount e' ≤ EdgeAmount e.
Proof.
  induction 1 as [|e0 e0' es es' [Hk Ha] _ IH]; [done|].
  rewrite !findEdge_cons.
  assert (matches to token e0' = matches to token e0) as ->.
  { unfold matches, edgeKey in *. by injection Hk as -> ->. }
  destruct (matches to token e0); [|done]. intros [= <-]. by exists e0.
Qed.

Lemma selfZero_shrinks A g g' : shrinks g g' → selfZero A g → selfZero A g'.
Proof.
  intros Hs Hz t e' Hf'.
  destruct (findEdge_shrinks_r _ _ _ _ _ (Hs A) Hf') as (e & Hf & Ha).
  specialize (Hz t e Hf). lia.
Qed.

Lemma cyclePairs_single A : cyclePairs [A] = [(A, A)].
Proof. done. Qed.

(** Netting the cycle [[A]] zeroes every edge from [A] to [A]. *)
Lemma netCycle_selfZero o st A :
  fair o → unique_edges st.1 → wf_graph st.1 →
  selfZero A (netCycle o st [A]).1.
Proof.
  intros Ho Hu Hwf t e' Hf'. unfold netCycle in Hf'. simpl in Hf'.
  set (tokens := o st.2 (keys (tokenMap st.1 [A]))) in *.
  assert (Hnd : NoDup [A]) by apply NoDup_singleton.
  pose proof (netTokens_shrinks st.1 [A] tokens Hu Hwf Hnd) as Hs.
  destruct (findEdge_shrinks_r _ _ _ _ _ (Hs A) Hf') as (e & Hf & _).
  assert (Hp : (A, A) ∈ cyclePairs [A]) by (rewrite cyclePairs_single; left).
  assert (Ht : t ∈ tokens).
  { unfold tokens. rewrite (Ho st.2 (keys (tokenMap st.1 [A]))).
    apply elem_of_keys. exists true.
    apply findEdge_Some in Hf as (He & Hto & <-).
    by apply (tokenMap_elem st.1 [A] A A). }
  destruct (netTokens_zeroOn_elem st.1 [A] tokens t Hu Hwf Hnd Ht)
    as (u & v & e1 & Hp1 & Hf1 & Ha1); [by exists A, A, e|].
  rewrite cyclePairs_single in Hp1. apply list_elem_of_singleton in Hp1.
  injection Hp1 as -> ->. rewrite Hf' in Hf1. by injection Hf1 as ->.
Qed.

(** What the loops of [ProcessNetting] keep true of the graph, on any
    input with [uint64] amounts. *)
Definition reduced (g0 g : Graph) : Prop :=
  unique_edges g ∧ wf_graph g ∧ shrinks g0 g.

Lemma reduced_step o g0 st c :
  reduced g0 st.1 → NoDup c →
  reduced g0 (netCycle o st c).1 ∧ shrinks st.1 (netCycle o st c).1.
Proof.
  intros (Hu & Hwf & Hs) Hnd. unfold netCycle. simpl.
  set (tokens := o st.2 (keys (tokenMap st.1 c))).
  destruct (netTokens_exact st.1 c tokens Hu Hwf Hnd) as (_ & Hu' & Hwf').
  pose proof (netTokens_shrinks st.1 c tokens Hu Hwf Hnd) as Hs'.
  split_and!; [split_and!|]; try done. by eapply shrinks_trans.
Qed.

Lemma reduced_cycles o g0 A cs st :
  fair o → reduced g0 st.1 → Forall (λ c, NoDup c) cs →
  let st' := fold_left (netCycle o) cs st in
  reduced g0 st'.1 ∧ shrinks st.1 st'.1 ∧ ([A] ∈ cs → selfZero A st'.1).
Proof.
  intros Ho Hst Hcs. revert st Hst.
  induction Hcs as [|c cs Hnd _ IH]; intros st Hst; simpl.
  - split_and!; [done|apply shrinks_refl|]. by intros ?%elem_of_nil.
  - destruct (reduced_step o g0 st c Hst Hnd) as [H1 H2].
    destruct (IH _ H1) as (H3 & H4 & H5).
    split_and!; [done|by eapply shrinks_trans|].
    intros [<-|Hin]%elem_of_cons; [|by apply H5].
    eapply selfZero_shrinks; [exact H4|].
    destruct Hst as (Hu & Hwf & _). by apply netCycle_selfZero.
Qed.

(** After the loops, the self-obligations of a party of one of the
    components carry nothing. *)
Lemma reduced_sccs o g0 A sccs st :
  fair o → reduced g0 st.1 →
  ∃ st', foldM (netSCC o) sccs st = Ok st'
    ∧ reduced g0 st'.1 ∧ shrinks st.1 st'.1
    ∧ ((∃ scc, scc ∈ sccs ∧ A ∈ scc) → edge g0 A A → selfZero A st'.1).
Proof.
  intros Ho. revert st. induction sccs as [|scc sccs IH]; intros st Hst.
  - exists st. split_and!; [done..|apply shrinks_refl|].
    by intros (scc & Hscc%elem_of_nil & _).
  - rewrite foldM_cons, netSCC_eq.
    destruct (FindCycles_full st.1 scc maxCycleLength) as (cs & -> & Hcs & Hall).
    destruct (reduced_cycles o g0 A cs st Ho Hst) as (H1 & H2 & H3).
    { eapply Forall_impl; [exact Hcs|]. simpl. by intros c [(v & _ & _ & Hnd & _) _]. }
    destruct (IH _ H1) as (st' & Hst' & H4 & H5 & H6).
    exists st'. split_and!; [done..|by eapply shrinks_trans|].
    intros (scc' & [->|Hin]%elem_of_cons & HA) Hedge; [|apply H6; [by exists scc'|done]].
    eapply selfZero_shrinks; [exact H5|]. apply H3.
    apply (Hall A [A]); [done..|apply NoDup_singleton|unfold maxCycleLength; simpl; lia|].
    intros u v Hp. rewrite cyclePairs_single in Hp.
    apply list_elem_of_singleton in Hp. injection Hp as -> ->.
    destruct Hst as (_ & _ & Hs). by apply (edge_shrinks g0 st.1).
Qed.

(** The self-obligation of a party that is on a cycle with another party
    is netted to zero: the output has no intent from the party to
    itself. *)
Lemma self_loop_member_netted o intents A B :
  fair o → Forall (λ i, is_uint64 (Amount i)) intents →
  B ≠ A → reach (buildGraph intents) A B → reach (buildGraph intents) B A →
  ∃ out, ProcessNetting o intents = Ok out
    ∧ ∀ i, i ∈ out → ¬ (Sender i = A ∧ Receiver i = A).
Proof.
  intros Ho Hin Hne HAB HBA. unfold ProcessNetting.
  set (g := buildGraph intents) in *.
  destruct (FindSCCs_final g (o 0%nat (keys g)))
    as (s & -> & _ & Hst & (_ & Hsettled & _) & Hseen);
    [intros v; by apply oracle_roots|].
  simpl.
  destruct (reduced_sccs o g A (sccs s) (g, 1%nat) Ho)
    as (st' & -> & (Hu & Hwf & Hs) & _ & Hzero).
  { split_and!; simpl; [apply buildGraph_unique|by apply buildGraph_wf|apply shrinks_refl]. }
  simpl. eexists. split; [done|].
  intros i (_ & Hpos & He)%ToIntents_elem [HS HR]. rewrite HS, HR in He.
  assert (HA : A ∈ o 0%nat (keys g)).
  { rewrite (Ho 0%nat (keys g)).
    apply rtc_inv in HAB as [?|(z & Hedge & _)]; [done|]. by eapply edge_key. }
  assert (Hz : selfZero A st'.1).
  { apply Hzero.
    - destruct (Hsettled A) as [(scc & Hscc & HAs & _)|Halone].
      + split; [by apply Hseen|]. rewrite Hst. apply not_elem_of_nil.
      + by exists scc.
      + exfalso. apply Hne. by apply Halone.
    - apply (edge_shrinks g st'.1); [done|]. by eexists. }
  pose proof (findEdge_unique _ _ (Hu A) He) as Hf. simpl in Hf.
  specialize (Hz _ _ Hf). simpl in Hz. lia.
Qed.

Lemma selfLoopExample_cycle :
  reach (buildGraph selfLoopExample) "A" "B"
  ∧ reach (buildGraph selfLoopExample) "B" "A".
Proof.
  assert (H : ∀ u v, bool_decide (Exists (λ e, To e = v)
                 (edgesOf (buildGraph selfLoopExample) u)) = true →
            edge (buildGraph selfLoopExample) u v).
  { intros u v Hb%bool_decide_eq_true. by apply Exists_exists in Hb. }
  split; apply rtc_once; by apply H.
Qed.

(** C10 (amended).  What [ProcessNetting] does to a self-obligation, an
    intent from a party [A] to itself, depends on the other parties; in
    both cases it returns, whatever the order of its map ranges.  When
    [A] is on no cycle with another party (so that [A] is in no
    component of two parties or more), the self-obligation is not
    netted: for every token in which its merged amount is positive, the
    output has the intent from [A] to [A] with that amount.  When [A] is
    on a cycle with another party, the self-obligation is netted to
    zero: on intents with [uint64] amounts, the output has no intent
    from [A] to [A]. *)
Theorem self_loop_kept_or_netted (o : Oracle) (intents : list Intent) (A : string) :
  fair o →
  ∃ out, ProcessNetting o intents = Ok out
    ∧ ((∀ B, reach (buildGraph intents) A B → reach (buildGraph intents) B A →
             B = A) →
       ∀ T a, mergedAmount A A T intents = Some a → a > 0 →
              mkIntent A A T a ∈ out)
    ∧ (Forall (λ i, is_uint64 (Amount i)) intents →
       (∃ B, B ≠ A ∧ reach (buildGraph intents) A B
             ∧ reach (buildGraph intents) B A) →
       ∀ i, i ∈ out → ¬ (Sender i = A ∧ Receiver i = A)).
Proof.
  intros Ho. destruct (ProcessNetting_total o intents Ho) as (out & Hout).
  exists out. split_and!; [done| |].
  - intros Halone T a Ha Hpos.
    destruct (self_loop_alone_kept o intents A T a Ho Ha Hpos Halone)
      as (out' & Hout' & Hin).
    rewrite Hout in Hout'. by injection Hout' as ->.
  - intros Hin (B & Hne & HAB & HBA).
    destruct (self_loop_member_netted o intents A B Ho Hin Hne HAB HBA)
      as (out' & Hout' & Hno).
    rewrite Hout in Hout'. by injection Hout' as ->.
Qed.

Lemma self_loop_kept_or_netted_witness :
  (∃ out, ProcessNetting idOracle loneSelfLoop = Ok out
          ∧ mkIntent "A" "A" "ETH" 7 ∈ out)
  ∧ (∃ out, ProcessNetting idOracle selfLoopExample = Ok out
            ∧ ∀ i, i ∈ out → ¬ (Sender i = "A" ∧ Receiver i = "A")).
Proof.
  split.
  - destruct (self_loop_kept_or_netted idOracle loneSelfLoop "A" idOracle_fair)
      as (out & Hout & Hkept & _).
    exists out. split; [exact Hout|].
    apply Hkept.
    + apply loneSelfLoop_alone.
    + vm_compute. reflexivity.
    + lia.
  - destruct (self_loop_kept_or_netted idOracle selfLoopExample "A" idOracle_fair)
      as (out & Hout & _ & Hnetted).
    exists out. split; [exact Hout|].
    apply Hnetted.
    + repeat constructor; vm_compute; discriminate.
    + exists "B". split; [discriminate|]. apply selfLoopExample_cycle.
Defined.
